(** * watsdabird-backend: the upload endpoint of [app.py]

    A shallow embedding of [src/app.py] (a Flask service that classifies an
    uploaded bird recording) and the proofs of its specified properties.

    Conventions of the embedding.
    - Python [str] is [string]; the only characters the program inspects
      are ['.'] and the ASCII letters of the allowed extensions.
    - Python exceptions are values of [Exn]; a call that may raise returns a
      [Result]; code that also touches the disk or calls a collaborator
      lives in the monad [M] over the [World].
    - Collaborators that are not part of [app.py] (werkzeug, the operating
      system, [audio_util], TensorFlow, the Keras model) are the fields of
      the record [Env].
    - Arrays hold IEEE 754 binary32 numbers, as the arrays of TensorFlow
      and Keras do: a spectrogram is a list of [Float.t] (a rational, an
      infinity or NaN), and every operation rounds its exact result to
      the format.  The probabilities that the model returns are binary32
      numbers, held as rationals; their sums and quotients are rounded.
      The rounding is compared with the Standard Library's description
      of IEEE 754 ([F32]) on sample data. *)

From Stdlib Require Import ZArith QArith Qminmax Qround Qabs Qpower Lqa Ascii String.
From Stdlib Require Floats.SpecFloat.
From stdpp Require Import base gmap strings list pretty.

Local Open Scope string_scope.

(** ** Exceptions *)

Record Exn := mkExn { exn_class : string; exn_str : string }.

Inductive Result (A : Type) : Type :=
| Ok (a : A)
| Raise (e : Exn).
Arguments Ok {A} a.
Arguments Raise {A} e.

Definition IndexError : Exn := mkExn "IndexError" "list index out of range".

(** ** Python string operations used by [allowed_file] *)

Module PyStr.

(** [c in s] for a one-character [c]. *)
Fixpoint contains (c : ascii) (s : string) : bool :=
  match s with
  | EmptyString => false
  | String d t => Ascii.eqb d c || contains c t
  end.

(** [s.rsplit(sep, 1)]: split once, at the last occurrence of [sep]. *)
Fixpoint rsplit1 (sep : ascii) (s : string) : list string :=
  match s with
  | EmptyString => [EmptyString]
  | String c t =>
      match rsplit1 sep t with
      | [a; b] => [String c a; b]
      | _ => if Ascii.eqb c sep then [EmptyString; t] else [String c t]
      end
  end.

Definition is_upper (c : ascii) : bool :=
  let n := nat_of_ascii c in (65 <=? n)%nat && (n <=? 90)%nat.

Definition is_lower (c : ascii) : bool :=
  let n := nat_of_ascii c in (97 <=? n)%nat && (n <=? 122)%nat.

Definition lower_char (c : ascii) : ascii :=
  if is_upper c then ascii_of_nat (nat_of_ascii c + 32) else c.

Definition upper_char (c : ascii) : ascii :=
  if is_lower c then ascii_of_nat (nat_of_ascii c - 32) else c.

(** [s.lower()] *)
Fixpoint lower (s : string) : string :=
  match s with
  | EmptyString => EmptyString
  | String c t => String (lower_char c) (lower t)
  end.

(** [l[i]] on a list: [IndexError] out of range. *)
Definition index {A} (l : list A) (i : nat) : Result A :=
  match l !! i with
  | Some x => Ok x
  | None => Raise IndexError
  end.

(** Two characters that differ at most in letter case. *)
Definition same_char_nocase (a b : ascii) : bool :=
  Ascii.eqb a b || Ascii.eqb (lower_char a) b || Ascii.eqb (upper_char a) b.

(** Two strings of the same length that differ at most in letter case. *)
Fixpoint same_nocase (s t : string) : bool :=
  match s, t with
  | EmptyString, EmptyString => true
  | String a s', String b t' => same_char_nocase a b && same_nocase s' t'
  | _, _ => false
  end.

End PyStr.

(** ** Configuration ([app.py], lines 13-27) *)

Definition UPLOAD_FOLDER : string := "uploads".
Definition ALLOWED_EXTENSIONS : gset string := {[ "wav"; "mp3"; "flac"; "ogg" ]}.
Definition TARGET_SHAPE : nat * nat := (64, 108)%nat.
Definition NUM_CLASSES : Z := 4.
Definition SAMPLE_RATE : Z := 22050.
Definition WINDOW_MS : Z := 5000.
Definition OVERLAP_MS : Z := 2500.

Definition CLASS_MAP : gmap Z string :=
  {[ 0%Z := "AtlanticCanary";
     1%Z := "Sooty-headedBulbul";
     2%Z := "ZebraDove";
     3%Z := "MoustachedBabbler" ]}.

(** ** [allowed_file] ([app.py], lines 43-44)

    [and] is short-circuit: the subscript [[1]] is evaluated only when the
    name contains a dot. *)
Definition allowed_file (filename : string) : Result bool :=
  if PyStr.contains "." filename then
    match PyStr.index (PyStr.rsplit1 "." filename) 1 with
    | Ok ext => Ok (bool_decide (PyStr.lower ext ∈ ALLOWED_EXTENSIONS))
    | Raise e => Raise e
    end
  else Ok false.


(** ** Rounding to an integer *)

(** Rounding of a rational to the nearest integer, ties to the even one. *)
Definition round_half_even (y : Q) : Z :=
  let f := Qfloor y in
  match (y - inject_Z f ?= 1 # 2)%Q with
  | Lt => f
  | Gt => (f + 1)%Z
  | Eq => if Z.even f then f else (f + 1)%Z
  end.

(** ** Floating-point numbers

    NumPy and TensorFlow arrays hold IEEE 754 numbers: binary32 for the
    arrays of this program, binary64 for Python's [float].  A number is a
    rational, an infinity or NaN; every operation computes the exact
    result and rounds it to the nearest number of its format, ties to the
    even mantissa, with gradual underflow, and to an infinity from
    [2 ^ emax] on.  A zero carries no sign: the sign of a zero shows only
    in a division by zero. *)
Module Float.

Record Format := mkFormat { prec : Z; emin : Z; emax : Z }.

Definition binary32 : Format := mkFormat 24 (-126) 128.
Definition binary64 : Format := mkFormat 53 (-1022) 1024.

Definition pow2 (e : Z) : Q := (2 ^ e)%Q.

(** The exponent [e] with [2 ^ e <= q < 2 ^ (e + 1)], for [0 < q]. *)
Definition ilog2 (q : Q) : Z :=
  let e0 := (Z.log2 (Qnum q) - Z.log2 (Zpos (Qden q)))%Z in
  if Qle_bool (pow2 e0) q then e0 else (e0 - 1)%Z.

(** The exponent of the binade of [q]; subnormal numbers share the lowest
    one. *)
Definition bexp (f : Format) (q : Q) : Z := Z.max (ilog2 q) (emin f).

(** The distance between neighbouring numbers of the format around [q]. *)
Definition ulp (f : Format) (q : Q) : Q := pow2 (bexp f q - (prec f - 1)).

Definition mant (f : Format) (q : Q) : Z := round_half_even (q / ulp f q).

Definition round_pos (f : Format) (q : Q) : Q :=
  (inject_Z (mant f q) * ulp f q)%Q.

(** Rounding with an unbounded exponent range above. *)
Definition round_fin (f : Format) (q : Q) : Q :=
  match (q ?= 0)%Q with
  | Eq => 0%Q
  | Gt => round_pos f q
  | Lt => (- round_pos f (- q))%Q
  end.

Inductive t : Type :=
| Fin (q : Q)
| PInf
| NInf
| NaN.

(** Rounding to the format. *)
Definition round (f : Format) (q : Q) : t :=
  let r := round_fin f q in
  if Qle_bool (pow2 (emax f)) r then PInf
  else if Qle_bool r (- pow2 (emax f)) then NInf
  else Fin r.

Definition is_finite (a : t) : bool :=
  match a with
  | Fin _ => true
  | _ => false
  end.

Definition opp (a : t) : t :=
  match a with
  | Fin x => Fin (- x)
  | PInf => NInf
  | NInf => PInf
  | NaN => NaN
  end.

Definition add (f : Format) (a b : t) : t :=
  match a, b with
  | NaN, _ | _, NaN => NaN
  | PInf, NInf | NInf, PInf => NaN
  | PInf, _ | _, PInf => PInf
  | NInf, _ | _, NInf => NInf
  | Fin x, Fin y => round f (x + y)
  end.

Definition sub (f : Format) (a b : t) : t := add f a (opp b).

Definition div (f : Format) (a b : t) : t :=
  match a, b with
  | NaN, _ | _, NaN => NaN
  | (PInf | NInf), (PInf | NInf) => NaN
  | PInf, Fin y => if Qle_bool 0 y then PInf else NInf
  | NInf, Fin y => if Qle_bool 0 y then NInf else PInf
  | Fin _, (PInf | NInf) => Fin 0
  | Fin x, Fin y =>
      match (y ?= 0)%Q with
      | Eq =>
          match (x ?= 0)%Q with
          | Eq => NaN
          | Gt => PInf
          | Lt => NInf
          end
      | _ => round f (x / y)
      end
  end.

(** Conversion to another format. *)
Definition convert (f : Format) (a : t) : t :=
  match a with
  | Fin x => round f x
  | _ => a
  end.

(** [a <= b]; false when one of them is NaN. *)
Definition leb (a b : t) : bool :=
  match a, b with
  | NaN, _ | _, NaN => false
  | NInf, _ | _, PInf => true
  | PInf, _ | _, NInf => false
  | Fin x, Fin y => Qle_bool x y
  end.

(** [np.minimum] and [np.maximum]: a NaN operand is the result. *)
Definition minimum (a b : t) : t :=
  match a, b with
  | NaN, _ | _, NaN => NaN
  | _, _ => if leb a b then a else b
  end.

Definition maximum (a b : t) : t :=
  match a, b with
  | NaN, _ | _, NaN => NaN
  | _, _ => if leb b a then a else b
  end.

End Float.

(** ** Array operations (NumPy) *)

(** NumPy's rule for an operation between an array or NumPy scalar and
    another scalar differs between its releases.  NumPy 1 looks at the
    values of the scalars ([Legacy]): the sum of an [np.float32] scalar
    and a Python [float] is computed in binary64, an array divided by a
    scalar keeps its element type, and the scalar is converted to it.
    NumPy 2 looks at the types only ([Weak], NEP 50): a Python [float]
    takes the type of the other operand, an [np.intp] scalar does not. *)
Inductive Promotion : Type :=
| Legacy
| Weak.

Definition ValueError (msg : string) : Exn := mkExn "ValueError" msg.

(** [preds.mean(axis=0)]: the rows are added up element-wise, one after the
    other, and the sum is divided by the number of rows.  [preds] is a
    two-dimensional array, so all rows have the same length.  Keras returns
    one row per element of the batch and the batch is not empty; for no
    rows at all (where NumPy yields NaNs) the model returns the empty
    vector.  The arithmetic is a parameter. *)
Definition mean_axis0_with {A} (add div : A -> A -> A) (of_nat : nat -> A)
    (preds : list (list A)) : list A :=
  match preds with
  | [] => []
  | r :: rs =>
      let n := of_nat (length preds) in
      (fun s => div s n) <$> foldl (zip_with add) r rs
  end.

Module Np.

(** [a.min()]: the reduction has no identity, an empty array raises. *)
Definition min (a : list Float.t) : Result Float.t :=
  match a with
  | [] => Raise (ValueError "zero-size array to reduction operation minimum which has no identity")
  | x :: t => Ok (foldl Float.minimum x t)
  end.

(** [a.max()] *)
Definition max (a : list Float.t) : Result Float.t :=
  match a with
  | [] => Raise (ValueError "zero-size array to reduction operation maximum which has no identity")
  | x :: t => Ok (foldl Float.maximum x t)
  end.

(** The mean of an array of probabilities.  The entries are binary32
    numbers between 0 and 1, held as rationals: their sums never leave
    the range of binary32, so the infinities and NaN are left out.  The
    sum of two entries is rounded to binary32. *)
Definition add32 (a b : Q) : Q := Float.round_fin Float.binary32 (a + b).

(** The number of rows as the divisor: an [np.intp] scalar, converted to
    binary32 under NumPy 1 and to binary64 under NumPy 2. *)
Definition count (p : Promotion) (n : nat) : Q :=
  match p with
  | Legacy => Float.round_fin Float.binary32 (inject_Z (Z.of_nat n))
  | Weak => Float.round_fin Float.binary64 (inject_Z (Z.of_nat n))
  end.

(** [np.true_divide(sum, count, out=sum, casting='unsafe')]: the quotient
    is computed in binary32 under NumPy 1; under NumPy 2 it is computed in
    binary64 and then stored into the binary32 array. *)
Definition true_divide (p : Promotion) (s n : Q) : Q :=
  match p with
  | Legacy => Float.round_fin Float.binary32 (s / n)
  | Weak => Float.round_fin Float.binary32 (Float.round_fin Float.binary64 (s / n))
  end.

Definition mean_axis0 (p : Promotion) (preds : list (list Q)) : list Q :=
  mean_axis0_with add32 (true_divide p) (count p) preds.

(** [np.argmax(v)]: a left-to-right scan that replaces the running best
    only by a strictly larger element. *)
Fixpoint argmax_go (best_i : nat) (best : Q) (i : nat) (v : list Q) : nat :=
  match v with
  | [] => best_i
  | x :: t =>
      match (best ?= x)%Q with
      | Lt => argmax_go i x (S i) t
      | _ => argmax_go best_i best (S i) t
      end
  end.

Definition argmax (v : list Q) : Result nat :=
  match v with
  | [] => Raise (ValueError "attempt to get argmax of an empty sequence")
  | x :: t => Ok (argmax_go 0 x 1 t)
  end.

End Np.

(** IEEE binary32 as the Standard Library specifies it, for comparison. *)
Module F32.

Definition prec : Z := 24.
Definition emax : Z := 128.

Definition add : SpecFloat.spec_float -> SpecFloat.spec_float -> SpecFloat.spec_float :=
  SpecFloat.SFadd prec emax.

Definition sub : SpecFloat.spec_float -> SpecFloat.spec_float -> SpecFloat.spec_float :=
  SpecFloat.SFsub prec emax.

Definition div : SpecFloat.spec_float -> SpecFloat.spec_float -> SpecFloat.spec_float :=
  SpecFloat.SFdiv prec emax.

Definition of_nat (n : nat) : SpecFloat.spec_float :=
  SpecFloat.binary_normalize prec emax (Z.of_nat n) 0 false.

Definition mean_axis0 (preds : list (list SpecFloat.spec_float))
  : list SpecFloat.spec_float :=
  mean_axis0_with add div of_nat preds.

(** The binary32 numbers nearest to 0.1 and to 0.7. *)
Definition tenth : SpecFloat.spec_float :=
  SpecFloat.S754_finite false 13421773 (-27).
Definition seven_tenths : SpecFloat.spec_float :=
  SpecFloat.S754_finite false 11744051 (-24).

(** The binary32 number nearest to 1e-8, zero and one half. *)
Definition epsilon : SpecFloat.spec_float :=
  SpecFloat.S754_finite false 11258999 (-50).
Definition zero : SpecFloat.spec_float := SpecFloat.S754_zero false.
Definition half : SpecFloat.spec_float :=
  SpecFloat.S754_finite false 8388608 (-24).

End F32.

(** The normalization of [preprocess_segment] ([app.py], line 53):
    [(spec - spec.min()) / (spec.max() - spec.min() + 1e-8)], on the
    binary32 array that [tf.image.resize(...).numpy()] returns. *)

(** The Python [float] literal [1e-8]: the binary64 number nearest to it. *)
Definition EPSILON : Float.t := Float.round Float.binary64 (1 # 100000000).

(** [range + 1e-8] for the [np.float32] scalar [range], as the divisor of a
    binary32 array.  Under NumPy 1 the sum is a binary64 scalar, which the
    division converts to binary32; under NumPy 2 the literal is converted
    to binary32 and the sum is computed in binary32. *)
Definition denominator (p : Promotion) (range : Float.t) : Float.t :=
  match p with
  | Legacy => Float.convert Float.binary32 (Float.add Float.binary64 range EPSILON)
  | Weak => Float.add Float.binary32 range (Float.convert Float.binary32 EPSILON)
  end.

Definition normalize (p : Promotion) (spec : list Float.t) : Result (list Float.t) :=
  match Np.min spec with
  | Raise e => Raise e
  | Ok mn =>
      match Np.max spec with
      | Raise e => Raise e
      | Ok mx =>
          let denom := denominator p (Float.sub Float.binary32 mx mn) in
          Ok ((fun x => Float.div Float.binary32 (Float.sub Float.binary32 x mn) denom)
                <$> spec)
      end
  end.

(** ** Python built-ins used by the handler *)

(** [round(p, ndigits)] for [ndigits >= 0]. *)
Definition py_round (p : Q) (ndigits : nat) : Q :=
  let scale := Z.to_pos (10 ^ Z.of_nat ndigits) in
  Qmake (round_half_even (p * inject_Z (Zpos scale))) scale.

(** [os.path.join(a, b)] (posixpath). *)
Definition starts_with_slash (s : string) : bool :=
  match s with String "/" _ => true | _ => false end.

Fixpoint ends_with_slash (s : string) : bool :=
  match s with
  | EmptyString => false
  | String c EmptyString => Ascii.eqb c "/"
  | String _ t => ends_with_slash t
  end.

Definition os_path_join (a b : string) : string :=
  if starts_with_slash b then b
  else if String.eqb a "" || ends_with_slash a then a +:+ b
  else a +:+ "/" +:+ b.

(** [CLASS_MAP.get(i, f'Class {i}')] *)
Definition class_label (i : Z) : string :=
  default ("Class " +:+ pretty i) (CLASS_MAP !! i).

(** ** JSON values and HTTP responses *)

#[warnings="-register-all"]
Inductive Json : Type :=
| JStr (s : string)
| JNum (q : Q)
| JObj (members : gmap string Json).

Record Response := mkResponse { status : Z; body : Json }.

(** [jsonify(d)], alone (status 200) or in a pair with a status. *)
Definition jsonify (d : gmap string Json) : Json := JObj d.

Definition error_body (msg : string) : Json :=
  jsonify {[ "error" := JStr msg ]}.

(** The dict comprehension of lines 107-110: entries are stored in the
    order of [enumerate(probs)], a later entry overwrites an equal key. *)
Definition enumerate {A} (l : list A) : list (Z * A) :=
  imap (fun i x => (Z.of_nat i, x)) l.

Definition probabilities_dict (probs : list Q) : gmap string Json :=
  foldl (fun d '(i, p) => <[class_label i := JNum (py_round p 4)]> d)
        ∅ (enumerate probs).

Definition prediction_body (probs : list Q) (pred_idx : Z) : Json :=
  jsonify {[ "prediction" := JStr (class_label pred_idx);
             "probabilities" := JObj (probabilities_dict probs) ]}.

(** ** The world: the disk and the log of collaborator calls *)

Inductive Event : Type :=
| EvSave (path : string)
| EvRemove (path : string)
| EvOpen (path : string)
| EvSplit
| EvMelspectrogram
| EvResize
| EvModelPredict.

(** The disk maps the paths of the existing files to their contents. *)
Record World := mkWorld { disk : gmap string string; trace : list Event }.

Definition exists_on_disk (path : string) (w : World) : Prop :=
  is_Some (disk w !! path).

(** ** The monad of the handler: state and exceptions *)

Definition M (A : Type) : Type := World -> World * Result A.

Global Instance M_ret : MRet M := fun A a w => (w, Ok a).

Global Instance M_bind : MBind M := fun A B f m w =>
  match m w with
  | (w', Ok a) => f a w'
  | (w', Raise e) => (w', Raise e)
  end.

Definition raise {A} (e : Exn) : M A := fun w => (w, Raise e).

Definition lift {A} (r : Result A) : M A := fun w => (w, r).

Definition log (ev : Event) : M unit :=
  fun w => (mkWorld (disk w) (trace w ++ [ev]), Ok tt).

(** An operating system call: it may change the disk and may raise. *)
Definition os_call {A} (f : gmap string string -> gmap string string * Result A)
  : M A :=
  fun w => let '(d, r) := f (disk w) in (mkWorld d (trace w), r).

(** A call that only reads the disk. *)
Definition read_call {A} (f : gmap string string -> Result A) : M A :=
  fun w => (w, f (disk w)).

(** [try: body  except Exception as e: handler(e)] *)
Definition try_except {A} (body : M A) (handler : Exn -> M A) : M A :=
  fun w =>
    match body w with
    | (w', Ok a) => (w', Ok a)
    | (w', Raise e) => handler e w'
    end.

(** ** Collaborators

    Everything [app.py] calls and does not define.  The operating system
    calls return the new disk together with their outcome; the loader reads
    the disk; the numerical steps are functions that may raise.  All of
    them raise only subclasses of [Exception].  [tf.image.resize] returns a
    binary32 array and the model one row of probabilities per array of the
    batch; the installed NumPy fixes the promotion rule. *)
Record Env := mkEnv {
  Audio : Type;
  Segment : Type;
  Spectrogram : Type;
  secure_filename : string -> string;
  FileStorage_save : gmap string string -> string -> string ->
                     gmap string string * Result unit;
  os_remove : gmap string string -> string -> gmap string string * Result unit;
  AudioUtil_open : gmap string string -> string -> Z -> bool -> Result Audio;
  AudioUtil_split : Audio -> Z -> Z -> Result (list Segment);
  AudioUtil_melspectrogram : Segment -> Result Spectrogram;
  tf_image_resize : Spectrogram -> nat * nat -> Result (list Float.t);
  model_predict : list (list Float.t) -> Result (list (list Q));
  numpy_promotion : Promotion
}.

(** An uploaded file (werkzeug's [FileStorage]); it is truthy when its file
    name is not empty. *)
Record FileStorage := mkFileStorage { filename : string; stream : string }.

Definition FileStorage_bool (f : FileStorage) : bool :=
  negb (String.eqb (filename f) "").

(** [request.files], by field name: the form as werkzeug has parsed it.
    The parsing is done at the first access ([app.py], line 89), before
    the [try]; a request whose form cannot be parsed raises there and is
    not described here. *)
Record Request := mkRequest { files : gmap string FileStorage }.

Section Handler.

Variable E : Env.

Definition call_save (content path : string) : M unit :=
  log (EvSave path);;
  os_call (fun d => FileStorage_save E d path content).

Definition call_remove (path : string) : M unit :=
  log (EvRemove path);;
  os_call (fun d => os_remove E d path).

Definition call_open (path : string) (sample_rate : Z) (mono : bool)
  : M (Audio E) :=
  log (EvOpen path);;
  read_call (fun d => AudioUtil_open E d path sample_rate mono).

Definition call_split (audio : Audio E) (window_ms overlap_ms : Z)
  : M (list (Segment E)) :=
  log EvSplit;; lift (AudioUtil_split E audio window_ms overlap_ms).

Definition call_melspectrogram (seg : Segment E) : M (Spectrogram E) :=
  log EvMelspectrogram;; lift (AudioUtil_melspectrogram E seg).

Definition call_resize (spec : Spectrogram E) (shape : nat * nat)
  : M (list Float.t) :=
  log EvResize;; lift (tf_image_resize E spec shape).

Definition call_model_predict (batch : list (list Float.t))
  : M (list (list Q)) :=
  log EvModelPredict;; lift (model_predict E batch).

(** [preprocess_segment] ([app.py], lines 50-54) *)
Definition preprocess_segment (segment_audio : Segment E) : M (list Float.t) :=
  spec ← call_melspectrogram segment_audio;
  spec ← call_resize spec TARGET_SHAPE;
  lift (normalize (numpy_promotion E) spec).

(** [predict_file] ([app.py], lines 62-74).  [np.stack] of arrays of one
    shape only adds the batch axis: the batch is the list of the arrays. *)
Definition predict_file (audio_path : string) : M (list Q * Z) :=
  audio ← call_open audio_path SAMPLE_RATE true;
  segments ← call_split audio WINDOW_MS OVERLAP_MS;
  match segments with
  | [] => raise (ValueError "No valid audio segments found.")
  | _ :: _ =>
      specs ← mapM preprocess_segment segments;
      let batch := specs in
      preds ← call_model_predict batch;
      let avg_probs := Np.mean_axis0 (numpy_promotion E) preds in
      pred_idx ← lift (Np.argmax avg_probs);
      mret (avg_probs, Z.of_nat pred_idx)
  end.

(** [predict] ([app.py], lines 88-115), the handler of [POST /predict]. *)
Definition predict (request : Request) : M Response :=
  match files request !! "file" with
  | None => mret (mkResponse 400 (error_body "No file part in the request"))
  | Some file =>
      if String.eqb (filename file) "" then
        mret (mkResponse 400 (error_body "No selected file"))
      else
        accepted ← (if FileStorage_bool file
                    then lift (allowed_file (filename file))
                    else mret false);
        if (accepted : bool) then
          let name := secure_filename E (filename file) in
          let filepath := os_path_join UPLOAD_FOLDER name in
          call_save (stream file) filepath;;
          try_except
            ('(probs, pred_idx) ← predict_file filepath;
             call_remove filepath;;
             mret (mkResponse 200 (prediction_body probs pred_idx)))
            (fun e =>
               mret (mkResponse 500
                       (error_body ("Inference failed: " +:+ exn_str e))))
        else
          mret (mkResponse 400 (error_body "Unsupported file extension"))
  end.

End Handler.

(** ** Stand-ins for the collaborators

    A small POSIX-like environment on which the handler can be run: saving
    writes the file, removing deletes it or raises when it is missing, the
    loader decodes every byte into one sample, the windower cuts windows of
    two samples and drops a shorter tail, the spectrogram is the window
    itself, the resize converts it to binary32 and the classifier answers
    with one fixed distribution per window.  [secure_filename] is the
    identity, as werkzeug's is on names made of ASCII letters, digits and
    inner dots.  The promotion rule is that of NumPy 2 in [env] and that
    of NumPy 1 in [env_numpy1]. *)
Module Stub.

Definition FileNotFoundError (path : string) : Exn :=
  mkExn "FileNotFoundError"
        ("[Errno 2] No such file or directory: '" +:+ path +:+ "'").

Definition PermissionError (path : string) : Exn :=
  mkExn "PermissionError" ("[Errno 13] Permission denied: '" +:+ path +:+ "'").

Definition save (d : gmap string string) (path content : string)
  : gmap string string * Result unit :=
  (<[path := content]> d, Ok tt).

Definition remove (d : gmap string string) (path : string)
  : gmap string string * Result unit :=
  match d !! path with
  | Some _ => (delete path d, Ok tt)
  | None => (d, Raise (FileNotFoundError path))
  end.

(** A removal that is refused, as on a read-only upload folder. *)
Definition remove_denied (d : gmap string string) (path : string)
  : gmap string string * Result unit :=
  (d, Raise (PermissionError path)).

Fixpoint samples (content : string) : list Q :=
  match content with
  | EmptyString => []
  | String c t => inject_Z (Z.of_nat (nat_of_ascii c)) :: samples t
  end.

Definition open (d : gmap string string) (path : string) (sr : Z) (mono : bool)
  : Result (list Q) :=
  match d !! path with
  | Some content => Ok (samples content)
  | None => Raise (FileNotFoundError path)
  end.

Fixpoint windows (audio : list Q) : list (list Q) :=
  match audio with
  | a :: b :: t => [a; b] :: windows t
  | _ => []
  end.

Definition split (audio : list Q) (window_ms overlap_ms : Z)
  : Result (list (list Q)) :=
  Ok (windows audio).

Definition resize (spec : list Q) (shape : nat * nat) : Result (list Float.t) :=
  Ok (Float.round Float.binary32 <$> spec).

Definition classify (batch : list (list Float.t)) : Result (list (list Q)) :=
  Ok ((fun _ => [1 # 8; 5 # 8; 1 # 8; 1 # 8]) <$> batch).

Definition env_with (np : Promotion)
    (rm : gmap string string -> string -> gmap string string * Result unit)
  : Env :=
  {| Audio := list Q;
     Segment := list Q;
     Spectrogram := list Q;
     secure_filename := fun name => name;
     FileStorage_save := save;
     os_remove := rm;
     AudioUtil_open := open;
     AudioUtil_split := split;
     AudioUtil_melspectrogram := fun seg => Ok seg;
     tf_image_resize := resize;
     model_predict := classify;
     numpy_promotion := np |}.

Definition env : Env := env_with Weak remove.
Definition env_numpy1 : Env := env_with Legacy remove.
Definition env_denied : Env := env_with Weak remove_denied.

Definition upload (name content : string) : Request :=
  mkRequest {[ "file" := mkFileStorage name content ]}.

Definition empty_world : World := mkWorld ∅ [].

End Stub.

(** ** Notions used in the statements *)

(** The path under which the handler stores an upload (lines 98-99). *)
Definition upload_path (E : Env) (file : FileStorage) : string :=
  os_path_join UPLOAD_FOLDER (secure_filename E (filename file)).

(** The calls that compute a spectrogram or run the model. *)
Definition is_inference_call (ev : Event) : bool :=
  match ev with
  | EvMelspectrogram | EvResize | EvModelPredict => true
  | _ => false
  end.

(** The body of the 500 response for an exception [e] (line 113). *)
Definition inference_failed (e : Exn) : Response :=
  mkResponse 500 (error_body ("Inference failed: " +:+ exn_str e)).

(** Every element of the array is a number: no infinity, no NaN. *)
Definition finite_array (x : list Float.t) : Prop :=
  Forall (fun v => Float.is_finite v = true) x.

(** [v] is a number between [lo] and [hi]. *)
Definition value_in (lo hi : Q) (v : Float.t) : Prop :=
  exists q, v = Float.Fin q /\ (lo <= q <= hi)%Q.

(** [v] is the number [q]. *)
Definition has_value (v : Float.t) (q : Q) : Prop :=
  exists r, v = Float.Fin r /\ (r == q)%Q.

(** [v] is a number within [tol] of [q]. *)
Definition approx (tol : Q) (v : Float.t) (q : Q) : Prop :=
  exists r, v = Float.Fin r /\ (Qabs (r - q) <= tol)%Q.

(** All elements of the array have the same value. *)
Definition constant (x : list Float.t) : Prop :=
  forall a b, a ∈ x -> b ∈ x -> Float.leb a b = true.

(** The normalized array has its minimum within [tol] of 0 and its maximum
    within [tol] of 1. *)
Definition unit_range_within (tol : Q) (p : Promotion) (x : list Float.t) : Prop :=
  exists out mn mx,
    normalize p x = Ok out /\ Np.min out = Ok mn /\ Np.max out = Ok mx /\
    approx tol mn 0 /\ approx tol mx 1.

(** An array of the target shape, 64 x 108 x 1, with one element at 0 and
    all others at the binary32 number nearest to 1e-8. *)
Definition narrow_range_array : list Float.t :=
  Float.Fin 0 :: replicate (fst TARGET_SHAPE * snd TARGET_SHAPE - 1)
                   (Float.convert Float.binary32 EPSILON).

(** [q] is a number of the format [f], up to the range of the exponent
    above: [q = m * 2 ^ e] for an integer mantissa [m] of at most [prec]
    bits and an exponent [e] of the format. *)
Definition is_number (f : Float.Format) (q : Q) : Prop :=
  exists m e : Z,
    (Z.abs m <= 2 ^ Float.prec f)%Z /\
    (Float.emin f - (Float.prec f - 1) <= e)%Z /\
    (q == inject_Z m * Float.pow2 e)%Q.

(** Every element of the array is a binary32 number. *)
Definition binary32_array (x : list Float.t) : Prop :=
  Forall (fun v => exists q, v = Float.Fin q /\ is_number Float.binary32 q) x.

(** Rounding to the format [f] does not change [q]. *)
Definition representable (f : Float.Format) (q : Q) : Prop :=
  (Float.round_fin f q == q)%Q.

(** The largest number of a format. *)
Definition max_float (f : Float.Format) : Q :=
  (inject_Z (2 ^ Float.prec f - 1) * Float.pow2 (Float.emax f - Float.prec f))%Q.

(** One element of the normalized array, over the numbers: the difference
    to the minimum and the quotient by the divisor [d], both rounded. *)
Definition scaled (lo d v : Q) : Q :=
  Float.round_fin Float.binary32 (Float.round_fin Float.binary32 (v - lo) / d).

(** Averaging [n] copies of the probability [q] rounds nothing: the sums
    [q], [2 q], ..., [n q] are binary32 numbers. *)
Definition exact_multiples (n : nat) (q : Q) : Prop :=
  (0 <= q)%Q /\
  forall k, (1 <= k <= n)%nat ->
    is_number Float.binary32 (inject_Z (Z.of_nat k) * q).

(** A probability. *)
Definition unit_interval (q : Q) : Prop := (0 <= q <= 1)%Q.

(** The number a binary32 datum of the Standard Library stands for. *)
Definition of_spec (x : SpecFloat.spec_float) : Float.t :=
  match x with
  | SpecFloat.S754_zero _ => Float.Fin 0
  | SpecFloat.S754_infinity false => Float.PInf
  | SpecFloat.S754_infinity true => Float.NInf
  | SpecFloat.S754_nan => Float.NaN
  | SpecFloat.S754_finite s m e =>
      Float.Fin ((if s then -1 else 1) * inject_Z (Zpos m) * Float.pow2 e)%Q
  end.

(** The same number, the same infinity, or NaN twice. *)
Definition same (a b : Float.t) : bool :=
  match a, b with
  | Float.Fin x, Float.Fin y => Qeq_bool x y
  | Float.PInf, Float.PInf | Float.NInf, Float.NInf | Float.NaN, Float.NaN => true
  | _, _ => false
  end.

(** Binary32 data on which the two descriptions of the arithmetic are
    compared: zero, 0.1, 0.7, 1e-8, 1/2, 1, 3, -0.1, the smallest and the
    largest subnormal number, the smallest normal number, 2 ^ 24 + 2, the
    largest number, its negation, the infinities and NaN. *)
Definition binary32_samples : list SpecFloat.spec_float :=
  [F32.zero; F32.tenth; F32.seven_tenths; F32.epsilon; F32.half;
   SpecFloat.S754_finite false 8388608 (-23);
   SpecFloat.S754_finite false 12582912 (-22);
   SpecFloat.S754_finite true 13421773 (-27);
   SpecFloat.S754_finite false 1 (-149);
   SpecFloat.S754_finite false 8388607 (-149);
   SpecFloat.S754_finite false 8388608 (-149);
   SpecFloat.S754_finite false 8388609 1;
   SpecFloat.S754_finite false 16777215 104;
   SpecFloat.S754_finite true 16777215 104;
   SpecFloat.S754_infinity false; SpecFloat.S754_infinity true;
   SpecFloat.S754_nan].

(** Binary32 data and rationals that stand for the same numbers. *)
Definition same_vector (xs : list SpecFloat.spec_float) (qs : list Q) : bool :=
  Nat.eqb (length xs) (length qs) &&
  forallb (fun '(x, q) => same (of_spec x) (Float.Fin q)) (zip xs qs).

Definition agree
    (op : SpecFloat.spec_float -> SpecFloat.spec_float -> SpecFloat.spec_float)
    (op' : Float.t -> Float.t -> Float.t) : bool :=
  forallb (fun a =>
    forallb (fun b => same (of_spec (op a b)) (op' (of_spec a) (of_spec b)))
      binary32_samples) binary32_samples.

(** The calls of the inference pipeline: every call but the save and the
    removal of the upload. *)
Definition is_pipeline_event (ev : Event) : bool :=
  match ev with
  | EvSave _ | EvRemove _ => false
  | _ => true
  end.

(** The calls made to preprocess [n] segments, in order. *)
Definition spectrogram_calls (n : nat) : list Event :=
  concat (replicate n [EvMelspectrogram; EvResize]).

(** A loader that cannot read the upload. *)
Definition env_no_audio : Env :=
  {| Audio := list Q;
     Segment := list Q;
     Spectrogram := list Q;
     secure_filename := fun name => name;
     FileStorage_save := Stub.save;
     os_remove := Stub.remove;
     AudioUtil_open :=
       fun _ _ _ _ => Raise (mkExn "RuntimeError" "Error opening audio");
     AudioUtil_split := Stub.split;
     AudioUtil_melspectrogram := fun seg => Ok seg;
     tf_image_resize := Stub.resize;
     model_predict := Stub.classify;
     numpy_promotion := Weak |}.

(** A spectrogram transform that raises on the window that starts with the
    sample 99. *)
Definition env_bad_second_window : Env :=
  {| Audio := list Q;
     Segment := list Q;
     Spectrogram := list Q;
     secure_filename := fun name => name;
     FileStorage_save := Stub.save;
     os_remove := Stub.remove;
     AudioUtil_open := Stub.open;
     AudioUtil_split := Stub.split;
     AudioUtil_melspectrogram :=
       fun seg =>
         match seg with
         | x :: _ => if Qeq_bool x (inject_Z 99)
                     then Raise (ValueError "Input signal is silent")
                     else Ok seg
         | [] => Ok seg
         end;
     tf_image_resize := Stub.resize;
     model_predict := Stub.classify;
     numpy_promotion := Weak |}.

(** * Properties *)

(** ** File names *)

Section FileNames.

Import PyStr.

Lemma rsplit1_without sep s :
  contains sep s = false -> rsplit1 sep s = [s].
Proof.
  induction s as [|c t IH]; simpl; [reflexivity|].
  intros [Hc Ht]%orb_false_iff. rewrite (IH Ht), Hc. reflexivity.
Qed.

Lemma rsplit1_with sep s :
  contains sep s = true ->
  exists a b, rsplit1 sep s = [a; b] /\ s = a +:+ String sep b
              /\ contains sep b = false.
Proof.
  induction s as [|c t IH]; simpl; [discriminate|].
  destruct (contains sep t) eqn:Ht.
  - intros _. destruct (IH eq_refl) as (a & b & -> & -> & Hb).
    exists (String c a), b. auto.
  - rewrite orb_false_r. intros Hc. rewrite (rsplit1_without _ _ Ht), Hc.
    apply Ascii.eqb_eq in Hc. subst c. exists EmptyString, t. auto.
Qed.

Lemma rsplit1_last sep a b :
  contains sep b = false -> rsplit1 sep (a +:+ String sep b) = [a; b].
Proof.
  intros Hb. induction a as [|c a IH]; simpl.
  - rewrite (rsplit1_without _ _ Hb), Ascii.eqb_refl. reflexivity.
  - rewrite IH. reflexivity.
Qed.

Lemma contains_app c a b :
  contains c (a +:+ b) = contains c a || contains c b.
Proof.
  induction a as [|d a IH]; simpl; [reflexivity|].
  rewrite IH. apply orb_assoc.
Qed.

Lemma lower_char_dot c : Ascii.eqb (lower_char c) "." = Ascii.eqb c ".".
Proof. destruct c as [[] [] [] [] [] [] [] []]; reflexivity. Qed.

Lemma contains_dot_lower s : contains "." (lower s) = contains "." s.
Proof.
  induction s as [|c t IH]; simpl; [reflexivity|].
  rewrite IH, lower_char_dot. reflexivity.
Qed.

Lemma same_char_nocase_lower a b :
  same_char_nocase a b = true -> lower_char b = b -> lower_char a = b.
Proof.
  unfold same_char_nocase.
  rewrite !orb_true_iff, !Ascii.eqb_eq.
  destruct a as [[] [] [] [] [] [] [] []];
    (intros [[<- | <-] | <-]; vm_compute; intros H; first [reflexivity | discriminate H]).
Qed.

Lemma same_nocase_lower s t :
  same_nocase s t = true -> lower t = t -> lower s = t.
Proof.
  revert t. induction s as [|a s IH]; intros [|b t]; simpl; try discriminate.
  - reflexivity.
  - intros [Hc Hs]%andb_true_iff Ht. injection Ht as Hb Ht.
    rewrite (same_char_nocase_lower _ _ Hc Hb), (IH _ Hs Ht). reflexivity.
Qed.

Lemma allowed_extension_iff ext :
  ext ∈ ALLOWED_EXTENSIONS <->
  ext = "wav" \/ ext = "mp3" \/ ext = "flac" \/ ext = "ogg".
Proof.
  unfold ALLOWED_EXTENSIONS.
  rewrite !elem_of_union, !elem_of_singleton. tauto.
Qed.

Lemma allowed_file_dotted stem ext :
  contains "." ext = false ->
  allowed_file (stem +:+ "." +:+ ext)
  = Ok (bool_decide (lower ext ∈ ALLOWED_EXTENSIONS)).
Proof.
  intros Hext. unfold allowed_file.
  change ("." +:+ ext) with (String "." ext).
  rewrite contains_app. simpl contains. rewrite orb_true_r.
  rewrite (rsplit1_last _ _ _ Hext). reflexivity.
Qed.

Lemma allowed_file_total name :
  allowed_file name = Ok true \/ allowed_file name = Ok false.
Proof.
  unfold allowed_file. destruct (contains "." name) eqn:Hdot; [|auto].
  destruct (rsplit1_with _ _ Hdot) as (a & b & -> & _ & _). simpl.
  destruct (bool_decide _); auto.
Qed.





(** C9.  The extension is compared without regard to letter case: a name
    whose extension differs from wav, mp3, flac or ogg only in the case
    of its letters is accepted. *)
Theorem allowed_file_case_insensitive (stem ext allowed : string) :
  allowed = "wav" \/ allowed = "mp3" \/ allowed = "flac" \/ allowed = "ogg" ->
  same_nocase ext allowed = true ->
  allowed_file (stem +:+ "." +:+ ext) = Ok true.
Proof.
  intros Hallowed Hsame.
  assert (Hlow : lower ext = allowed).
  { apply same_nocase_lower; [exact Hsame|].
    destruct Hallowed as [-> | [-> | [-> | ->]]]; reflexivity. }
  assert (Hdot : contains "." ext = false).
  { rewrite <- contains_dot_lower, Hlow.
    destruct Hallowed as [-> | [-> | [-> | ->]]]; reflexivity. }
  rewrite (allowed_file_dotted _ _ Hdot), Hlow.
  f_equal. apply bool_decide_eq_true, allowed_extension_iff, Hallowed.
Qed.

Lemma allowed_file_case_insensitive_witness :
  allowed_file "song.WAV" = Ok true /\ allowed_file "song.Mp3" = Ok true.
Proof.
  split.
  - apply (allowed_file_case_insensitive "song" "WAV" "wav"); [auto | reflexivity].
  - apply (allowed_file_case_insensitive "song" "Mp3" "mp3"); [auto | reflexivity].
Defined.

End FileNames.

Example allowed_file_wav : allowed_file "song.wav" = Ok true.
Proof. vm_compute. reflexivity. Qed.
Example allowed_file_last_dot : allowed_file "a.b.FLAC" = Ok true.
Proof. vm_compute. reflexivity. Qed.
Example allowed_file_inner_ext : allowed_file "song.wav.txt" = Ok false.
Proof. vm_compute. reflexivity. Qed.
Example allowed_file_noext : allowed_file "wav" = Ok false.
Proof. vm_compute. reflexivity. Qed.
Example allowed_file_trailing_dot : allowed_file "wav." = Ok false.
Proof. vm_compute. reflexivity. Qed.

(** ** Rounding *)

Section Integers.

Local Open Scope Q_scope.

Lemma round_half_even_near (y : Q) :
  Qabs (inject_Z (round_half_even y) - y) <= 1 # 2.
Proof.
  unfold round_half_even.
  pose proof (Qfloor_le y) as Hlo. pose proof (Qlt_floor y) as Hhi.
  rewrite inject_Z_plus in Hhi. change (inject_Z 1) with 1 in Hhi.
  apply Qabs_Qle_condition.
  destruct (Qcompare_spec (y - inject_Z (Qfloor y)) (1 # 2)) as [He | Hl | Hg].
  - destruct (Z.even (Qfloor y)).
    + lra.
    + rewrite inject_Z_plus. change (inject_Z 1) with 1. lra.
  - lra.
  - rewrite inject_Z_plus. change (inject_Z 1) with 1. lra.
Qed.

Lemma round_half_even_mono (y1 y2 : Q) :
  y1 <= y2 -> (round_half_even y1 <= round_half_even y2)%Z.
Proof.
  intros Hle. unfold round_half_even.
  pose proof (Qfloor_le y1) as Hl1. pose proof (Qlt_floor y1) as Hu1.
  pose proof (Qfloor_le y2) as Hl2. pose proof (Qlt_floor y2) as Hu2.
  pose proof (Qfloor_resp_le _ _ Hle) as Hf.
  rewrite inject_Z_plus in Hu1, Hu2. change (inject_Z 1) with 1 in Hu1, Hu2.
  remember (Qfloor y1) as f1 eqn:E1. remember (Qfloor y2) as f2 eqn:E2.
  clear E1 E2.
  destruct (Z.eq_dec f1 f2) as [-> | Hne].
  - destruct (Qcompare_spec (y1 - inject_Z f2) (1 # 2)),
             (Qcompare_spec (y2 - inject_Z f2) (1 # 2));
      destruct (Z.even f2); try lia; exfalso; lra.
  - destruct (Qcompare_spec (y1 - inject_Z f1) (1 # 2)),
             (Qcompare_spec (y2 - inject_Z f2) (1 # 2));
      destruct (Z.even f1), (Z.even f2); lia.
Qed.

Lemma round_half_even_Z (a : Z) : round_half_even (inject_Z a) = a.
Proof.
  unfold round_half_even. rewrite Qfloor_Z.
  destruct (Qcompare_spec (inject_Z a - inject_Z a) (1 # 2)); [exfalso; lra | reflexivity | exfalso; lra].
Qed.

Lemma round_half_even_eq (y : Q) (k : Z) : y == inject_Z k -> round_half_even y = k.
Proof.
  intros Hy.
  assert (H1 : y <= inject_Z k) by lra. assert (H2 : inject_Z k <= y) by lra.
  apply round_half_even_mono in H1, H2. rewrite round_half_even_Z in H1, H2. lia.
Qed.

Lemma round_half_even_floor (z : Q) (m : Z) :
  inject_Z m <= z -> z < inject_Z m + (1 # 2) -> round_half_even z = m.
Proof.
  intros Hlo Hhi.
  assert (Hf : Qfloor z = m).
  { pose proof (Qfloor_le z) as H1. pose proof (Qfloor_resp_le _ _ Hlo) as H2.
    rewrite Qfloor_Z in H2.
    assert (H3 : (Qfloor z < m + 1)%Z).
    { rewrite Zlt_Qlt, inject_Z_plus. change (inject_Z 1) with 1. lra. }
    lia. }
  unfold round_half_even. rewrite Hf.
  destruct (Qcompare_spec (z - inject_Z m) (1 # 2)); [exfalso; lra | reflexivity | exfalso; lra].
Qed.

End Integers.

Section Binades.

Import Float.
Local Open Scope Q_scope.

Lemma pow2_pos e : 0 < pow2 e.
Proof. apply Qpower_0_lt. reflexivity. Qed.

Lemma pow2_nonzero e : ~ pow2 e == 0.
Proof. apply Qnot_eq_sym, Qlt_not_eq, pow2_pos. Qed.

Lemma pow2_add a b : pow2 (a + b) == pow2 a * pow2 b.
Proof. apply Qpower_plus. discriminate. Qed.

Lemma pow2_lt a b : (a < b)%Z -> pow2 a < pow2 b.
Proof. intros. apply Qpower_lt_compat_l; [assumption | reflexivity]. Qed.

Lemma pow2_le a b : (a <= b)%Z -> pow2 a <= pow2 b.
Proof. intros. apply Qpower_le_compat_l; [assumption | discriminate]. Qed.

Lemma pow2_lt_inv a b : pow2 a < pow2 b -> (a < b)%Z.
Proof. intros. eapply Qpower_lt_compat_l_inv; [eassumption | reflexivity]. Qed.

Lemma pow2_Z a : (0 <= a)%Z -> inject_Z (2 ^ a) == pow2 a.
Proof. intros. apply (Zpower_Qpower 2 a). assumption. Qed.

Lemma pow2_succ a : pow2 (a + 1) == 2 * pow2 a.
Proof. rewrite pow2_add. change (pow2 1) with 2. ring. Qed.

Lemma pow2_split a b : pow2 a == pow2 (a - b) * pow2 b.
Proof. rewrite <- pow2_add. replace (a - b + b)%Z with a by lia. reflexivity. Qed.

Lemma ilog2_spec q : 0 < q -> pow2 (ilog2 q) <= q /\ q < pow2 (ilog2 q + 1).
Proof.
  intros Hq. destruct q as [n d].
  assert (Hn : (0 < n)%Z).
  { unfold Qlt in Hq. simpl in Hq. lia. }
  unfold ilog2. simpl Qnum. simpl Qden.
  set (a := Z.log2 n). set (b := Z.log2 (Z.pos d)).
  destruct (Z.log2_spec n Hn) as [Ha1 Ha2]. fold a in Ha1, Ha2.
  destruct (Z.log2_spec (Z.pos d) ltac:(lia)) as [Hb1 Hb2]. fold b in Hb1, Hb2.
  assert (Ha0 : (0 <= a)%Z) by apply Z.log2_nonneg.
  assert (Hb0 : (0 <= b)%Z) by apply Z.log2_nonneg.
  assert (Qa1 : pow2 a <= inject_Z n).
  { rewrite <- pow2_Z by lia. rewrite <- Zle_Qle. exact Ha1. }
  assert (Qa2 : inject_Z n < pow2 (a + 1)).
  { rewrite <- pow2_Z by lia. rewrite <- Zlt_Qlt. lia. }
  assert (Qb1 : pow2 b <= inject_Z (Z.pos d)).
  { rewrite <- pow2_Z by lia. rewrite <- Zle_Qle. exact Hb1. }
  assert (Qb2 : inject_Z (Z.pos d) < pow2 (b + 1)).
  { rewrite <- pow2_Z by lia. rewrite <- Zlt_Qlt. lia. }
  assert (Hd : 0 < inject_Z (Z.pos d)) by reflexivity.
  assert (Eq : n # d == inject_Z n / inject_Z (Z.pos d)) by apply Qmake_Qdiv.
  assert (Hup : n # d < pow2 (a - b + 1)).
  { rewrite Eq. apply Qlt_shift_div_r; [exact Hd|].
    eapply Qlt_le_trans; [exact Qa2|].
    replace (a + 1)%Z with ((a - b + 1) + b)%Z by lia. rewrite pow2_add.
    apply Qmult_le_l; [apply pow2_pos | exact Qb1]. }
  assert (Hlo : pow2 (a - b - 1) < n # d).
  { rewrite Eq. apply Qlt_shift_div_l; [exact Hd|].
    eapply Qlt_le_trans; [|exact Qa1].
    replace a with ((a - b - 1) + (b + 1))%Z at 2 by lia. rewrite pow2_add.
    apply Qmult_lt_l; [apply pow2_pos | exact Qb2]. }
  destruct (Qle_bool (pow2 (a - b)) (n # d)) eqn:Hcmp.
  - apply Qle_bool_iff in Hcmp. split; assumption.
  - assert (Hlt : n # d < pow2 (a - b)).
    { apply Qnot_le_lt. intros H. apply Qle_bool_iff in H. congruence. }
    replace (a - b - 1 + 1)%Z with (a - b)%Z by lia.
    split; [apply Qlt_le_weak; exact Hlo | exact Hlt].
Qed.

Lemma ilog2_unique q e : pow2 e <= q -> q < pow2 (e + 1) -> ilog2 q = e.
Proof.
  intros Hlo Hhi.
  assert (Hq : 0 < q) by (eapply Qlt_le_trans; [apply pow2_pos | exact Hlo]).
  destruct (ilog2_spec q Hq) as [Slo Shi].
  assert (ilog2 q < e + 1)%Z.
  { apply pow2_lt_inv. eapply Qle_lt_trans; eassumption. }
  assert (e < ilog2 q + 1)%Z.
  { apply pow2_lt_inv. eapply Qle_lt_trans; eassumption. }
  lia.
Qed.

Lemma ilog2_mono x y : 0 < x -> x <= y -> (ilog2 x <= ilog2 y)%Z.
Proof.
  intros Hx Hxy.
  destruct (ilog2_spec x Hx) as [Xlo _].
  destruct (ilog2_spec y) as [_ Yhi]; [eapply Qlt_le_trans; eassumption|].
  assert (ilog2 x < ilog2 y + 1)%Z; [|lia].
  apply pow2_lt_inv. eapply Qle_lt_trans; [exact Xlo|].
  eapply Qle_lt_trans; eassumption.
Qed.

End Binades.

Section Rounding.

Import Float.
Local Open Scope Q_scope.

Variable f : Format.
Hypothesis Hprec : (1 <= prec f)%Z.

Lemma ulp_pos q : 0 < ulp f q.
Proof. apply pow2_pos. Qed.

Lemma bexp_emin q : (emin f <= bexp f q)%Z.
Proof. unfold bexp. lia. Qed.

Lemma mant_upper q : 0 < q -> (mant f q <= 2 ^ prec f)%Z.
Proof.
  intros Hq. unfold mant.
  rewrite <- (round_half_even_Z (2 ^ prec f)). apply round_half_even_mono.
  apply Qle_shift_div_r; [apply ulp_pos|].
  destruct (ilog2_spec q Hq) as [_ Hhi].
  apply Qlt_le_weak. eapply Qlt_le_trans; [exact Hhi|].
  unfold ulp. rewrite pow2_Z by lia. rewrite <- pow2_add.
  apply pow2_le. unfold bexp. lia.
Qed.

Lemma mant_lower q :
  0 < q -> (emin f <= ilog2 q)%Z -> (2 ^ (prec f - 1) <= mant f q)%Z.
Proof.
  intros Hq He. unfold mant.
  rewrite <- (round_half_even_Z (2 ^ (prec f - 1))) at 1.
  apply round_half_even_mono.
  apply Qle_shift_div_l; [apply ulp_pos|].
  destruct (ilog2_spec q Hq) as [Hlo _].
  eapply Qle_trans; [|exact Hlo].
  unfold ulp. rewrite pow2_Z by lia. rewrite <- pow2_add.
  apply pow2_le. unfold bexp. lia.
Qed.

Lemma mant_nonneg q : 0 < q -> (0 <= mant f q)%Z.
Proof.
  intros Hq. unfold mant.
  rewrite <- (round_half_even_Z 0) at 1. apply round_half_even_mono.
  apply Qle_shift_div_l; [apply ulp_pos|]. change (inject_Z 0) with 0. lra.
Qed.

Lemma round_pos_nonneg q : 0 < q -> 0 <= round_pos f q.
Proof.
  intros Hq. unfold round_pos. apply Qmult_le_0_compat.
  - change 0 with (inject_Z 0). rewrite <- Zle_Qle. apply mant_nonneg, Hq.
  - apply Qlt_le_weak, ulp_pos.
Qed.

Lemma round_pos_upper q : 0 < q -> round_pos f q <= pow2 (bexp f q + 1).
Proof.
  intros Hq. unfold round_pos, ulp.
  rewrite (pow2_split (bexp f q + 1) (bexp f q - (prec f - 1))).
  replace (bexp f q + 1 - (bexp f q - (prec f - 1)))%Z with (prec f) by lia.
  apply Qmult_le_compat_r; [|apply Qlt_le_weak, pow2_pos].
  rewrite <- pow2_Z by lia. rewrite <- Zle_Qle. apply mant_upper, Hq.
Qed.

Lemma round_pos_lower q :
  0 < q -> (emin f <= ilog2 q)%Z -> pow2 (bexp f q) <= round_pos f q.
Proof.
  intros Hq He. unfold round_pos, ulp.
  rewrite (pow2_split (bexp f q) (bexp f q - (prec f - 1))) at 1.
  replace (bexp f q - (bexp f q - (prec f - 1)))%Z with (prec f - 1)%Z by lia.
  apply Qmult_le_compat_r; [|apply Qlt_le_weak, pow2_pos].
  rewrite <- pow2_Z by lia. rewrite <- Zle_Qle. apply mant_lower; assumption.
Qed.

(** Rounding is monotone. *)
Lemma round_pos_mono x y : 0 < x -> x <= y -> round_pos f x <= round_pos f y.
Proof.
  intros Hx Hxy.
  assert (Hy : 0 < y) by (eapply Qlt_le_trans; eassumption).
  pose proof (ilog2_mono x y Hx Hxy) as Hlog.
  destruct (Z.eq_dec (bexp f x) (bexp f y)) as [Heq | Hne].
  - unfold round_pos, mant, ulp. rewrite Heq.
    apply Qmult_le_compat_r; [|apply Qlt_le_weak, pow2_pos].
    rewrite <- Zle_Qle. apply round_half_even_mono.
    apply Qmult_le_compat_r; [exact Hxy|].
    apply Qinv_le_0_compat, Qlt_le_weak, pow2_pos.
  - assert (Hlt : (bexp f x < bexp f y)%Z) by (unfold bexp in *; lia).
    assert (Hey : (emin f <= ilog2 y)%Z) by (unfold bexp in *; lia).
    eapply Qle_trans; [apply round_pos_upper, Hx|].
    eapply Qle_trans; [|apply round_pos_lower; assumption].
    apply pow2_le. lia.
Qed.

Lemma round_pos_proper x y : 0 < x -> x == y -> round_pos f x == round_pos f y.
Proof.
  intros Hx Hxy. assert (Hy : 0 < y) by lra.
  apply Qle_antisym; apply round_pos_mono; lra.
Qed.

(** A number [k * 2 ^ e] with a mantissa of at most [prec] bits and an
    exponent in range is not changed by rounding. *)
Lemma round_pos_grid (k e : Z) :
  (0 < k < 2 ^ prec f)%Z -> (emin f - (prec f - 1) <= e)%Z ->
  round_pos f (inject_Z k * pow2 e) == inject_Z k * pow2 e.
Proof.
  intros [Hk0 Hkp] He.
  set (r := inject_Z k * pow2 e).
  assert (Hr : 0 < r).
  { unfold r. apply Qmult_lt_0_compat; [|apply pow2_pos].
    change 0 with (inject_Z 0). rewrite <- Zlt_Qlt. exact Hk0. }
  assert (Hlt : r < pow2 (prec f + e)).
  { unfold r. rewrite pow2_add, <- (pow2_Z (prec f)) by lia.
    apply Qmult_lt_r; [apply pow2_pos|]. rewrite <- Zlt_Qlt. exact Hkp. }
  assert (Hc : (bexp f r - (prec f - 1) <= e)%Z).
  { destruct (ilog2_spec r Hr) as [Slo _].
    assert (ilog2 r < prec f + e)%Z
      by (apply pow2_lt_inv; eapply Qle_lt_trans; eassumption).
    unfold bexp. lia. }
  assert (Hq : r / ulp f r == inject_Z (k * 2 ^ (e - (bexp f r - (prec f - 1))))).
  { unfold ulp. rewrite inject_Z_mult, pow2_Z by lia. unfold r.
    rewrite (pow2_split e (bexp f (inject_Z k * pow2 e) - (prec f - 1))) at 1.
    field. apply pow2_nonzero. }
  unfold round_pos, mant. rewrite (round_half_even_eq _ _ Hq).
  unfold ulp. rewrite inject_Z_mult, pow2_Z by lia. fold r.
  rewrite <- Qmult_assoc, <- pow2_split. reflexivity.
Qed.

Lemma round_pos_fixed (k e : Z) :
  (0 < k <= 2 ^ prec f)%Z -> (emin f - (prec f - 1) <= e)%Z ->
  round_pos f (inject_Z k * pow2 e) == inject_Z k * pow2 e.
Proof.
  intros [Hk0 Hkp] He.
  destruct (Z.eq_dec k (2 ^ prec f)%Z) as [-> | Hne].
  - assert (Hpow : (2 ^ prec f = 2 * 2 ^ (prec f - 1))%Z).
    { rewrite <- Z.pow_succ_r by lia. f_equal. lia. }
    assert (E : inject_Z (2 ^ prec f) * pow2 e
                == inject_Z (2 ^ (prec f - 1)) * pow2 (e + 1)).
    { rewrite Hpow, inject_Z_mult, pow2_succ. change (inject_Z 2) with 2. ring. }
    assert (Hpos : 0 < inject_Z (2 ^ prec f) * pow2 e).
    { apply Qmult_lt_0_compat; [|apply pow2_pos].
      change 0 with (inject_Z 0). rewrite <- Zlt_Qlt. exact Hk0. }
    rewrite (round_pos_proper _ _ Hpos E), E.
    apply round_pos_grid; [|lia].
    split; [apply Z.pow_pos_nonneg; lia | apply Z.pow_lt_mono_r; lia].
  - apply round_pos_grid; [lia | exact He].
Qed.

(** Rounding a rounded number changes nothing. *)
Lemma round_pos_idem q :
  0 < q -> 0 < round_pos f q -> round_pos f (round_pos f q) == round_pos f q.
Proof.
  intros Hq Hr. unfold round_pos at 2 3. unfold ulp.
  apply round_pos_fixed.
  - split; [|apply mant_upper, Hq].
    destruct (Z_lt_le_dec 0 (mant f q)) as [|Hle]; [assumption|]. exfalso.
    assert (inject_Z (mant f q) <= 0)
      by (change 0 with (inject_Z 0); rewrite <- Zle_Qle; exact Hle).
    unfold round_pos in Hr. pose proof (ulp_pos q). nra.
  - pose proof (bexp_emin q). lia.
Qed.

(** A number less than half an ulp above a normal number [a] of the format
    is rounded to [a]. *)
Lemma round_pos_absorb (a y : Q) :
  0 < a -> round_pos f a == a -> (emin f <= ilog2 a)%Z ->
  a <= y -> y < a + ulp f a * (1 # 2) ->
  round_pos f y == a.
Proof.
  intros Ha Hfix Hnormal Hay Hyu.
  destruct (ilog2_spec a Ha) as [Slo Shi].
  assert (Hb : bexp f a = ilog2 a) by (unfold bexp; lia).
  pose proof (ulp_pos a) as Hu.
  assert (Etop : pow2 (ilog2 a + 1) == inject_Z (2 ^ prec f) * ulp f a).
  { unfold ulp. rewrite Hb, pow2_Z by lia. rewrite <- pow2_add.
    replace (prec f + (ilog2 a - (prec f - 1)))%Z with (ilog2 a + 1)%Z by lia.
    reflexivity. }
  assert (Hm : (mant f a < 2 ^ prec f)%Z).
  { rewrite Zlt_Qlt. apply (Qmult_lt_r _ _ (ulp f a)); [exact Hu|].
    unfold round_pos in Hfix. rewrite Hfix, <- Etop. exact Shi. }
  assert (Hm1 : inject_Z (mant f a) + 1 <= inject_Z (2 ^ prec f)).
  { change 1 with (inject_Z 1). rewrite <- inject_Z_plus, <- Zle_Qle. lia. }
  assert (Hylog : ilog2 y = ilog2 a).
  { apply ilog2_unique; [lra|]. rewrite Etop.
    unfold round_pos in Hfix.
    assert ((inject_Z (mant f a) + 1) * ulp f a <= inject_Z (2 ^ prec f) * ulp f a)
      by (apply Qmult_le_compat_r; lra).
    lra. }
  assert (Hyu' : ulp f y = ulp f a) by (unfold ulp, bexp; rewrite Hylog; reflexivity).
  unfold round_pos at 1. unfold mant at 1. rewrite Hyu'.
  rewrite (round_half_even_floor (y / ulp f a) (mant f a)); [exact Hfix | |].
  - apply Qle_shift_div_l; [exact Hu|]. unfold round_pos in Hfix. lra.
  - apply Qlt_shift_div_r; [exact Hu|]. unfold round_pos in Hfix. lra.
Qed.

(** The rounding error is at most half an ulp. *)
Lemma round_pos_error q :
  0 < q ->
  q - ulp f q * (1 # 2) <= round_pos f q /\ round_pos f q <= q + ulp f q * (1 # 2).
Proof.
  intros Hq. pose proof (round_half_even_near (q / ulp f q)) as H.
  apply Qabs_Qle_condition in H. pose proof (ulp_pos q) as Hu.
  unfold round_pos, mant.
  set (m := inject_Z (round_half_even (q / ulp f q))) in *.
  assert (E : q == q / ulp f q * ulp f q) by (field; lra).
  set (z := q / ulp f q) in *. clearbody m z.
  split; nra.
Qed.

Lemma ulp_normal q :
  0 < q -> (emin f <= ilog2 q)%Z -> ulp f q <= q * pow2 (1 - prec f).
Proof.
  intros Hq He. destruct (ilog2_spec q Hq) as [Hlo _].
  unfold ulp, bexp. rewrite Z.max_l by exact He.
  replace (ilog2 q - (prec f - 1))%Z with (ilog2 q + (1 - prec f))%Z by lia.
  rewrite pow2_add. apply Qmult_le_compat_r; [exact Hlo|].
  apply Qlt_le_weak, pow2_pos.
Qed.

(** Below a bound [B] in the normal range the ulp is at most
    [B * 2 ^ (1 - prec)]. *)
Lemma ulp_bound (y B : Q) :
  0 < y -> y <= B -> (emin f <= ilog2 B)%Z -> ulp f y <= B * pow2 (1 - prec f).
Proof.
  intros Hy HyB HB.
  assert (HBpos : 0 < B) by lra.
  pose proof (ilog2_mono y B Hy HyB) as Hlog.
  destruct (ilog2_spec B HBpos) as [Blo _].
  eapply Qle_trans;
    [|apply Qmult_le_compat_r; [exact Blo | apply Qlt_le_weak, pow2_pos]].
  rewrite <- pow2_add. unfold ulp. apply pow2_le. unfold bexp. lia.
Qed.

Lemma round_fin_nonneg q : 0 <= q -> 0 <= round_fin f q.
Proof.
  intros Hq. unfold round_fin.
  destruct (Qcompare_spec q 0) as [H | H | H]; [lra | lra | apply round_pos_nonneg, H].
Qed.

Lemma round_fin_pos q : 0 < q -> round_fin f q = round_pos f q.
Proof.
  intros Hq. unfold round_fin.
  destruct (Qcompare_spec q 0) as [H | H | H]; [lra | lra | reflexivity].
Qed.

Lemma round_fin_zero q : q == 0 -> round_fin f q = 0.
Proof.
  intros Hq. unfold round_fin.
  destruct (Qcompare_spec q 0) as [H | H | H]; [reflexivity | lra | lra].
Qed.

Lemma round_fin_mono x y : 0 <= x -> x <= y -> round_fin f x <= round_fin f y.
Proof.
  intros Hx Hxy. unfold round_fin at 1.
  destruct (Qcompare_spec x 0) as [H | H | H].
  - apply round_fin_nonneg. lra.
  - lra.
  - rewrite round_fin_pos by lra. apply round_pos_mono; assumption.
Qed.

Lemma round_fin_proper x y : 0 <= x -> x == y -> round_fin f x == round_fin f y.
Proof.
  intros Hx Hxy. apply Qle_antisym; apply round_fin_mono; lra.
Qed.

Lemma round_fin_idem q : 0 <= q -> round_fin f (round_fin f q) == round_fin f q.
Proof.
  intros Hq. unfold round_fin at 2 3.
  destruct (Qcompare_spec q 0) as [H | H | H]; [reflexivity | lra |].
  pose proof (round_pos_nonneg q H) as Hr.
  unfold round_fin. destruct (Qcompare_spec (round_pos f q) 0) as [H' | H' | H'].
  - symmetry. exact H'.
  - lra.
  - apply round_pos_idem; assumption.
Qed.

(** The rounding error of a number between 0 and a bound [B] in the normal
    range is at most [B * 2 ^ - prec]. *)
Lemma round_fin_near (y B : Q) :
  0 <= y -> y <= B -> 0 < B -> (emin f <= ilog2 B)%Z ->
  y - B * pow2 (1 - prec f) * (1 # 2) <= round_fin f y /\
  round_fin f y <= y + B * pow2 (1 - prec f) * (1 # 2).
Proof.
  intros Hy HyB HB Hlog. pose proof (pow2_pos (1 - prec f)) as Hp.
  assert (0 <= B * pow2 (1 - prec f)) by (apply Qmult_le_0_compat; lra).
  destruct (Qlt_le_dec 0 y) as [Hpos | Hz].
  - rewrite round_fin_pos by exact Hpos.
    destruct (round_pos_error y Hpos) as [H1 H2].
    pose proof (ulp_bound y B Hpos HyB Hlog). split; lra.
  - rewrite round_fin_zero by lra. split; lra.
Qed.

(** Integers of at most [prec] bits are numbers of the format. *)
Lemma round_fin_Z (k : Z) :
  (0 <= k <= 2 ^ prec f)%Z -> (emin f - (prec f - 1) <= 0)%Z ->
  round_fin f (inject_Z k) == inject_Z k.
Proof.
  intros [Hk0 Hk] He.
  destruct (Z.eq_dec k 0%Z) as [-> | Hne]; [reflexivity|].
  assert (Hpos : 0 < inject_Z k)
    by (change 0 with (inject_Z 0); rewrite <- Zlt_Qlt; lia).
  assert (E : inject_Z k == inject_Z k * pow2 0) by (change (pow2 0) with 1; ring).
  rewrite round_fin_pos by exact Hpos.
  eapply Qeq_trans; [apply (round_pos_proper _ _ Hpos E)|].
  eapply Qeq_trans; [apply round_pos_fixed; [lia | exact He]|].
  symmetry. exact E.
Qed.

End Rounding.
(** ** Arrays *)

Section Arrays.

Local Open Scope Q_scope.
Local Open Scope list_scope.

Lemma foldl_Qmin_spec (t : list Q) (x : Q) :
  foldl Qmin x t ∈ x :: t /\ forall y, y ∈ x :: t -> foldl Qmin x t <= y.
Proof.
  revert x. induction t as [|z t IH]; intros x; simpl.
  - split; [left|]. intros y ->%list_elem_of_singleton. apply Qle_refl.
  - destruct (IH (Qmin x z)) as [Hin Hle]. split.
    + apply elem_of_cons in Hin as [-> | Hin]; [|do 2 right; exact Hin].
      unfold Qmin, GenericMinMax.gmin.
      destruct (x ?= z); [left | left | right; left].
    + intros y Hy. apply elem_of_cons in Hy as [-> | Hy].
      * eapply Qle_trans; [apply Hle; left | apply Q.le_min_l].
      * apply elem_of_cons in Hy as [-> | Hy]; [|apply Hle; right; exact Hy].
        eapply Qle_trans; [apply Hle; left | apply Q.le_min_r].
Qed.

Lemma foldl_Qmax_spec (t : list Q) (x : Q) :
  foldl Qmax x t ∈ x :: t /\ forall y, y ∈ x :: t -> y <= foldl Qmax x t.
Proof.
  revert x. induction t as [|z t IH]; intros x; simpl.
  - split; [left|]. intros y ->%list_elem_of_singleton. apply Qle_refl.
  - destruct (IH (Qmax x z)) as [Hin Hle]. split.
    + apply elem_of_cons in Hin as [-> | Hin]; [|do 2 right; exact Hin].
      unfold Qmax, GenericMinMax.gmax.
      destruct (x ?= z); [left | right; left | left].
    + intros y Hy. apply elem_of_cons in Hy as [-> | Hy].
      * eapply Qle_trans; [apply Q.le_max_l | apply Hle; left].
      * apply elem_of_cons in Hy as [-> | Hy]; [|apply Hle; right; exact Hy].
        eapply Qle_trans; [apply Q.le_max_r | apply Hle; left].
Qed.

Lemma minimum_Fin (a b : Q) :
  Float.minimum (Float.Fin a) (Float.Fin b) = Float.Fin (Qmin a b).
Proof.
  unfold Float.minimum, Float.leb, Qmin, GenericMinMax.gmin.
  destruct (Qle_bool a b) eqn:H; destruct (Qcompare_spec a b) as [E | E | E];
    try reflexivity; exfalso.
  - apply Qle_bool_iff in H. lra.
  - assert (H' : a <= b) by lra. apply Qle_bool_iff in H'. congruence.
  - assert (H' : a <= b) by lra. apply Qle_bool_iff in H'. congruence.
Qed.

Lemma maximum_Fin (a b : Q) :
  Float.maximum (Float.Fin a) (Float.Fin b) = Float.Fin (Qmax a b).
Proof.
  unfold Float.maximum, Float.leb, Qmax, GenericMinMax.gmax.
  destruct (Qle_bool b a) eqn:H; destruct (Qcompare_spec a b) as [E | E | E];
    try reflexivity; exfalso.
  - apply Qle_bool_iff in H. lra.
  - assert (H' : b <= a) by lra. apply Qle_bool_iff in H'. congruence.
  - assert (H' : b <= a) by lra. apply Qle_bool_iff in H'. congruence.
Qed.

Lemma foldl_minimum_Fin (t : list Q) (a : Q) :
  foldl Float.minimum (Float.Fin a) (Float.Fin <$> t) = Float.Fin (foldl Qmin a t).
Proof.
  revert a. induction t as [|b t IH]; intros a; [reflexivity|].
  rewrite fmap_cons. cbn [foldl]. rewrite minimum_Fin. apply IH.
Qed.

Lemma foldl_maximum_Fin (t : list Q) (a : Q) :
  foldl Float.maximum (Float.Fin a) (Float.Fin <$> t) = Float.Fin (foldl Qmax a t).
Proof.
  revert a. induction t as [|b t IH]; intros a; [reflexivity|].
  rewrite fmap_cons. cbn [foldl]. rewrite maximum_Fin. apply IH.
Qed.

Lemma finite_array_Fin (x : list Float.t) :
  finite_array x -> exists qs, x = Float.Fin <$> qs.
Proof.
  induction 1 as [|v x Hv _ [qs ->]]; [exists []; reflexivity|].
  destruct v as [q | | |]; try discriminate Hv. exists (q :: qs). reflexivity.
Qed.

Lemma Np_min_Fin (qs : list Q) :
  qs <> [] ->
  exists lo, Np.min (Float.Fin <$> qs) = Ok (Float.Fin lo) /\
             lo ∈ qs /\ forall y, y ∈ qs -> lo <= y.
Proof.
  destruct qs as [|a t]; [congruence|]. intros _.
  exists (foldl Qmin a t). split; [|apply foldl_Qmin_spec].
  rewrite fmap_cons. unfold Np.min. rewrite foldl_minimum_Fin. reflexivity.
Qed.

Lemma Np_max_Fin (qs : list Q) :
  qs <> [] ->
  exists hi, Np.max (Float.Fin <$> qs) = Ok (Float.Fin hi) /\
             hi ∈ qs /\ forall y, y ∈ qs -> y <= hi.
Proof.
  destruct qs as [|a t]; [congruence|]. intros _.
  exists (foldl Qmax a t). split; [|apply foldl_Qmax_spec].
  rewrite fmap_cons. unfold Np.max. rewrite foldl_maximum_Fin. reflexivity.
Qed.

(** *** The two formats *)

Lemma prec32 : (1 <= Float.prec Float.binary32)%Z.
Proof. cbn. lia. Qed.

Lemma prec64 : (1 <= Float.prec Float.binary64)%Z.
Proof. cbn. lia. Qed.

Lemma round_Fin (f : Float.Format) (q : Q) :
  0 <= q ->
  Float.round_fin f q < Float.pow2 (Float.emax f) ->
  Float.round f q = Float.Fin (Float.round_fin f q).
Proof.
  intros Hq Hlt. unfold Float.round.
  pose proof (round_fin_nonneg f q Hq) as H0.
  pose proof (pow2_pos (Float.emax f)) as Hpos.
  destruct (Qle_bool (Float.pow2 (Float.emax f)) (Float.round_fin f q)) eqn:H1.
  { apply Qle_bool_iff in H1. lra. }
  destruct (Qle_bool (Float.round_fin f q) (- Float.pow2 (Float.emax f))) eqn:H2.
  { apply Qle_bool_iff in H2. lra. }
  reflexivity.
Qed.

Lemma round_Fin_inv (f : Float.Format) (q r : Q) :
  Float.round f q = Float.Fin r ->
  r = Float.round_fin f q /\ r < Float.pow2 (Float.emax f).
Proof.
  unfold Float.round.
  destruct (Qle_bool (Float.pow2 (Float.emax f)) (Float.round_fin f q)) eqn:H1;
    [discriminate|].
  destruct (Qle_bool (Float.round_fin f q) (- Float.pow2 (Float.emax f)));
    [discriminate|].
  intros [= <-]. split; [reflexivity|].
  apply Qnot_le_lt. intros H. apply Qle_bool_iff in H. congruence.
Qed.

(** A number of the format below [2 ^ emax] is at most the largest number
    of the format. *)
Lemma representable_below (f : Float.Format) (a : Q) :
  (1 <= Float.prec f)%Z -> (Float.emin f < Float.emax f)%Z ->
  0 <= a -> representable f a -> a < Float.pow2 (Float.emax f) ->
  a <= max_float f.
Proof.
  intros Hp Hee Ha Hrep Hlt. unfold max_float.
  set (p := Float.prec f) in *. set (emax := Float.emax f) in *.
  assert (Hp1 : (2 ^ (p - 1) <= 2 ^ p - 1)%Z).
  { assert (2 ^ p = 2 * 2 ^ (p - 1))%Z.
    { rewrite <- Z.pow_succ_r by lia. f_equal. lia. }
    assert (0 < 2 ^ (p - 1))%Z by (apply Z.pow_pos_nonneg; lia). lia. }
  assert (Hhalf : Float.pow2 (emax - 1)
                  <= inject_Z (2 ^ p - 1) * Float.pow2 (emax - p)).
  { rewrite (pow2_split (emax - 1) (emax - p)).
    replace (emax - 1 - (emax - p))%Z with (p - 1)%Z by lia.
    apply Qmult_le_compat_r; [|apply Qlt_le_weak, pow2_pos].
    rewrite <- pow2_Z by lia. rewrite <- Zle_Qle. exact Hp1. }
  destruct (Qlt_le_dec 0 a) as [Hpos | Hzero].
  2:{ eapply Qle_trans; [exact Hzero|]. eapply Qle_trans; [|exact Hhalf].
      apply Qlt_le_weak, pow2_pos. }
  unfold representable in Hrep. rewrite round_fin_pos in Hrep by exact Hpos.
  destruct (ilog2_spec a Hpos) as [Slo Shi].
  assert (Hlog : (Float.ilog2 a < emax)%Z).
  { apply pow2_lt_inv. eapply Qle_lt_trans; eassumption. }
  destruct (Z_lt_le_dec (Float.bexp f a) (emax - 1)) as [Hsmall | Hbig].
  - eapply Qle_trans; [|exact Hhalf]. apply Qlt_le_weak.
    eapply Qlt_le_trans; [exact Shi|]. apply pow2_le. unfold Float.bexp in Hsmall. lia.
  - assert (HE : Float.bexp f a = (emax - 1)%Z) by (unfold Float.bexp in *; lia).
    unfold Float.round_pos, Float.ulp in Hrep. rewrite HE in Hrep.
    replace (emax - 1 - (Float.prec f - 1))%Z with (emax - p)%Z in Hrep by (unfold p; lia).
    rewrite <- Hrep. apply Qmult_le_compat_r; [|apply Qlt_le_weak, pow2_pos].
    rewrite <- Zle_Qle.
    assert (Float.mant f a < 2 ^ p)%Z; [|lia].
    rewrite Zlt_Qlt. apply (Qmult_lt_r _ _ (Float.pow2 (emax - p))); [apply pow2_pos|].
    rewrite Hrep. rewrite pow2_Z by lia. rewrite <- pow2_add.
    replace (p + (emax - p))%Z with emax by lia. exact Hlt.
Qed.

(** A number of a format is a number of every format with at least its
    precision and its exponent range. *)
Lemma representable_embed (f g : Float.Format) (a : Q) :
  (1 <= Float.prec f)%Z -> (Float.prec f <= Float.prec g)%Z ->
  (Float.emin g - (Float.prec g - 1) <= Float.emin f - (Float.prec f - 1))%Z ->
  0 <= a -> representable f a -> representable g a.
Proof.
  intros Hp Hpg He Ha Hrep. unfold representable in *.
  destruct (Qlt_le_dec 0 a) as [Hpos | Hzero].
  2:{ rewrite round_fin_zero by lra. lra. }
  rewrite round_fin_pos in * by exact Hpos.
  assert (Hm : (0 < Float.mant f a)%Z).
  { destruct (Z_lt_le_dec 0 (Float.mant f a)) as [|Hle]; [assumption|]. exfalso.
    assert (inject_Z (Float.mant f a) <= 0)
      by (change 0 with (inject_Z 0); rewrite <- Zle_Qle; exact Hle).
    unfold Float.round_pos in Hrep. pose proof (ulp_pos f a). nra. }
  assert (E : a == inject_Z (Float.mant f a)
                   * Float.pow2 (Float.bexp f a - (Float.prec f - 1))).
  { symmetry. exact Hrep. }
  eapply Qeq_trans; [apply (round_pos_proper g ltac:(lia) _ _ Hpos E)|].
  eapply Qeq_trans; [|symmetry; exact E].
  apply round_pos_fixed; [lia | |].
  - split; [exact Hm|]. pose proof (mant_upper f Hp a Hpos).
    assert (2 ^ Float.prec f <= 2 ^ Float.prec g)%Z by (apply Z.pow_le_mono_r; lia).
    lia.
  - pose proof (bexp_emin f a). lia.
Qed.

Lemma representable_round (f : Float.Format) (q : Q) :
  (1 <= Float.prec f)%Z -> 0 <= q -> representable f (Float.round_fin f q).
Proof. intros. apply round_fin_idem; assumption. Qed.

(** The numbers of a format are the numbers that rounding to the format
    does not change. *)
Lemma is_number_representable (f : Float.Format) (q : Q) :
  (1 <= Float.prec f)%Z -> 0 <= q -> is_number f q -> representable f q.
Proof.
  intros Hp Hq (m & e & Hm & He & E). unfold representable.
  destruct (Qlt_le_dec 0 q) as [Hpos | Hzero].
  2:{ rewrite round_fin_zero by lra. lra. }
  assert (Hm0 : (0 < m)%Z).
  { destruct (Z_lt_le_dec 0 m) as [|Hle]; [assumption|]. exfalso.
    assert (inject_Z m <= 0)
      by (change 0 with (inject_Z 0); rewrite <- Zle_Qle; exact Hle).
    pose proof (pow2_pos e). nra. }
  rewrite round_fin_pos by exact Hpos.
  eapply Qeq_trans; [apply (round_pos_proper f Hp _ _ Hpos E)|].
  eapply Qeq_trans; [|symmetry; exact E].
  apply round_pos_fixed; [exact Hp | lia | exact He].
Qed.

Lemma representable_is_number (f : Float.Format) (q : Q) :
  (1 <= Float.prec f)%Z -> 0 <= q -> representable f q -> is_number f q.
Proof.
  intros Hp Hq Hrep. unfold representable in Hrep.
  destruct (Qlt_le_dec 0 q) as [Hpos | Hzero].
  - rewrite round_fin_pos in Hrep by exact Hpos.
    exists (Float.mant f q), (Float.bexp f q - (Float.prec f - 1))%Z.
    pose proof (mant_nonneg f q Hpos). pose proof (mant_upper f Hp q Hpos).
    pose proof (bexp_emin f q).
    split; [lia|]. split; [lia|]. symmetry. exact Hrep.
  - exists 0%Z, (Float.emin f - (Float.prec f - 1))%Z.
    split; [apply Z.pow_nonneg; lia|]. split; [lia|].
    rewrite Qmult_0_l. lra.
Qed.


(** *** Normalization *)

Lemma EPSILON_binary64 :
  EPSILON = Float.Fin (6044629098073146 # 604462909807314587353088).
Proof. vm_compute. reflexivity. Qed.

Lemma EPSILON_binary32 :
  Float.convert Float.binary32 EPSILON = Float.Fin (11258999 # 1125899906842624).
Proof. vm_compute. reflexivity. Qed.

Lemma add_Fin (f : Float.Format) (a b : Q) :
  Float.add f (Float.Fin a) (Float.Fin b) = Float.round f (a + b).
Proof. reflexivity. Qed.

Lemma sub_Fin (f : Float.Format) (a b : Q) :
  Float.sub f (Float.Fin a) (Float.Fin b) = Float.round f (a - b).
Proof. reflexivity. Qed.

Lemma div_Fin (f : Float.Format) (a b : Q) :
  0 < b -> Float.div f (Float.Fin a) (Float.Fin b) = Float.round f (a / b).
Proof.
  intros Hb. unfold Float.div.
  destruct (Qcompare_spec b 0) as [H | H | H]; [lra | lra | reflexivity].
Qed.

Lemma max_float32_lt : max_float Float.binary32 < Float.pow2 128.
Proof. vm_compute. reflexivity. Qed.

Lemma round_fin32_1 : Float.round_fin Float.binary32 1 == 1.
Proof. vm_compute. reflexivity. Qed.

(** The divisor of the normalization, for a range [a] that is a binary32
    number: it is a number, at least [a] and at least 1e-8, and exceeds
    [a + 1e-8] by the rounding only. *)
Lemma denominator_spec (p : Promotion) (a : Q) :
  0 <= a -> representable Float.binary32 a -> a < Float.pow2 128 ->
  exists d,
    denominator p (Float.Fin a) = Float.Fin d /\ a <= d /\ 0 < d /\
    d <= (a + (100000001 # 10000000000000000)) * (1 + (1 # 8388608)).
Proof.
  intros Ha Hrep Hlt.
  assert (Hmax : a <= max_float Float.binary32).
  { apply representable_below; [exact prec32 | cbn; lia | assumption..]. }
  pose proof max_float32_lt as Hmlt.
  unfold representable in Hrep.
  destruct p; unfold denominator.
  - (* NumPy 1: the sum in binary64, then converted *)
    rewrite EPSILON_binary64, add_Fin.
    set (c := 6044629098073146 # 604462909807314587353088).
    assert (Hc : 0 < c) by reflexivity.
    assert (Hc64 : Float.round_fin Float.binary64 c == c) by (vm_compute; reflexivity).
    assert (Hc32 : Float.round_fin Float.binary32 c == 11258999 # 1125899906842624)
      by (vm_compute; reflexivity).
    assert (Hclog : Float.ilog2 c = (-27)%Z) by (vm_compute; reflexivity).
    assert (Hce : c <= 100000001 # 10000000000000000) by (vm_compute; discriminate).
    set (y := a + c). assert (Hy : 0 < y) by (unfold y; lra).
    set (D := Float.round_fin Float.binary64 y).
    assert (HD0 : 0 <= D) by (apply round_fin_nonneg; lra).
    assert (HDc : c <= D).
    { rewrite <- Hc64. apply round_fin_mono; [exact prec64 | lra | unfold y; lra]. }
    assert (HDup : D <= max_float Float.binary32).
    { eapply Qle_trans;
        [apply (round_fin_mono Float.binary64 prec64 y (max_float Float.binary32 + c));
         [lra | unfold y; lra]|].
      apply Qle_bool_iff. vm_compute. reflexivity. }
    assert (HaD : a <= D).
    { assert (Hrep64 : representable Float.binary64 a).
      { apply (representable_embed Float.binary32 Float.binary64);
          [exact prec32 | cbn; lia | cbn; lia | exact Ha | exact Hrep]. }
      unfold representable in Hrep64. rewrite <- Hrep64.
      apply round_fin_mono; [exact prec64 | exact Ha | unfold y; lra]. }
    rewrite round_Fin; [|lra|].
    2:{ fold D. eapply Qle_lt_trans; [exact HDup|].
        apply Qlt_alt. vm_compute. reflexivity. }
    fold D. cbn [Float.convert].
    set (d := Float.round_fin Float.binary32 D).
    assert (Hdup : d <= max_float Float.binary32).
    { eapply Qle_trans;
        [apply (round_fin_mono Float.binary32 prec32 D (max_float Float.binary32));
         [exact HD0 | exact HDup]|].
      apply Qle_bool_iff. vm_compute. reflexivity. }
    rewrite round_Fin; [|exact HD0 | eapply Qle_lt_trans; [exact Hdup | exact Hmlt]].
    fold d. exists d. split; [reflexivity|].
    assert (Had : a <= d).
    { rewrite <- Hrep. apply round_fin_mono; [exact prec32 | exact Ha | exact HaD]. }
    assert (Hdc : 11258999 # 1125899906842624 <= d).
    { rewrite <- Hc32. apply round_fin_mono; [exact prec32 | lra | exact HDc]. }
    split; [exact Had|]. split; [eapply Qlt_le_trans; [|exact Hdc]; reflexivity|].
    (* the two roundings *)
    assert (HDpos : 0 < D) by lra.
    assert (E64 : D <= y * (1 + (1 # 9007199254740992))).
    { unfold D. rewrite round_fin_pos by exact Hy.
      destruct (round_pos_error Float.binary64 y Hy) as [_ Hup].
      assert (Hu : Float.ulp Float.binary64 y <= y * Float.pow2 (1 - 53)).
      { apply (ulp_normal Float.binary64 y Hy).
        assert (Float.ilog2 c <= Float.ilog2 y)%Z
          by (apply ilog2_mono; [exact Hc | unfold y; lra]).
        cbn. lia. }
      assert (P : Float.pow2 (1 - 53) == 1 # 4503599627370496) by reflexivity.
      rewrite P in Hu. lra. }
    assert (E32 : d <= D * (1 + (1 # 16777216))).
    { unfold d. rewrite round_fin_pos by exact HDpos.
      destruct (round_pos_error Float.binary32 D HDpos) as [_ Hup].
      assert (Hu : Float.ulp Float.binary32 D <= D * Float.pow2 (1 - 24)).
      { apply (ulp_normal Float.binary32 D HDpos).
        assert (Float.ilog2 c <= Float.ilog2 D)%Z
          by (apply ilog2_mono; [exact Hc | exact HDc]).
        cbn. lia. }
      assert (P : Float.pow2 (1 - 24) == 1 # 8388608) by reflexivity.
      rewrite P in Hu. lra. }
    assert (E : D * (1 + (1 # 16777216))
                <= y * (1 + (1 # 9007199254740992)) * (1 + (1 # 16777216))).
    { apply Qmult_le_compat_r; [exact E64 | discriminate]. }
    unfold y in E. lra.
  - (* NumPy 2: 1e-8 converted, then the sum in binary32 *)
    rewrite EPSILON_binary32, add_Fin.
    set (c := 11258999 # 1125899906842624).
    assert (Hc : 0 < c) by reflexivity.
    assert (Hc32 : Float.round_fin Float.binary32 c == c) by (vm_compute; reflexivity).
    assert (Hclog : Float.ilog2 c = (-27)%Z) by (vm_compute; reflexivity).
    assert (Hce : c <= 100000001 # 10000000000000000) by (vm_compute; discriminate).
    set (y := a + c). assert (Hy : 0 < y) by (unfold y; lra).
    set (d := Float.round_fin Float.binary32 y).
    assert (Hdup : d <= max_float Float.binary32).
    { eapply Qle_trans;
        [apply (round_fin_mono Float.binary32 prec32 y (max_float Float.binary32 + c));
         [lra | unfold y; lra]|].
      apply Qle_bool_iff. vm_compute. reflexivity. }
    rewrite round_Fin; [|lra | eapply Qle_lt_trans; [exact Hdup | exact Hmlt]].
    fold d. exists d. split; [reflexivity|].
    assert (Had : a <= d).
    { rewrite <- Hrep. apply round_fin_mono; [exact prec32 | exact Ha | unfold y; lra]. }
    assert (Hdc : c <= d).
    { rewrite <- Hc32. apply round_fin_mono; [exact prec32 | lra | unfold y; lra]. }
    split; [exact Had|]. split; [lra|].
    unfold d. rewrite round_fin_pos by exact Hy.
    destruct (round_pos_error Float.binary32 y Hy) as [_ Hup].
    assert (Hu : Float.ulp Float.binary32 y <= y * Float.pow2 (1 - 24)).
    { apply (ulp_normal Float.binary32 y Hy).
      assert (Float.ilog2 c <= Float.ilog2 y)%Z
        by (apply ilog2_mono; [exact Hc | unfold y; lra]).
      cbn. lia. }
    assert (P : Float.pow2 (1 - 24) == 1 # 8388608) by reflexivity.
    rewrite P in Hu. unfold y in *. lra.
Qed.


Lemma scaled_nonneg (lo d v : Q) : lo <= v -> 0 < d -> 0 <= scaled lo d v.
Proof.
  intros Hv Hd. unfold scaled. apply round_fin_nonneg.
  apply Qle_shift_div_l; [exact Hd|]. rewrite Qmult_0_l.
  apply round_fin_nonneg. lra.
Qed.

Lemma scaled_mono (lo d u v : Q) :
  lo <= u -> u <= v -> 0 < d -> scaled lo d u <= scaled lo d v.
Proof.
  intros Hu Huv Hd. unfold scaled.
  assert (H0 : 0 <= Float.round_fin Float.binary32 (u - lo))
    by (apply round_fin_nonneg; lra).
  assert (H1 : Float.round_fin Float.binary32 (u - lo)
               <= Float.round_fin Float.binary32 (v - lo))
    by (apply round_fin_mono; [exact prec32 | lra | lra]).
  pose proof (Qinv_lt_0_compat d Hd) as Hinv.
  apply round_fin_mono; [exact prec32 | |].
  - unfold Qdiv. apply Qmult_le_0_compat; lra.
  - unfold Qdiv. apply Qmult_le_compat_r; lra.
Qed.

Lemma scaled_le_1 (lo d v : Q) :
  lo <= v -> 0 < d -> Float.round_fin Float.binary32 (v - lo) <= d ->
  scaled lo d v <= 1.
Proof.
  intros Hv Hd Hle. unfold scaled. rewrite <- round_fin32_1.
  assert (H0 : 0 <= Float.round_fin Float.binary32 (v - lo))
    by (apply round_fin_nonneg; lra).
  pose proof (Qinv_lt_0_compat d Hd) as Hinv.
  apply round_fin_mono; [exact prec32 | |].
  - unfold Qdiv. apply Qmult_le_0_compat; lra.
  - apply Qle_shift_div_r; [exact Hd|]. lra.
Qed.

Lemma scaled_lo (lo d : Q) : scaled lo d lo = 0.
Proof.
  unfold scaled. rewrite (round_fin_zero Float.binary32 (lo - lo)) by ring.
  apply round_fin_zero. unfold Qdiv. ring.
Qed.

(** The normalization of an array of numbers whose range [a] does not
    overflow and whose divisor [d] is a number, element by element. *)
Lemma normalize_finite (p : Promotion) (qs : list Q) (lo hi a d : Q) :
  Np.min (Float.Fin <$> qs) = Ok (Float.Fin lo) ->
  Np.max (Float.Fin <$> qs) = Ok (Float.Fin hi) ->
  (forall y, y ∈ qs -> lo <= y <= hi) ->
  Float.sub Float.binary32 (Float.Fin hi) (Float.Fin lo) = Float.Fin a ->
  denominator p (Float.Fin a) = Float.Fin d -> a <= d -> 0 < d ->
  (fun v => Float.div Float.binary32 (Float.sub Float.binary32 v (Float.Fin lo))
              (Float.Fin d)) <$> (Float.Fin <$> qs)
  = Float.Fin <$> (scaled lo d <$> qs).
Proof.
  intros Hmin Hmax Hbounds Hsub Hden Had Hd.
  rewrite sub_Fin in Hsub. apply round_Fin_inv in Hsub as [-> Hlt].
  rewrite <- !list_fmap_compose. apply Forall_fmap_ext, Forall_forall.
  intros q Hq. destruct (Hbounds q Hq) as [Hlo Hhi]. cbn [compose].
  assert (Hn : Float.round_fin Float.binary32 (q - lo)
               <= Float.round_fin Float.binary32 (hi - lo))
    by (apply round_fin_mono; [exact prec32 | lra | lra]).
  rewrite sub_Fin, round_Fin; [|lra | eapply Qle_lt_trans; eassumption].
  rewrite div_Fin by exact Hd.
  rewrite round_Fin; [reflexivity | |].
  - pose proof (Qinv_lt_0_compat d Hd).
    assert (0 <= Float.round_fin Float.binary32 (q - lo))
      by (apply round_fin_nonneg; lra).
    unfold Qdiv. apply Qmult_le_0_compat; lra.
  - eapply Qle_lt_trans; [apply (scaled_le_1 lo d q); [exact Hlo | exact Hd | lra]|].
    reflexivity.
Qed.

Lemma has_value_Fin (q r : Q) : q == r -> has_value (Float.Fin q) r.
Proof. intros H. exists q. split; [reflexivity | exact H]. Qed.

(** A range of at least 1/4 absorbs the 1e-8: the divisor is the range. *)
Lemma denominator_absorbs (p : Promotion) (a d : Q) :
  1 # 4 <= a -> representable Float.binary32 a ->
  denominator p (Float.Fin a) = Float.Fin d -> d == a.
Proof.
  intros Ha Hrep Hden. unfold representable in Hrep.
  assert (Hpos : 0 < a) by lra.
  rewrite round_fin_pos in Hrep by exact Hpos.
  assert (Hlog : (-2 <= Float.ilog2 a)%Z).
  { assert (Float.ilog2 (1 # 4) <= Float.ilog2 a)%Z
      by (apply ilog2_mono; [reflexivity | exact Ha]).
    assert (Float.ilog2 (1 # 4) = (-2)%Z) by (vm_compute; reflexivity). lia. }
  assert (Hnormal : (Float.emin Float.binary32 <= Float.ilog2 a)%Z) by (cbn; lia).
  pose proof (ulp_pos Float.binary32 a) as Hu0.
  assert (Hu : 1 # 33554432 <= Float.ulp Float.binary32 a).
  { assert (P : Float.pow2 (-25) == 1 # 33554432) by reflexivity.
    rewrite <- P. unfold Float.ulp. apply pow2_le. unfold Float.bexp. cbn. lia. }
  assert (Htop : a < 16777216 * Float.ulp Float.binary32 a).
  { destruct (ilog2_spec a Hpos) as [_ Shi].
    eapply Qlt_le_trans; [exact Shi|].
    unfold Float.ulp, Float.bexp. rewrite Z.max_l by exact Hnormal.
    change 16777216 with (Float.pow2 24). rewrite <- pow2_add.
    apply pow2_le. cbn. lia. }
  set (u := Float.ulp Float.binary32 a) in *.
  destruct p; unfold denominator in Hden.
  - rewrite EPSILON_binary64, add_Fin in Hden.
    set (c := 6044629098073146 # 604462909807314587353088) in *.
    assert (Hc : 0 < c) by reflexivity.
    assert (Hce : c <= 100000001 # 10000000000000000) by (vm_compute; discriminate).
    destruct (Float.round Float.binary64 (a + c)) as [D | | |] eqn:HD;
      try discriminate Hden.
    apply round_Fin_inv in HD as [-> _]. cbn [Float.convert] in Hden.
    apply round_Fin_inv in Hden as [-> _].
    set (y := a + c) in *. assert (Hy : 0 < y) by (unfold y; lra).
    set (D := Float.round_fin Float.binary64 y).
    assert (HaD : a <= D).
    { assert (Hrep64 : representable Float.binary64 a).
      { apply (representable_embed Float.binary32 Float.binary64);
          [exact prec32 | cbn; lia | cbn; lia | lra|].
        unfold representable. rewrite round_fin_pos by exact Hpos. exact Hrep. }
      unfold representable in Hrep64. rewrite <- Hrep64.
      apply round_fin_mono; [exact prec64 | lra | unfold y; lra]. }
    assert (E64 : D <= y * (1 + (1 # 9007199254740992))).
    { unfold D. rewrite round_fin_pos by exact Hy.
      destruct (round_pos_error Float.binary64 y Hy) as [_ Hup].
      assert (Hu64 : Float.ulp Float.binary64 y <= y * Float.pow2 (1 - 53)).
      { apply (ulp_normal Float.binary64 y Hy).
        assert (Float.ilog2 a <= Float.ilog2 y)%Z
          by (apply ilog2_mono; [exact Hpos | unfold y; lra]).
        cbn. lia. }
      assert (P : Float.pow2 (1 - 53) == 1 # 4503599627370496) by reflexivity.
      rewrite P in Hu64. lra. }
    rewrite round_fin_pos by lra.
    apply (round_pos_absorb Float.binary32 prec32 a D Hpos Hrep Hnormal HaD).
    fold u. unfold y in E64. lra.
  - rewrite EPSILON_binary32, add_Fin in Hden.
    set (c := 11258999 # 1125899906842624) in *.
    assert (Hc : 0 < c) by reflexivity.
    apply round_Fin_inv in Hden as [-> _].
    rewrite round_fin_pos by lra.
    apply (round_pos_absorb Float.binary32 prec32 a (a + c) Hpos Hrep Hnormal);
      [lra|].
    fold u. unfold c. lra.
Qed.

(** The rounded quotient [a / d] of a range by its divisor falls short of
    1 by the share of the 1e-8 in the divisor and by the rounding. *)
Lemma quotient_near_1 (a d : Q) :
  0 < a -> a <= d ->
  d <= (a + (100000001 # 10000000000000000)) * (1 + (1 # 8388608)) ->
  1 - (11 # 1000000000) / a - (1 # 4194304)
  <= Float.round_fin Float.binary32 (a / d).
Proof.
  intros Ha Had Hd.
  assert (Hdpos : 0 < d) by lra.
  set (B := (11 # 1000000000) / a).
  assert (HB : B * a == 11 # 1000000000) by (unfold B; field; lra).
  assert (HB0 : 0 < B) by (apply Qlt_shift_div_l; [exact Ha | reflexivity]).
  set (k := 1 - B - (1 # 8388608)).
  set (s := (a + (100000001 # 10000000000000000)) * (1 + (1 # 8388608))) in *.
  assert (Hz : k <= a / d).
  { apply Qle_shift_div_l; [exact Hdpos|].
    destruct (Qlt_le_dec 0 k) as [Hpos | Hneg].
    - assert (H1 : k * d <= k * s) by (apply Qmult_le_l; assumption).
      assert (H2 : k * s
                   == a * (1 - (1 # 8388608)) * (1 + (1 # 8388608))
                      - (B * a) * (1 + (1 # 8388608))
                      + (100000001 # 10000000000000000) * (1 + (1 # 8388608)) * k)
        by (unfold k, s; ring).
      rewrite HB in H2. assert (k <= 1) by (unfold k; lra). lra.
    - assert (H1 : 0 <= (- k) * d) by (apply Qmult_le_0_compat; lra).
      assert (H2 : (- k) * d == - (k * d)) by ring.
      lra. }
  set (z := a / d) in *.
  assert (Hz0 : 0 < z) by (apply Qlt_shift_div_l; lra).
  assert (Hz1 : z <= 1) by (apply Qle_shift_div_r; lra).
  rewrite round_fin_pos by exact Hz0.
  destruct (round_pos_error Float.binary32 z Hz0) as [Hlow _].
  assert (Hu : Float.ulp Float.binary32 z <= 1 # 8388608).
  { destruct (ilog2_spec z Hz0) as [Slo _].
    assert (Float.ilog2 z < 1)%Z.
    { apply pow2_lt_inv. eapply Qle_lt_trans; [exact Slo|].
      eapply Qle_lt_trans; [exact Hz1 | reflexivity]. }
    assert (P : Float.pow2 (-23) == 1 # 8388608) by reflexivity.
    rewrite <- P. unfold Float.ulp. apply pow2_le.
    unfold Float.bexp. cbn. lia. }
  unfold k in Hz. fold B. lra.
Qed.


Lemma constant_Fin (qs : list Q) :
  constant (Float.Fin <$> qs) -> forall a b, a ∈ qs -> b ∈ qs -> a == b.
Proof.
  intros Hc a b Ha Hb.
  assert (H1 : Float.leb (Float.Fin a) (Float.Fin b) = true)
    by (apply Hc; apply list_elem_of_fmap_2; assumption).
  assert (H2 : Float.leb (Float.Fin b) (Float.Fin a) = true)
    by (apply Hc; apply list_elem_of_fmap_2; assumption).
  cbn in H1, H2. apply Qle_bool_iff in H1, H2. lra.
Qed.

(** The difference of two binary32 numbers is not rounded to zero. *)
Lemma difference_positive (x y : Q) :
  is_number Float.binary32 x -> is_number Float.binary32 y -> y < x ->
  0 < Float.round_fin Float.binary32 (x - y).
Proof.
  intros (m1 & e1 & _ & He1 & E1) (m2 & e2 & _ & He2 & E2) Hlt.
  cbn in He1, He2.
  assert (G : forall m e, (-149 <= e)%Z ->
            inject_Z m * Float.pow2 e
            == inject_Z (m * 2 ^ (e + 149)) * Float.pow2 (-149)).
  { intros m e He. rewrite inject_Z_mult, pow2_Z by lia.
    rewrite <- Qmult_assoc, <- pow2_add.
    replace (e + 149 + -149)%Z with e by lia. reflexivity. }
  set (K := (m1 * 2 ^ (e1 + 149) - m2 * 2 ^ (e2 + 149))%Z).
  assert (E : x - y == inject_Z K * Float.pow2 (-149)).
  { rewrite E1, E2, (G m1 e1 He1), (G m2 e2 He2). unfold K, Z.sub.
    rewrite inject_Z_plus, inject_Z_opp. ring. }
  pose proof (pow2_pos (-149)) as Hu.
  assert (HK : (1 <= K)%Z).
  { destruct (Z_lt_le_dec 0 K) as [|Hle]; [lia|]. exfalso.
    assert (inject_Z K <= 0)
      by (change 0 with (inject_Z 0); rewrite <- Zle_Qle; exact Hle).
    assert (0 < inject_Z K * Float.pow2 (-149)) by lra. nra. }
  assert (Hge : Float.pow2 (-149) <= x - y).
  { rewrite E. rewrite <- (Qmult_1_l (Float.pow2 (-149))) at 1.
    apply Qmult_le_compat_r; [|lra].
    change 1 with (inject_Z 1). rewrite <- Zle_Qle. exact HK. }
  assert (Hr : Float.round_fin Float.binary32 (Float.pow2 (-149))
               == Float.pow2 (-149)) by (vm_compute; reflexivity).
  eapply Qlt_le_trans; [exact Hu|]. rewrite <- Hr.
  apply round_fin_mono; [exact prec32 | lra | exact Hge].
Qed.

(** The normalization of an array of numbers with extremes [lo] and [hi]
    whose range [a] does not overflow. *)
Lemma normalize_extremes (p : Promotion) (qs : list Q) (lo hi a : Q) :
  Np.min (Float.Fin <$> qs) = Ok (Float.Fin lo) ->
  Np.max (Float.Fin <$> qs) = Ok (Float.Fin hi) ->
  lo ∈ qs -> hi ∈ qs -> (forall y, y ∈ qs -> lo <= y <= hi) ->
  Float.sub Float.binary32 (Float.Fin hi) (Float.Fin lo) = Float.Fin a ->
  exists d mn mx,
    denominator p (Float.Fin a) = Float.Fin d /\
    0 <= a <= d /\ 0 < d /\
    normalize p (Float.Fin <$> qs) = Ok (Float.Fin <$> (scaled lo d <$> qs)) /\
    Forall (value_in 0 1) (Float.Fin <$> (scaled lo d <$> qs)) /\
    Np.min (Float.Fin <$> (scaled lo d <$> qs)) = Ok mn /\ has_value mn 0 /\
    Np.max (Float.Fin <$> (scaled lo d <$> qs)) = Ok (Float.Fin mx) /\
    mx == Float.round_fin Float.binary32 (a / d) /\
    mx <= 1 /\
    (0 < a -> 1 - (11 # 1000000000) / a - (1 # 4194304) <= mx) /\
    (1 # 4 <= a -> d == a /\ mx == 1).
Proof.
  intros Hmin Hmax Hlo_in Hhi_in Hbounds Hsub.
  assert (Hlo : forall y, y ∈ qs -> lo <= y) by (intros y Hy; apply Hbounds, Hy).
  assert (Hhi : forall y, y ∈ qs -> y <= hi) by (intros y Hy; apply Hbounds, Hy).
  assert (Hlh : lo <= hi) by (apply Hlo, Hhi_in).
  assert (Ha : a = Float.round_fin Float.binary32 (hi - lo)
               /\ a < Float.pow2 128).
  { rewrite sub_Fin in Hsub. apply round_Fin_inv in Hsub. exact Hsub. }
  destruct Ha as [Ea Halt].
  assert (Ha0 : 0 <= a) by (rewrite Ea; apply round_fin_nonneg; lra).
  assert (Harep : representable Float.binary32 a)
    by (rewrite Ea; apply representable_round; [exact prec32 | lra]).
  destruct (denominator_spec p a Ha0 Harep Halt) as (d & Hden & Had & Hd & Hdup).
  assert (Hsne : scaled lo d <$> qs <> [])
    by (destruct qs; [inversion Hlo_in | discriminate]).
  destruct (Np_min_Fin _ Hsne) as (mn & Hmn & Hmn_in & Hmn_le).
  destruct (Np_max_Fin _ Hsne) as (mx & Hmx & Hmx_in & Hmx_le).
  apply list_elem_of_fmap in Hmn_in as (u & -> & Hu).
  apply list_elem_of_fmap in Hmx_in as (v & -> & Hv).
  assert (Ehi : scaled lo d hi = Float.round_fin Float.binary32 (a / d))
    by (unfold scaled; rewrite Ea; reflexivity).
  assert (Emx : scaled lo d v == scaled lo d hi).
  { apply Qle_antisym.
    - apply scaled_mono; [apply Hlo, Hv | apply Hhi, Hv | exact Hd].
    - apply Hmx_le, list_elem_of_fmap_2, Hhi_in. }
  assert (Hle1 : forall y, y ∈ qs -> scaled lo d y <= 1).
  { intros y Hy. apply scaled_le_1; [apply Hlo, Hy | exact Hd|].
    eapply Qle_trans; [|exact Had]. rewrite Ea.
    destruct (Hbounds y Hy). apply round_fin_mono; [exact prec32 | lra | lra]. }
  exists d, (Float.Fin (scaled lo d u)), (scaled lo d v).
  split; [exact Hden|]. split; [split; assumption|]. split; [exact Hd|].
  split.
  { unfold normalize. rewrite Hmin, Hmax, Hsub, Hden. f_equal.
    apply (normalize_finite p qs lo hi a d); assumption. }
  split; [|split; [exact Hmn|split; [|split; [exact Hmx|split; [|split; [|split]]]]]].
  - apply Forall_fmap, Forall_fmap, Forall_forall. intros y Hy.
    exists (scaled lo d y). split; [reflexivity|]. split.
    + apply scaled_nonneg; [apply Hlo, Hy | exact Hd].
    + apply Hle1, Hy.
  - apply has_value_Fin, Qle_antisym.
    + pose proof (Hmn_le _ (list_elem_of_fmap_2 (scaled lo d) _ _ Hlo_in)) as H.
      rewrite scaled_lo in H. exact H.
    + apply scaled_nonneg; [apply Hlo, Hu | exact Hd].
  - rewrite Emx, Ehi. reflexivity.
  - apply Hle1, Hv.
  - intros Hapos. rewrite Emx, Ehi.
    apply quotient_near_1; assumption.
  - intros Hquarter.
    pose proof (denominator_absorbs p a d Hquarter Harep Hden) as Eda.
    split; [exact Eda|]. rewrite Emx, Ehi, <- round_fin32_1.
    apply round_fin_proper; [exact prec32 | |].
    + apply Qle_shift_div_l; lra.
    + rewrite Eda. field. lra.
Qed.

(** C4, as the code has it, in the binary32 arithmetic of the array.  On
    an array of numbers that is not empty the result is, element by
    element, the rounded quotient of the rounded difference [v - lo] by the
    divisor, the rounded sum of the rounded range [hi - lo] and 1e-8.
    When the range [a] does not overflow, the divisor [d] is a number,
    every element of the result lies between 0 and 1, the minimum of the
    result is 0 and its maximum is the rounded [a / d], which is at most 1
    and falls short of 1 by at most [1.1e-8 / a + 2 ^ -22]; from a range
    of 1/4 on the 1e-8 is lost in the rounding of the divisor and the
    maximum is 1.  The range [a] is positive when the array is not
    constant and holds binary32 numbers.
    On a constant array the range is 0 and every element of the result
    is 0. *)
Theorem normalize_spec (p : Promotion) (x : list Float.t) :
  x <> [] -> finite_array x ->
  exists lo hi out,
    Np.min x = Ok lo /\ Np.max x = Ok hi /\
    normalize p x = Ok out /\
    out = (fun v => Float.div Float.binary32 (Float.sub Float.binary32 v lo)
                      (denominator p (Float.sub Float.binary32 hi lo))) <$> x /\
    (forall a, Float.sub Float.binary32 hi lo = Float.Fin a ->
       exists d mn mx,
         denominator p (Float.Fin a) = Float.Fin d /\
         0 <= a <= d /\ 0 < d /\
         Forall (value_in 0 1) out /\
         Np.min out = Ok mn /\ has_value mn 0 /\
         Np.max out = Ok (Float.Fin mx) /\
         mx == Float.round_fin Float.binary32 (a / d) /\
         mx <= 1 /\
         (0 < a -> 1 - (11 # 1000000000) / a - (1 # 4194304) <= mx) /\
         (1 # 4 <= a -> d == a /\ mx == 1) /\
         (binary32_array x -> ~ constant x -> 0 < a)) /\
    (constant x ->
       Float.sub Float.binary32 hi lo = Float.Fin 0 /\
       Forall (fun v => v = Float.Fin 0) out).
Proof.
  intros Hne Hfin. destruct (finite_array_Fin x Hfin) as [qs ->].
  assert (Hqs : qs <> []) by (destruct qs; [exfalso; apply Hne; reflexivity | discriminate]).
  destruct (Np_min_Fin qs Hqs) as (lo & Hmin & Hlo_in & Hlo).
  destruct (Np_max_Fin qs Hqs) as (hi & Hmax & Hhi_in & Hhi).
  assert (Hlh : lo <= hi) by (apply Hlo, Hhi_in).
  assert (Hbounds : forall y, y ∈ qs -> lo <= y <= hi) by (intros y Hy; split; auto).
  assert (Hout : normalize p (Float.Fin <$> qs)
                 = Ok ((fun v => Float.div Float.binary32
                                   (Float.sub Float.binary32 v (Float.Fin lo))
                                   (denominator p (Float.sub Float.binary32
                                                     (Float.Fin hi) (Float.Fin lo))))
                         <$> (Float.Fin <$> qs)))
    by (unfold normalize; rewrite Hmin, Hmax; reflexivity).
  set (out := (fun v => Float.div Float.binary32
                          (Float.sub Float.binary32 v (Float.Fin lo))
                          (denominator p (Float.sub Float.binary32
                                            (Float.Fin hi) (Float.Fin lo))))
                <$> (Float.Fin <$> qs)) in *.
  exists (Float.Fin lo), (Float.Fin hi), out.
  split; [exact Hmin|]. split; [exact Hmax|]. split; [exact Hout|].
  split; [reflexivity|]. split.
  - intros a Hsub.
    destruct (normalize_extremes p qs lo hi a Hmin Hmax Hlo_in Hhi_in Hbounds Hsub)
      as (d & mn & mx & Hden & Had & Hd & Hn & Hin & Hmn & Hmn0 & Hmx & Emx & Hle
          & Hnear & Habsorb).
    assert (Eout : out = Float.Fin <$> (scaled lo d <$> qs)) by congruence.
    rewrite Eout. exists d, mn, mx.
    do 11 (split; [assumption|]).
    intros Hb32 Hnc.
    assert (Ea : a = Float.round_fin Float.binary32 (hi - lo)).
    { rewrite sub_Fin in Hsub. apply round_Fin_inv in Hsub as [-> _]. reflexivity. }
    assert (Hnum : forall y, y ∈ qs -> is_number Float.binary32 y).
    { intros y Hy.
      destruct (proj1 (Forall_forall _ _) Hb32 (Float.Fin y)
                  (list_elem_of_fmap_2 Float.Fin _ _ Hy)) as (q & [= <-] & Hq).
      exact Hq. }
    rewrite Ea. apply difference_positive; [apply Hnum, Hhi_in | apply Hnum, Hlo_in|].
    destruct (Qlt_le_dec lo hi) as [|Hge]; [assumption|]. exfalso. apply Hnc.
    intros u v (u' & -> & Hu)%list_elem_of_fmap (v' & -> & Hv)%list_elem_of_fmap.
    destruct (Hbounds u' Hu), (Hbounds v' Hv).
    cbn. apply Qle_bool_iff. lra.
  - intros Hc. pose proof (constant_Fin qs Hc) as Hceq.
    assert (Hsub : Float.sub Float.binary32 (Float.Fin hi) (Float.Fin lo)
                   = Float.Fin 0).
    { rewrite sub_Fin. rewrite round_Fin.
      - rewrite round_fin_zero; [reflexivity|].
        specialize (Hceq hi lo Hhi_in Hlo_in). lra.
      - lra.
      - rewrite round_fin_zero; [reflexivity|].
        specialize (Hceq hi lo Hhi_in Hlo_in). lra. }
    split; [exact Hsub|].
    destruct (denominator_spec p 0) as (d & Hden & _ & Hd & _);
      [lra | reflexivity | reflexivity|].
    unfold out. rewrite Hsub, Hden.
    assert (Had : 0 <= d) by lra.
    rewrite (normalize_finite p qs lo hi 0 d Hmin Hmax Hbounds Hsub Hden Had Hd).
    apply Forall_fmap, Forall_fmap, Forall_forall. intros y Hy. cbn [compose].
    f_equal. unfold scaled.
    rewrite (round_fin_zero Float.binary32 (y - lo))
      by (specialize (Hceq y lo Hy Hlo_in); lra).
    apply round_fin_zero. unfold Qdiv. ring.
Qed.

Lemma normalize_spec_witness :
  exists out mx,
    normalize Weak [Float.Fin 1; Float.Fin 3] = Ok out /\
    Forall (value_in 0 1) out /\
    Np.max out = Ok (Float.Fin mx) /\ mx <= 1.
Proof.
  destruct (normalize_spec Weak [Float.Fin 1; Float.Fin 3])
    as (lo & hi & out & Hmin & Hmax & Hnorm & _ & Hrange & _).
  - discriminate.
  - repeat constructor.
  - injection Hmin as <-. injection Hmax as <-.
    destruct (Hrange (Float.round_fin Float.binary32 (3 - 1)))
      as (d & mn & mx & _ & _ & _ & Hin & _ & _ & Hmx & _ & Hle & _);
      [vm_compute; reflexivity|].
    exists out, mx. auto.
Defined.

(** On the array [1, 3] the 1e-8 is lost in the rounding of the divisor and
    the maximum of the result is 1; on an array that holds an infinity the
    result holds NaN, and so does the result when the range overflows. *)
Example normalize_1_3 (p : Promotion) :
  normalize p [Float.Fin 1; Float.Fin 3]
  = Ok [Float.Fin 0; Float.Fin (8388608 # 8388608)].
Proof. destruct p; vm_compute; reflexivity. Qed.

Example normalize_infinity (p : Promotion) :
  normalize p [Float.PInf; Float.PInf] = Ok [Float.NaN; Float.NaN].
Proof. destruct p; vm_compute; reflexivity. Qed.

Example normalize_overflow (p : Promotion) :
  normalize p [Float.Fin (- (2 ^ 127)); Float.Fin 0; Float.Fin (2 ^ 127)]
  = Ok [Float.Fin 0; Float.Fin 0; Float.NaN].
Proof. destruct p; vm_compute; reflexivity. Qed.

Lemma narrow_range_array_finite : finite_array narrow_range_array.
Proof.
  unfold finite_array, narrow_range_array.
  constructor; [reflexivity|]. apply Forall_replicate. reflexivity.
Qed.

Lemma narrow_range_array_binary32 : binary32_array narrow_range_array.
Proof.
  unfold binary32_array, narrow_range_array. constructor.
  - exists 0. split; [reflexivity|]. exists 0%Z, 0%Z.
    split; [cbn; lia|]. split; [cbn; lia | reflexivity].
  - apply Forall_replicate. exists (11258999 # 1125899906842624).
    split; [vm_compute; reflexivity|]. exists 11258999%Z, (-50)%Z.
    split; [cbn; lia|]. split; [cbn; lia | reflexivity].
Qed.

(** On the narrow array the maximum of the normalized array is 1/2. *)
Lemma narrow_range_array_normalized (p : Promotion) :
  exists out mx,
    normalize p narrow_range_array = Ok out /\
    Np.max out = Ok (Float.Fin mx) /\ mx == 1 # 2.
Proof.
  destruct (finite_array_Fin _ narrow_range_array_finite) as [qs Hqs].
  assert (Hne : qs <> []) by (intros ->; discriminate Hqs).
  destruct (Np_min_Fin qs Hne) as (lo & Hmin & Hlo_in & Hlo).
  destruct (Np_max_Fin qs Hne) as (hi & Hmax & Hhi_in & Hhi).
  assert (Hbounds : forall y, y ∈ qs -> lo <= y <= hi) by (intros y Hy; split; auto).
  assert (Elo : lo = 0).
  { rewrite <- Hqs in Hmin. vm_compute in Hmin. congruence. }
  assert (Ehi : hi = 11258999 # 1125899906842624).
  { rewrite <- Hqs in Hmax. vm_compute in Hmax. congruence. }
  subst lo hi.
  destruct (normalize_extremes p qs _ _ (11258999 # 1125899906842624)
              Hmin Hmax Hlo_in Hhi_in Hbounds)
    as (d & mn & mx & Hden & _ & _ & Hn & _ & _ & _ & Hmx & Emx & _);
    [vm_compute; reflexivity|].
  rewrite Hqs. eexists _, mx. split; [exact Hn|]. split; [exact Hmx|].
  rewrite Emx.
  destruct p; vm_compute in Hden; injection Hden as <-; vm_compute; reflexivity.
Qed.

(** C4, as the claim has it, fails: on an array of binary32 numbers of the
    target shape with one element at 0 and the others at 1e-8, which is
    not constant, the maximum of the normalized array is 1/2, not within
    0.49 of 1. *)
Lemma normalize_narrow_range :
  length narrow_range_array = (64 * 108)%nat /\
  binary32_array narrow_range_array /\
  finite_array narrow_range_array /\
  ~ constant narrow_range_array /\
  forall p,
    (exists out mx,
        normalize p narrow_range_array = Ok out /\
        Np.max out = Ok (Float.Fin mx) /\ mx == 1 # 2) /\
    ~ unit_range_within (49 # 100) p narrow_range_array.
Proof.
  split; [reflexivity|]. split; [exact narrow_range_array_binary32|].
  split; [exact narrow_range_array_finite|]. split.
  - intros Hc.
    assert (H0 : Float.Fin 0 ∈ narrow_range_array) by left.
    assert (H1 : Float.convert Float.binary32 EPSILON ∈ narrow_range_array)
      by (right; left).
    specialize (Hc _ _ H1 H0). vm_compute in Hc. discriminate Hc.
  - intros p. pose proof (narrow_range_array_normalized p) as H.
    split; [exact H|].
    destruct H as (out & m & Hn & Hmx & Hm).
    intros (out' & mn & mx & Hn' & _ & Hmx' & _ & (r & -> & Hap)).
    assert (out' = out) as -> by congruence.
    assert (r = m) as -> by congruence.
    apply Qabs_Qle_condition in Hap. lra.
Qed.

(** *** Aggregation *)

Lemma inject_Z_nat_nonneg (n : nat) : 0 <= inject_Z (Z.of_nat n).
Proof. change 0 with (inject_Z 0). rewrite <- Zle_Qle. lia. Qed.

Lemma inject_Z_S (n : nat) : inject_Z (Z.of_nat (S n)) == inject_Z (Z.of_nat n) + 1.
Proof.
  rewrite Nat2Z.inj_succ. unfold Z.succ. rewrite inject_Z_plus. reflexivity.
Qed.

(** The count of rows, as the divisor of the sums. *)
Lemma count_exact (p : Promotion) (n : nat) :
  (Z.of_nat n <= 2 ^ 24)%Z -> Np.count p n == inject_Z (Z.of_nat n).
Proof.
  intros Hn. destruct p; unfold Np.count.
  - apply round_fin_Z; [exact prec32 | cbn; lia | cbn; lia].
  - apply round_fin_Z; [exact prec64 | cbn; lia | cbn; lia].
Qed.

(** The division of the mean, when the quotient is a binary32 number. *)
Lemma true_divide_exact (p : Promotion) (s n a : Q) :
  0 <= a -> 0 < n -> s == n * a -> representable Float.binary32 a ->
  Np.true_divide p s n == a.
Proof.
  intros Ha Hn Hs Hrep.
  assert (Hq : s / n == a) by (rewrite Hs; field; lra).
  assert (Hq0 : 0 <= s / n) by lra.
  destruct p; unfold Np.true_divide.
  - rewrite (round_fin_proper _ prec32 _ _ Hq0 Hq). exact Hrep.
  - assert (Hrep64 : representable Float.binary64 a).
    { apply (representable_embed Float.binary32 Float.binary64);
        [exact prec32 | cbn; lia | cbn; lia | exact Ha | exact Hrep]. }
    assert (E : Float.round_fin Float.binary64 (s / n) == a).
    { rewrite (round_fin_proper _ prec64 _ _ Hq0 Hq). exact Hrep64. }
    assert (E0 : 0 <= Float.round_fin Float.binary64 (s / n)) by lra.
    rewrite (round_fin_proper _ prec32 _ _ E0 E). exact Hrep.
Qed.

Lemma zip_with_add32_exact (m : nat) (acc v : list Q) :
  Forall2 (fun s a => s == inject_Z (Z.of_nat m) * a) acc v ->
  Forall (fun a => 0 <= a /\
            representable Float.binary32 (inject_Z (Z.of_nat (S m)) * a)) v ->
  Forall2 (fun s a => s == inject_Z (Z.of_nat (S m)) * a)
          (zip_with Np.add32 acc v) v.
Proof.
  induction 1 as [|s a acc v Hs _ IH]; intros Hv; simpl; constructor.
  - apply Forall_cons in Hv as [[Ha Hrep] _].
    pose proof (inject_Z_nat_nonneg m) as Hm.
    assert (E : s + a == inject_Z (Z.of_nat (S m)) * a)
      by (rewrite Hs, inject_Z_S; ring).
    assert (E0 : 0 <= s + a).
    { rewrite Hs. assert (0 <= inject_Z (Z.of_nat m) * a)
        by (apply Qmult_le_0_compat; assumption). lra. }
    unfold Np.add32. rewrite (round_fin_proper _ prec32 _ _ E0 E). exact Hrep.
  - apply IH. apply Forall_cons in Hv as [_ Hv]. exact Hv.
Qed.

Lemma foldl_add32_replicate (k m : nat) (acc v : list Q) :
  Forall2 (fun s a => s == inject_Z (Z.of_nat m) * a) acc v ->
  Forall (exact_multiples (m + k)) v ->
  Forall2 (fun s a => s == inject_Z (Z.of_nat (m + k)) * a)
          (foldl (zip_with Np.add32) acc (replicate k v)) v.
Proof.
  revert m acc. induction k as [|k IH]; intros m acc Hacc Hv; simpl.
  - rewrite Nat.add_0_r. exact Hacc.
  - replace (m + S k)%nat with (S m + k)%nat in * by lia.
    apply IH; [|exact Hv]. apply zip_with_add32_exact; [exact Hacc|].
    eapply Forall_impl; [exact Hv|]. intros a [Ha Hrep]. split; [exact Ha|].
    apply is_number_representable; [exact prec32 | | apply Hrep; lia].
    apply Qmult_le_0_compat; [apply inject_Z_nat_nonneg | exact Ha].
Qed.

Lemma mean_axis0_replicate (p : Promotion) (n : nat) (v : list Q) :
  (0 < n)%nat -> (Z.of_nat n <= 2 ^ 24)%Z -> Forall (exact_multiples n) v ->
  Forall2 Qeq (Np.mean_axis0 p (replicate n v)) v.
Proof.
  destruct n as [|k]; [lia|]. intros _ Hn Hv.
  change (replicate (S k) v) with (v :: replicate k v).
  unfold Np.mean_axis0, mean_axis0_with.
  change (length (v :: replicate k v)) with (S (length (replicate k v))).
  rewrite length_replicate.
  assert (Hsum : Forall2 (fun s a => s == inject_Z (Z.of_nat (1 + k)) * a)
                   (foldl (zip_with Np.add32) v (replicate k v)) v).
  { apply foldl_add32_replicate; [|exact Hv].
    clear. induction v; constructor; [|assumption].
    change (inject_Z (Z.of_nat 1)) with 1. ring. }
  change (1 + k)%nat with (S k) in Hsum.
  pose proof (count_exact p (S k) Hn) as Hcount.
  assert (Hpos : 0 < Np.count p (S k)).
  { rewrite Hcount. change 0 with (inject_Z 0). rewrite <- Zlt_Qlt. lia. }
  set (N := Np.count p (S k)) in *. clearbody N.
  induction Hsum as [|s a sums v' Hs _ IH]; simpl; constructor.
  - apply Forall_cons in Hv as [[Ha Hrep] _].
    apply true_divide_exact; [exact Ha | exact Hpos | rewrite Hs, Hcount; reflexivity|].
    specialize (Hrep 1%nat ltac:(lia)).
    assert (E : inject_Z (Z.of_nat 1) * a == a)
      by (change (inject_Z (Z.of_nat 1)) with 1; ring).
    assert (E0 : 0 <= inject_Z (Z.of_nat 1) * a) by lra.
    apply is_number_representable in Hrep; [|exact prec32 | exact E0].
    unfold representable in *.
    rewrite <- (round_fin_proper _ prec32 _ _ E0 E). rewrite Hrep. exact E.
  - apply IH. apply Forall_cons in Hv as [_ Hv]. exact Hv.
Qed.

Lemma argmax_go_spec (t pre : list Q) (best_i : nat) (best : Q) :
  pre !! best_i = Some best ->
  (forall j y, pre !! j = Some y -> y <= best) ->
  (forall j y, pre !! j = Some y -> y == best -> (best_i <= j)%nat) ->
  exists m,
    (pre ++ t) !! Np.argmax_go best_i best (length pre) t = Some m /\
    (forall j y, (pre ++ t) !! j = Some y -> y <= m) /\
    (forall j y, (pre ++ t) !! j = Some y -> y == m ->
                 (Np.argmax_go best_i best (length pre) t <= j)%nat).
Proof.
  revert pre best_i best.
  induction t as [|x t IH]; intros pre best_i best Hbest Hmax Hfirst; simpl.
  - rewrite app_nil_r. eauto.
  - pose proof (lookup_lt_Some _ _ _ Hbest) as Hlt.
    replace (pre ++ x :: t) with ((pre ++ [x]) ++ t)
      by (rewrite <- app_assoc; reflexivity).
    replace (S (length pre)) with (length (pre ++ [x]))
      by (rewrite length_app; simpl; lia).
    destruct (Qcompare_spec best x) as [Heq | Hless | Hgreater].
    + apply IH.
      * rewrite lookup_app_l by exact Hlt. exact Hbest.
      * intros j y [Hj | [_ Hj]]%lookup_app_Some; [eauto|].
        apply list_lookup_singleton_Some in Hj as [_ <-]. lra.
      * intros j y [Hj | [Hj _]]%lookup_app_Some; [eauto | lia].
    + apply IH.
      * rewrite lookup_app_r by lia. rewrite Nat.sub_diag. reflexivity.
      * intros j y [Hj | [_ Hj]]%lookup_app_Some.
        -- specialize (Hmax _ _ Hj). lra.
        -- apply list_lookup_singleton_Some in Hj as [_ <-]. lra.
      * intros j y [Hj | [Hj _]]%lookup_app_Some Hy; [|exact Hj].
        specialize (Hmax _ _ Hj). lra.
    + apply IH.
      * rewrite lookup_app_l by exact Hlt. exact Hbest.
      * intros j y [Hj | [_ Hj]]%lookup_app_Some; [eauto|].
        apply list_lookup_singleton_Some in Hj as [_ <-]. lra.
      * intros j y [Hj | [Hj _]]%lookup_app_Some; [eauto | lia].
Qed.

Lemma argmax_spec (v : list Q) (i : nat) :
  Np.argmax v = Ok i ->
  exists m,
    v !! i = Some m /\
    (forall j y, v !! j = Some y -> y <= m) /\
    (forall j y, v !! j = Some y -> y == m -> (i <= j)%nat).
Proof.
  destruct v as [|x t]; simpl; [discriminate|]. intros [= <-].
  apply (argmax_go_spec t [x] 0 x).
  - reflexivity.
  - intros j y [_ <-]%list_lookup_singleton_Some. lra.
  - intros. lia.
Qed.

(** *** The rounding error of the mean *)

Lemma ilog2_ge_1 (B : Q) : 1 <= B -> (0 <= Float.ilog2 B)%Z.
Proof.
  intros HB.
  assert (Float.ilog2 1 <= Float.ilog2 B)%Z by (apply ilog2_mono; [reflexivity | exact HB]).
  assert (Float.ilog2 1 = 0%Z) by reflexivity. lia.
Qed.

(** A binary32 sum of at most [B] is within [B * 2 ^ -24] of the sum. *)
Lemma add32_near (s q B : Q) :
  0 <= s + q -> s + q <= B -> 1 <= B ->
  s + q - B * (1 # 16777216) <= Np.add32 s q /\
  Np.add32 s q <= s + q + B * (1 # 16777216).
Proof.
  intros H0 HB H1. unfold Np.add32.
  destruct (round_fin_near Float.binary32 (s + q) B H0 HB) as [Hlo Hhi];
    [lra | pose proof (ilog2_ge_1 B H1); cbn; lia|].
  assert (P : Float.pow2 (1 - Float.prec Float.binary32) == 1 # 8388608)
    by reflexivity.
  rewrite P in Hlo, Hhi. split; lra.
Qed.

(** The quotient of the mean, for a sum [s] between 0 and the count [n]:
    it is within [2 ^ -23] of [s / n]. *)
Lemma true_divide_near (p : Promotion) (s n : Q) :
  0 <= s <= n -> 0 < n ->
  s / n - (1 # 8388608) <= Np.true_divide p s n /\
  Np.true_divide p s n <= s / n + (1 # 8388608).
Proof.
  intros [Hs0 Hsn] Hn.
  assert (Hq0 : 0 <= s / n) by (apply Qle_shift_div_l; lra).
  assert (Hq1 : s / n <= 1) by (apply Qle_shift_div_r; lra).
  assert (P32 : Float.pow2 (1 - Float.prec Float.binary32) == 1 # 8388608)
    by reflexivity.
  assert (P64 : Float.pow2 (1 - Float.prec Float.binary64) == 1 # 4503599627370496)
    by reflexivity.
  assert (L32 : (Float.emin Float.binary32 <= Float.ilog2 1)%Z) by (vm_compute; discriminate).
  assert (L64 : (Float.emin Float.binary64 <= Float.ilog2 1)%Z) by (vm_compute; discriminate).
  destruct p; unfold Np.true_divide.
  - destruct (round_fin_near Float.binary32 (s / n) 1 Hq0 Hq1) as [Hlo Hhi];
      [reflexivity | exact L32|].
    rewrite P32 in Hlo, Hhi. split; lra.
  - set (z := Float.round_fin Float.binary64 (s / n)).
    destruct (round_fin_near Float.binary64 (s / n) 1 Hq0 Hq1) as [Hlo Hhi];
      [reflexivity | exact L64|].
    fold z in Hlo, Hhi. rewrite P64 in Hlo, Hhi.
    assert (Hz0 : 0 <= z) by (apply round_fin_nonneg; exact Hq0).
    assert (Hz1 : z <= 1).
    { assert (H64 : Float.round_fin Float.binary64 1 == 1) by (vm_compute; reflexivity).
      rewrite <- H64. apply round_fin_mono; [exact prec64 | exact Hq0 | exact Hq1]. }
    destruct (round_fin_near Float.binary32 z 1 Hz0 Hz1) as [Hlo' Hhi'];
      [reflexivity | exact L32|].
    rewrite P32 in Hlo', Hhi'. split; lra.
Qed.

(** After [k] of at most [n <= 2 ^ 24] rows of probabilities every sum lies
    between 0 and [k] and within [k * n * 2 ^ -24] of the exact sum. *)
Lemma zip_with_add32_error (n k : nat) (acc v : list Q) :
  (S k <= n)%nat -> (Z.of_nat n <= 2 ^ 24)%Z ->
  Forall unit_interval v ->
  Forall2 (fun s q =>
             0 <= s <= inject_Z (Z.of_nat k) /\
             Qabs (s - inject_Z (Z.of_nat k) * q)
             <= inject_Z (Z.of_nat k) * (inject_Z (Z.of_nat n) * (1 # 16777216)))
          acc v ->
  Forall2 (fun s q =>
             0 <= s <= inject_Z (Z.of_nat (S k)) /\
             Qabs (s - inject_Z (Z.of_nat (S k)) * q)
             <= inject_Z (Z.of_nat (S k)) * (inject_Z (Z.of_nat n) * (1 # 16777216)))
          (zip_with Np.add32 acc v) v.
Proof.
  intros Hk Hn Hv Hacc.
  assert (HB : inject_Z (Z.of_nat (S k)) <= inject_Z (Z.of_nat n))
    by (rewrite <- Zle_Qle; lia).
  assert (HB1 : 1 <= inject_Z (Z.of_nat n))
    by (change 1 with (inject_Z 1); rewrite <- Zle_Qle; lia).
  pose proof (inject_Z_nat_nonneg k) as Hk0.
  induction Hacc as [|s q acc v [[Hs0 Hsk] Herr] _ IH]; cbn [zip_with];
    constructor.
  - apply Forall_cons in Hv as [[Hq0 Hq1] _].
    pose proof (inject_Z_S k) as ES.
    destruct (add32_near s q (inject_Z (Z.of_nat n))) as [Hlo Hhi]; [lra | lra | lra|].
    apply Qabs_Qle_condition in Herr. split.
    + split.
      * unfold Np.add32. apply round_fin_nonneg. lra.
      * unfold Np.add32.
        rewrite <- (round_fin_Z Float.binary32 prec32 (Z.of_nat (S k)));
          [|change (Float.prec Float.binary32) with 24%Z; lia | cbn; lia].
        apply round_fin_mono; [exact prec32 | lra|]. lra.
    + apply Qabs_Qle_condition.
      set (d := inject_Z (Z.of_nat n) * (1 # 16777216)) in *.
      assert (E1 : inject_Z (Z.of_nat (S k)) * q
                   == inject_Z (Z.of_nat k) * q + q) by (rewrite ES; ring).
      assert (E2 : inject_Z (Z.of_nat (S k)) * d
                   == inject_Z (Z.of_nat k) * d + d) by (rewrite ES; ring).
      lra.
  - apply IH. apply Forall_cons in Hv as [_ Hv]. exact Hv.
Qed.

Lemma foldl_add32_error (n j k : nat) (acc v : list Q) :
  (k + j <= n)%nat -> (Z.of_nat n <= 2 ^ 24)%Z ->
  Forall unit_interval v ->
  Forall2 (fun s q =>
             0 <= s <= inject_Z (Z.of_nat k) /\
             Qabs (s - inject_Z (Z.of_nat k) * q)
             <= inject_Z (Z.of_nat k) * (inject_Z (Z.of_nat n) * (1 # 16777216)))
          acc v ->
  Forall2 (fun s q =>
             0 <= s <= inject_Z (Z.of_nat (k + j)) /\
             Qabs (s - inject_Z (Z.of_nat (k + j)) * q)
             <= inject_Z (Z.of_nat (k + j)) * (inject_Z (Z.of_nat n) * (1 # 16777216)))
          (foldl (zip_with Np.add32) acc (replicate j v)) v.
Proof.
  revert k acc. induction j as [|j IH]; intros k acc Hkj Hn Hv Hacc; simpl.
  - rewrite Nat.add_0_r. exact Hacc.
  - replace (k + S j)%nat with (S k + j)%nat in * by lia.
    apply IH; [lia | exact Hn | exact Hv|].
    apply zip_with_add32_error; [lia | exact Hn | exact Hv | exact Hacc].
Qed.

(** The mean over [n] copies of a vector of probabilities is within
    [(n + 2) * 2 ^ -24] of the vector. *)
Lemma mean_axis0_replicate_near (p : Promotion) (n : nat) (v : list Q) :
  (0 < n)%nat -> (Z.of_nat n <= 2 ^ 24)%Z -> Forall unit_interval v ->
  Forall2 (fun m q => Qabs (m - q) <= inject_Z (Z.of_nat n + 2) * (1 # 16777216))
          (Np.mean_axis0 p (replicate n v)) v.
Proof.
  destruct n as [|k]; [lia|]. intros _ Hn Hv.
  change (replicate (S k) v) with (v :: replicate k v).
  unfold Np.mean_axis0, mean_axis0_with.
  change (length (v :: replicate k v)) with (S (length (replicate k v))).
  rewrite length_replicate.
  pose proof (foldl_add32_error (S k) k 1 v v ltac:(lia) Hn Hv) as Hsum.
  change (1 + k)%nat with (S k) in Hsum.
  assert (Hinit : Forall2 (fun s q =>
             0 <= s <= inject_Z (Z.of_nat 1) /\
             Qabs (s - inject_Z (Z.of_nat 1) * q)
             <= inject_Z (Z.of_nat 1) * (inject_Z (Z.of_nat (S k)) * (1 # 16777216)))
             v v).
  { clear Hsum. induction Hv as [|q v [Hq0 Hq1] _ IH]; constructor; [|exact IH].
    change (inject_Z (Z.of_nat 1)) with 1. split; [lra|].
    apply Qabs_Qle_condition.
    pose proof (inject_Z_nat_nonneg (S k)).
    assert (E : q - 1 * q == 0) by ring. rewrite E. lra. }
  specialize (Hsum Hinit). clear Hinit.
  pose proof (count_exact p (S k) Hn) as Hcount.
  assert (Hpos : 0 < inject_Z (Z.of_nat (S k)))
    by (change 0 with (inject_Z 0); rewrite <- Zlt_Qlt; lia).
  set (N := Np.count p (S k)) in *. clearbody N.
  set (B := inject_Z (Z.of_nat (S k))) in *.
  assert (EB : inject_Z (Z.of_nat (S k) + 2) == B + 2)
    by (rewrite inject_Z_plus; reflexivity).
  induction Hsum as [|s q sums v' [[Hs0 Hsn] Herr] _ IH];
    cbn [fmap list_fmap]; constructor.
  - apply Qabs_Qle_condition in Herr. apply Qabs_Qle_condition. rewrite EB.
    destruct (true_divide_near p s N) as [Hlo Hhi]; [rewrite Hcount; lra | lra|].
    assert (Hz : s / N == s / B) by (rewrite Hcount; reflexivity).
    rewrite Hz in Hlo, Hhi.
    set (z := s / B) in *.
    assert (Ez : z * B == s) by (unfold z; field; lra).
    assert (Hzq : q - B * (1 # 16777216) <= z /\ z <= q + B * (1 # 16777216)).
    { split.
      - apply Qle_shift_div_l; [exact Hpos|].
        assert (E : (q - B * (1 # 16777216)) * B
                    == B * q - B * (B * (1 # 16777216))) by ring.
        rewrite E. lra.
      - apply Qle_shift_div_r; [exact Hpos|].
        assert (E : (q + B * (1 # 16777216)) * B
                    == B * q + B * (B * (1 # 16777216))) by ring.
        rewrite E. lra. }
    lra.
  - apply IH. apply Forall_cons in Hv as [_ Hv]. exact Hv.
Qed.

(** C5, in the binary32 arithmetic of the array.  The mean over [n >= 1]
    copies of one vector of probabilities is that vector when no sum is
    rounded: the count [n] is at most [2 ^ 24], no entry is negative and
    the multiples [q], [2 q], ..., [n q] of every entry [q] are binary32
    numbers.  The index
    chosen by arg-max holds a maximal entry and is the lowest index that
    does; arg-max answers on every vector that is not empty. *)
Theorem aggregation_spec (p : Promotion) (v : list Q) (n : nat) :
  (0 < n)%nat ->
  ((Z.of_nat n <= 2 ^ 24)%Z -> Forall (exact_multiples n) v ->
   Forall2 Qeq (Np.mean_axis0 p (replicate n v)) v) /\
  (v <> [] -> exists i, Np.argmax v = Ok i) /\
  (forall i, Np.argmax v = Ok i ->
     exists m,
       v !! i = Some m /\
       (forall j y, v !! j = Some y -> y <= m) /\
       (forall j y, v !! j = Some y -> y == m -> (i <= j)%nat)).
Proof.
  intros Hn. split; [apply mean_axis0_replicate, Hn|]. split.
  - destruct v; [congruence | simpl; eauto].
  - apply argmax_spec.
Qed.

(** Multiples of a power of two whose sums keep to 24 bits. *)
Lemma exact_multiples_dyadic (n : nat) (q : Q) (m e : Z) :
  q == inject_Z m * Float.pow2 e ->
  (0 <= m)%Z -> (Z.of_nat n * m <= 2 ^ 24)%Z -> (-149 <= e)%Z ->
  exact_multiples n q.
Proof.
  intros E Hm Hnm He. split.
  - rewrite E. apply Qmult_le_0_compat; [|apply Qlt_le_weak, pow2_pos].
    change 0 with (inject_Z 0). rewrite <- Zle_Qle. exact Hm.
  - intros k Hk. exists (Z.of_nat k * m)%Z, e.
    split; [|split; [cbn; lia|]].
    + change (Float.prec Float.binary32) with 24%Z. nia.
    + rewrite E, inject_Z_mult. ring.
Qed.

Lemma aggregation_spec_witness :
  Forall2 Qeq
    (Np.mean_axis0 Weak (replicate 3 [1 # 8; 3 # 8; 3 # 8; 1 # 8]))
    [1 # 8; 3 # 8; 3 # 8; 1 # 8] /\
  Np.argmax [1 # 8; 3 # 8; 3 # 8; 1 # 8] = Ok 1%nat.
Proof.
  split.
  - apply (aggregation_spec Weak [1 # 8; 3 # 8; 3 # 8; 1 # 8] 3); [lia | cbn; lia|].
    repeat apply Forall_cons_2;
      [apply (exact_multiples_dyadic 3 _ 1 (-3))
      |apply (exact_multiples_dyadic 3 _ 3 (-3))
      |apply (exact_multiples_dyadic 3 _ 3 (-3))
      |apply (exact_multiples_dyadic 3 _ 1 (-3))
      |apply Forall_nil_2];
      first [reflexivity | cbn; lia].
  - reflexivity.
Defined.

(** C5, as the claim has it, fails: the mean over seven copies of the
    binary32 numbers nearest to (0.1, 0.7, 0.1, 0.1) is not that vector,
    under either promotion rule; the entries come out one unit in the last
    place off. *)
Lemma mean_of_copies_binary32 :
  let v := [13421773 # 134217728; 11744051 # 16777216;
            13421773 # 134217728; 13421773 # 134217728] in
  Forall (is_number Float.binary32) v /\
  forall p,
    Forall2 Qeq (Np.mean_axis0 p (replicate 7 v))
      [13421774 # 134217728; 11744050 # 16777216;
       13421774 # 134217728; 13421774 # 134217728] /\
    ~ Forall2 Qeq (Np.mean_axis0 p (replicate 7 v)) v.
Proof.
  split.
  - repeat apply Forall_cons_2; [| | | |constructor];
      [exists 13421773%Z, (-27)%Z | exists 11744051%Z, (-24)%Z
      |exists 13421773%Z, (-27)%Z | exists 13421773%Z, (-27)%Z];
      (split; [cbn; lia|]); (split; [cbn; lia|]); reflexivity.
  - intros p. split.
    + destruct p; repeat constructor; vm_compute; reflexivity.
    + intros H. apply Forall2_cons_1 in H as [H _].
      destruct p; vm_compute in H; discriminate H.
Qed.


(** *** Agreement with the Standard Library's IEEE 754 *)

Example binary32_add_agrees :
  agree F32.add (Float.add Float.binary32) = true.
Proof. vm_compute. reflexivity. Qed.

Example binary32_sub_agrees :
  agree F32.sub (Float.sub Float.binary32) = true.
Proof. vm_compute. reflexivity. Qed.

Example binary32_div_agrees :
  agree F32.div (Float.div Float.binary32) = true.
Proof. vm_compute. reflexivity. Qed.

(** The mean over seven copies of (0.1, 0.7, 0.1, 0.1), computed with the
    Standard Library's operations and with [Np.mean_axis0] under the rule
    of NumPy 1, which divides in binary32 as well. *)
Example mean_axis0_agrees :
  let xs := [F32.tenth; F32.seven_tenths; F32.tenth; F32.tenth] in
  let qs := [13421773 # 134217728; 11744051 # 16777216;
             13421773 # 134217728; 13421773 # 134217728] in
  same_vector xs qs = true /\
  same_vector (F32.mean_axis0 (replicate 7 xs))
              (Np.mean_axis0 Legacy (replicate 7 qs)) = true.
Proof. vm_compute. auto. Qed.


End Arrays.


(** ** The handler *)

Section HandlerProperties.

Variable E : Env.

Local Open Scope list_scope.

Lemma bind_Ok_inv {A B} (m : M A) (f : A -> M B) (w w' : World) (b : B) :
  (m ≫= f) w = (w', Ok b) ->
  exists a w1, m w = (w1, Ok a) /\ f a w1 = (w', Ok b).
Proof.
  unfold mbind, M_bind. destruct (m w) as [w1 [a | e]]; [eauto | discriminate].
Qed.

(** The handler on a request that passes the three checks. *)
Lemma predict_accepted (request : Request) (file : FileStorage) (w : World) :
  files request !! "file" = Some file ->
  filename file <> "" ->
  allowed_file (filename file) = Ok true ->
  predict E request w =
  let path := upload_path E file in
  let saved := trace w ++ [EvSave path] in
  match FileStorage_save E (disk w) path (stream file) with
  | (d1, Raise e) => (mkWorld d1 saved, Raise e)
  | (d1, Ok _) =>
      match predict_file E path (mkWorld d1 saved) with
      | (w2, Raise e) => (w2, Ok (inference_failed e))
      | (w2, Ok (probs, pred_idx)) =>
          let w3 := mkWorld (disk w2) (trace w2 ++ [EvRemove path]) in
          match os_remove E (disk w2) path with
          | (d3, Raise e) => (mkWorld d3 (trace w3), Ok (inference_failed e))
          | (d3, Ok _) =>
              (mkWorld d3 (trace w3),
               Ok (mkResponse 200 (prediction_body probs pred_idx)))
          end
      end
  end.
Proof.
  intros Hfile Hname Hok. unfold predict. rewrite Hfile.
  apply String.eqb_neq in Hname. rewrite Hname.
  unfold FileStorage_bool. rewrite Hname. simpl negb. cbv iota.
  unfold lift at 1. unfold mbind at 1, M_bind at 1. rewrite Hok.
  fold (upload_path E file).
  unfold call_save, call_remove, try_except, os_call, log, mbind, M_bind,
    mret, M_ret, inference_failed. simpl.
  destruct (FileStorage_save E (disk w) (upload_path E file) (stream file))
    as [d1 [[] | e]]; [|reflexivity].
  destruct (predict_file E (upload_path E file) _) as [w2 [[probs idx] | e]];
    [|reflexivity].
  simpl. destruct (os_remove E (disk w2) (upload_path E file)) as [d3 [[] | e]];
    reflexivity.
Qed.

Lemma predict_no_file_part (request : Request) (w : World) :
  files request !! "file" = None ->
  predict E request w
  = (w, Ok (mkResponse 400 (error_body "No file part in the request"))).
Proof. unfold predict. intros ->. reflexivity. Qed.

Lemma predict_no_selected_file (request : Request) (file : FileStorage) (w : World) :
  files request !! "file" = Some file ->
  filename file = "" ->
  predict E request w
  = (w, Ok (mkResponse 400 (error_body "No selected file"))).
Proof. unfold predict. intros -> ->. reflexivity. Qed.

Lemma predict_unsupported_extension
    (request : Request) (file : FileStorage) (w : World) :
  files request !! "file" = Some file ->
  filename file <> "" ->
  allowed_file (filename file) = Ok false ->
  predict E request w
  = (w, Ok (mkResponse 400 (error_body "Unsupported file extension"))).
Proof.
  unfold predict. intros -> Hname%String.eqb_neq Hno. rewrite Hname.
  unfold FileStorage_bool. rewrite Hname. simpl negb. cbv iota.
  unfold lift, mbind, M_bind. rewrite Hno. reflexivity.
Qed.

(** C3.  The three validation errors, in the order of the checks: no
    [file] field; a [file] field with an empty file name; a file name
    that is not empty and that [allowed_file] rejects.  Each is answered
    with status 400 and its own message. *)
Theorem predict_validation_errors (request : Request) (w : World) :
  (files request !! "file" = None ->
   predict E request w
   = (w, Ok (mkResponse 400
               (JObj {[ "error" := JStr "No file part in the request" ]})))) /\
  (forall file,
     files request !! "file" = Some file ->
     filename file = "" ->
     predict E request w
     = (w, Ok (mkResponse 400 (JObj {[ "error" := JStr "No selected file" ]})))) /\
  (forall file,
     files request !! "file" = Some file ->
     filename file <> "" ->
     allowed_file (filename file) = Ok false ->
     predict E request w
     = (w, Ok (mkResponse 400
                 (JObj {[ "error" := JStr "Unsupported file extension" ]})))).
Proof.
  split; [|split].
  - apply predict_no_file_part.
  - intros file. apply predict_no_selected_file.
  - intros file. apply predict_unsupported_extension.
Qed.

(** C8.  A response with status 400 leaves the world as it was: the disk
    is unchanged, so no file was saved, and no call was logged, so no
    pipeline step ran. *)
Theorem predict_400_no_effect (request : Request) (w w' : World) (r : Response) :
  predict E request w = (w', Ok r) ->
  status r = 400%Z ->
  w' = w /\ disk w' = disk w /\ trace w' = trace w.
Proof.
  intros Hrun Hstatus.
  enough (w' = w) as -> by auto.
  destruct (files request !! "file") as [file|] eqn:Hfile.
  - destruct (String.eqb_spec (filename file) "") as [Hname | Hname].
    + rewrite (predict_no_selected_file request file w Hfile Hname) in Hrun. congruence.
    + destruct (allowed_file_total (filename file)) as [Hok | Hno].
      * rewrite (predict_accepted request file w Hfile Hname Hok) in Hrun.
        cbv zeta in Hrun.
        destruct (FileStorage_save _ _ _ _) as [d1 [[] | e]];
          [|discriminate Hrun].
        destruct (predict_file _ _ _) as [w2 [[probs idx] | e]].
        -- destruct (os_remove _ _ _) as [d3 [[] | e]];
             injection Hrun as _ <-; discriminate Hstatus.
        -- injection Hrun as _ <-. discriminate Hstatus.
      * rewrite (predict_unsupported_extension request file w Hfile Hname Hno) in Hrun. congruence.
  - rewrite (predict_no_file_part request w Hfile) in Hrun. congruence.
Qed.

Lemma predict_file_no_segments_run (path : string) (w : World) (audio : Audio E) :
  AudioUtil_open E (disk w) path SAMPLE_RATE true = Ok audio ->
  AudioUtil_split E audio WINDOW_MS OVERLAP_MS = Ok [] ->
  predict_file E path w
  = (mkWorld (disk w) (trace w ++ [EvOpen path; EvSplit]),
     Raise (ValueError "No valid audio segments found.")).
Proof.
  intros Hopen Hsplit.
  unfold predict_file, call_open, call_split, read_call, lift, log, raise,
    mbind, M_bind. simpl.
  rewrite Hopen, Hsplit. rewrite <- app_assoc. reflexivity.
Qed.

(** C6.  When the loaded waveform splits into no segment, [predict_file]
    raises [ValueError("No valid audio segments found.")] after the calls
    to the loader and the windower only, none of them a spectrogram or
    model call, and the handler answers with status 500 and the message
    prefixed by "Inference failed: ". *)
Theorem predict_no_segments :
  (forall path w audio,
     AudioUtil_open E (disk w) path SAMPLE_RATE true = Ok audio ->
     AudioUtil_split E audio WINDOW_MS OVERLAP_MS = Ok [] ->
     exists calls,
       predict_file E path w
       = (mkWorld (disk w) (trace w ++ calls),
          Raise (ValueError "No valid audio segments found.")) /\
       calls = [EvOpen path; EvSplit] /\
       Forall (fun ev => is_inference_call ev = false) calls) /\
  (forall request file w d1 audio,
     files request !! "file" = Some file ->
     filename file <> "" ->
     allowed_file (filename file) = Ok true ->
     FileStorage_save E (disk w) (upload_path E file) (stream file)
     = (d1, Ok tt) ->
     AudioUtil_open E d1 (upload_path E file) SAMPLE_RATE true = Ok audio ->
     AudioUtil_split E audio WINDOW_MS OVERLAP_MS = Ok [] ->
     predict E request w
     = (mkWorld d1 (trace w ++ [EvSave (upload_path E file);
                                EvOpen (upload_path E file); EvSplit]),
        Ok (mkResponse 500
              (JObj {[ "error" :=
                         JStr "Inference failed: No valid audio segments found." ]})))).
Proof.
  split.
  - intros path w audio Hopen Hsplit. exists [EvOpen path; EvSplit].
    split; [apply (predict_file_no_segments_run path w audio Hopen Hsplit)|].
    split; [reflexivity|]. repeat constructor.
  - intros request file w d1 audio Hfile Hname Hok Hsave Hopen Hsplit.
    rewrite (predict_accepted request file w Hfile Hname Hok). cbv zeta.
    rewrite Hsave.
    rewrite (predict_file_no_segments_run _ (mkWorld d1 _) audio Hopen Hsplit).
    simpl. rewrite <- app_assoc. reflexivity.
Qed.

(** C10.  The removal of the upload is inside the [try]: when inference
    returns and [os.remove] raises, the handler answers with status 500
    and "Inference failed: " followed by the message of that exception,
    not with the prediction. *)
Theorem predict_remove_raises
    (request : Request) (file : FileStorage) (w w2 : World)
    (d1 d3 : gmap string string) (probs : list Q) (pred_idx : Z) (e : Exn) :
  files request !! "file" = Some file ->
  filename file <> "" ->
  allowed_file (filename file) = Ok true ->
  FileStorage_save E (disk w) (upload_path E file) (stream file) = (d1, Ok tt) ->
  predict_file E (upload_path E file)
               (mkWorld d1 (trace w ++ [EvSave (upload_path E file)]))
  = (w2, Ok (probs, pred_idx)) ->
  os_remove E (disk w2) (upload_path E file) = (d3, Raise e) ->
  predict E request w
  = (mkWorld d3 (trace w2 ++ [EvRemove (upload_path E file)]),
     Ok (mkResponse 500
           (JObj {[ "error" := JStr ("Inference failed: " +:+ exn_str e) ]}))).
Proof.
  intros Hfile Hname Hok Hsave Hrun Hremove.
  rewrite (predict_accepted request file w Hfile Hname Hok). cbv zeta.
  rewrite Hsave, Hrun, Hremove. reflexivity.
Qed.

(** When inference raises, the handler returns from the [except] clause:
    the world is the one the pipeline left, and no removal is attempted. *)
Lemma predict_inference_raises
    (request : Request) (file : FileStorage) (w w2 : World)
    (d1 : gmap string string) (e : Exn) :
  files request !! "file" = Some file ->
  filename file <> "" ->
  allowed_file (filename file) = Ok true ->
  FileStorage_save E (disk w) (upload_path E file) (stream file) = (d1, Ok tt) ->
  predict_file E (upload_path E file)
               (mkWorld d1 (trace w ++ [EvSave (upload_path E file)]))
  = (w2, Raise e) ->
  predict E request w = (w2, Ok (inference_failed e)).
Proof.
  intros Hfile Hname Hok Hsave Hrun.
  rewrite (predict_accepted request file w Hfile Hname Hok). cbv zeta.
  rewrite Hsave, Hrun. reflexivity.
Qed.

(** When inference returns and the removal succeeds, the response is the
    prediction and the disk is the one [os.remove] left. *)
Lemma predict_success
    (request : Request) (file : FileStorage) (w w2 : World)
    (d1 d3 : gmap string string) (probs : list Q) (pred_idx : Z) :
  files request !! "file" = Some file ->
  filename file <> "" ->
  allowed_file (filename file) = Ok true ->
  FileStorage_save E (disk w) (upload_path E file) (stream file) = (d1, Ok tt) ->
  predict_file E (upload_path E file)
               (mkWorld d1 (trace w ++ [EvSave (upload_path E file)]))
  = (w2, Ok (probs, pred_idx)) ->
  os_remove E (disk w2) (upload_path E file) = (d3, Ok tt) ->
  predict E request w
  = (mkWorld d3 (trace w2 ++ [EvRemove (upload_path E file)]),
     Ok (mkResponse 200 (prediction_body probs pred_idx))).
Proof.
  intros Hfile Hname Hok Hsave Hrun Hremove.
  rewrite (predict_accepted request file w Hfile Hname Hok). cbv zeta.
  rewrite Hsave, Hrun, Hremove. reflexivity.
Qed.

(** On that path the upload is gone once the handler returns, provided
    [os.remove] does what it says. *)
Lemma upload_removed_on_success
    (request : Request) (file : FileStorage) (w w2 : World)
    (d1 d3 : gmap string string) (probs : list Q) (pred_idx : Z) :
  files request !! "file" = Some file ->
  filename file <> "" ->
  allowed_file (filename file) = Ok true ->
  FileStorage_save E (disk w) (upload_path E file) (stream file) = (d1, Ok tt) ->
  predict_file E (upload_path E file)
               (mkWorld d1 (trace w ++ [EvSave (upload_path E file)]))
  = (w2, Ok (probs, pred_idx)) ->
  os_remove E (disk w2) (upload_path E file) = (d3, Ok tt) ->
  d3 !! upload_path E file = None ->
  ~ exists_on_disk (upload_path E file) (fst (predict E request w)).
Proof.
  intros Hfile Hname Hok Hsave Hrun Hremove Hgone.
  rewrite (predict_success request file w w2 d1 d3 probs pred_idx) by assumption.
  unfold exists_on_disk. simpl. rewrite Hgone. apply is_Some_None.
Qed.

(** Every response with status 200 comes from that path. *)
Lemma predict_200_inv (request : Request) (w w' : World) (r : Response) :
  predict E request w = (w', Ok r) ->
  status r = 200%Z ->
  exists file d1 w2 probs pred_idx,
    files request !! "file" = Some file /\
    allowed_file (filename file) = Ok true /\
    predict_file E (upload_path E file)
                 (mkWorld d1 (trace w ++ [EvSave (upload_path E file)]))
    = (w2, Ok (probs, pred_idx)) /\
    os_remove E (disk w2) (upload_path E file) = (disk w', Ok tt) /\
    r = mkResponse 200 (prediction_body probs pred_idx).
Proof.
  intros Hrun Hstatus.
  destruct (files request !! "file") as [file|] eqn:Hfile.
  - destruct (String.eqb_spec (filename file) "") as [Hname | Hname].
    + rewrite (predict_no_selected_file request file w Hfile Hname) in Hrun.
      injection Hrun as _ <-. discriminate Hstatus.
    + destruct (allowed_file_total (filename file)) as [Hok | Hno].
      * rewrite (predict_accepted request file w Hfile Hname Hok) in Hrun.
        cbv zeta in Hrun.
        destruct (FileStorage_save _ _ _ _) as [d1 [[] | e]];
          [|discriminate Hrun].
        destruct (predict_file _ _ _) as [w2 [[probs idx] | e]] eqn:Hpf.
        -- destruct (os_remove _ _ _) as [d3 [[] | e]] eqn:Hrm;
             injection Hrun as <- <-; [|discriminate Hstatus].
           exists file, d1, w2, probs, idx. auto.
        -- injection Hrun as _ <-. discriminate Hstatus.
      * rewrite (predict_unsupported_extension request file w Hfile Hname Hno) in Hrun.
        injection Hrun as _ <-. discriminate Hstatus.
  - rewrite (predict_no_file_part request w Hfile) in Hrun. injection Hrun as _ <-. discriminate Hstatus.
Qed.

(** What [predict_file] returns: the average and its arg-max. *)
Lemma predict_file_Ok (path : string) (w w' : World) (probs : list Q) (pred_idx : Z) :
  predict_file E path w = (w', Ok (probs, pred_idx)) ->
  exists (preds : list (list Q)) (i : nat),
    probs = Np.mean_axis0 (numpy_promotion E) preds /\
    Np.argmax probs = Ok i /\ pred_idx = Z.of_nat i.
Proof.
  unfold predict_file. intros Hrun.
  apply bind_Ok_inv in Hrun as (audio & w1 & _ & Hrun).
  apply bind_Ok_inv in Hrun as (segments & w2 & _ & Hrun).
  destruct segments as [|seg segments]; [discriminate Hrun|].
  apply bind_Ok_inv in Hrun as (specs & w3 & _ & Hrun).
  apply bind_Ok_inv in Hrun as (preds & w4 & _ & Hrun).
  apply bind_Ok_inv in Hrun as (i & w5 & Harg & Hrun).
  unfold lift in Harg. injection Harg as _ Harg.
  unfold mret, M_ret in Hrun. injection Hrun as _ <- <-.
  exists preds, i. auto.
Qed.

End HandlerProperties.

(** ** The response body *)

Section ResponseBody.

Local Open Scope Z_scope.

Lemma class_label_table :
  class_label 0 = "AtlanticCanary" /\
  class_label 1 = "Sooty-headedBulbul" /\
  class_label 2 = "ZebraDove" /\
  class_label 3 = "MoustachedBabbler".
Proof. repeat split. Qed.

Lemma class_label_fallback (i : Z) :
  i < 0 \/ 4 <= i -> class_label i = "Class " +:+ pretty i.
Proof.
  intros Hi. unfold class_label, CLASS_MAP.
  rewrite !lookup_insert_ne by lia.
  rewrite lookup_singleton_ne by lia. reflexivity.
Qed.

Lemma class_label_cases (i : Z) :
  (0 <= i < 4 /\ String.get 0 (class_label i) <> Some "C"%char) \/
  ((i < 0 \/ 4 <= i) /\ class_label i = "Class " +:+ pretty i).
Proof.
  destruct (decide (0 <= i < 4)) as [Hin | Hout].
  - left. split; [exact Hin|].
    assert (i = 0 \/ i = 1 \/ i = 2 \/ i = 3) as [-> | [-> | [-> | ->]]] by lia;
      discriminate.
  - right. split; [lia|]. apply class_label_fallback. lia.
Qed.

Lemma class_label_inj : Inj (=) (=) class_label.
Proof.
  intros i j Heq.
  destruct (class_label_cases i) as [[Hi Hci] | [Hi Hli]],
           (class_label_cases j) as [[Hj Hcj] | [Hj Hlj]].
  - assert (i = 0 \/ i = 1 \/ i = 2 \/ i = 3) as [-> | [-> | [-> | ->]]] by lia;
      assert (j = 0 \/ j = 1 \/ j = 2 \/ j = 3) as [-> | [-> | [-> | ->]]] by lia;
      first [reflexivity | discriminate Heq].
  - exfalso. apply Hci. rewrite Heq, Hlj. reflexivity.
  - exfalso. apply Hcj. rewrite <- Heq, Hli. reflexivity.
  - rewrite Hli, Hlj in Heq. simpl in Heq. injection Heq as Heq.
    exact (inj pretty _ _ Heq).
Qed.

Local Open Scope list_scope.

Lemma store_probabilities_spec (l : list (Z * Q)) (d : gmap string Json) :
  NoDup l.*1 ->
  (forall i, i ∈ l.*1 -> d !! class_label i = None) ->
  let d' := foldl (fun d '(i, p) => <[class_label i := JNum (py_round p 4)]> d) d l in
  size d' = (size d + length l)%nat /\
  (forall i p, (i, p) ∈ l -> d' !! class_label i = Some (JNum (py_round p 4))) /\
  (forall k v, d' !! k = Some v ->
     d !! k = Some v \/
     exists i p, (i, p) ∈ l /\ k = class_label i /\ v = JNum (py_round p 4)) /\
  (forall k, (forall i, i ∈ l.*1 -> k <> class_label i) -> d' !! k = d !! k).
Proof.
  revert d. induction l as [|[i0 p0] l IH]; intros d Hnodup Hfresh; simpl.
  - split; [lia|]. split; [intros i p Hin; inversion Hin|].
    split; [auto | reflexivity].
  - apply NoDup_cons in Hnodup as [Hi0 Hnodup].
    assert (Hd0 : d !! class_label i0 = None) by (apply Hfresh; left).
    destruct (IH (<[class_label i0 := JNum (py_round p0 4)]> d) Hnodup)
      as (Hsize & Hfwd & Hbwd & Hother).
    { intros i Hi. rewrite lookup_insert_ne.
      - apply Hfresh. right. exact Hi.
      - intros Heq%class_label_inj. subst i. contradiction. }
    split; [|split; [|split]].
    + rewrite Hsize, map_size_insert_None by exact Hd0. lia.
    + intros i p [Heq | Hin]%elem_of_cons; [|apply Hfwd, Hin].
      injection Heq as -> ->. rewrite Hother.
      * apply lookup_insert_eq.
      * intros i Hi Heq%class_label_inj. subst i. contradiction.
    + intros k v [Hk | (i & p & Hin & -> & ->)]%Hbwd.
      * apply lookup_insert_Some in Hk as [[<- <-] | [_ Hk]]; [|left; exact Hk].
        right. exists i0, p0. split; [left | auto].
      * right. exists i, p. split; [right; exact Hin | auto].
    + intros k Hk. rewrite Hother.
      * apply lookup_insert_ne. intros Heq. apply (Hk i0); [left | auto].
      * intros i Hi. apply Hk. right. exact Hi.
Qed.

Lemma elem_of_enumerate (probs : list Q) (i : Z) (p : Q) :
  (i, p) ∈ enumerate probs <-> exists j, i = Z.of_nat j /\ probs !! j = Some p.
Proof.
  unfold enumerate. rewrite elem_of_lookup_imap. split.
  - intros (j & q & [= -> ->] & Hj). eauto.
  - intros (j & -> & Hj). eauto.
Qed.

Lemma NoDup_enumerate (probs : list Q) : NoDup (enumerate probs).*1.
Proof.
  apply NoDup_alt. intros i j x Hi Hj. unfold enumerate in *.
  rewrite list_lookup_fmap, list_lookup_imap in Hi, Hj.
  destruct (probs !! i); [|discriminate]. destruct (probs !! j); [|discriminate].
  simpl in *. injection Hi as <-. injection Hj as Hj. lia.
Qed.

Lemma probabilities_dict_spec (probs : list Q) :
  size (probabilities_dict probs) = length probs /\
  (forall j p, probs !! j = Some p ->
     probabilities_dict probs !! class_label (Z.of_nat j)
     = Some (JNum (py_round p 4))) /\
  (forall k v, probabilities_dict probs !! k = Some v ->
     exists j p, probs !! j = Some p /\ k = class_label (Z.of_nat j) /\
                 v = JNum (py_round p 4)).
Proof.
  destruct (store_probabilities_spec (enumerate probs) ∅ (NoDup_enumerate probs))
    as (Hsize & Hfwd & Hbwd & _).
  { intros. apply lookup_empty. }
  fold (probabilities_dict probs) in Hsize, Hfwd, Hbwd.
  split; [|split].
  - rewrite Hsize, map_size_empty. unfold enumerate. rewrite length_imap. lia.
  - intros j p Hj. apply Hfwd, elem_of_enumerate. eauto.
  - intros k v [Hk | (i & p & Hin & -> & ->)]%Hbwd.
    + rewrite lookup_empty in Hk. discriminate.
    + apply elem_of_enumerate in Hin as (j & -> & Hj). eauto.
Qed.

Local Open Scope Q_scope.

Lemma py_round_4 (p : Q) :
  py_round p 4 == inject_Z (round_half_even (p * 10000)) / 10000 /\
  Qabs (py_round p 4 - p) <= 1 # 20000.
Proof.
  assert (E : py_round p 4 == inject_Z (round_half_even (p * 10000)) / 10000).
  { unfold py_round. change (Z.to_pos (10 ^ Z.of_nat 4)) with 10000%positive.
    rewrite Qmake_Qdiv. reflexivity. }
  split; [exact E|].
  pose proof (round_half_even_near (p * 10000)) as H.
  apply Qabs_Qle_condition in H. apply Qabs_Qle_condition.
  rewrite E.
  set (z := inject_Z (round_half_even (p * 10000))) in *.
  assert (z / 10000 == z * (1 # 10000)) as -> by (field; discriminate).
  lra.
Qed.

End ResponseBody.

(** ** The successful response *)

(** C7.  A response with status 200 carries the label of the arg-max index
    of the returned vector (the lowest index that holds a largest entry)
    under "prediction" and, under "probabilities", a
    mapping with exactly one key per entry of the vector: entry [j] sits
    under the label of [j] with its value rounded to 4 decimal places.
    Labels come from the fixed table for 0..3 and read "Class {i}" for
    every other index. *)
Theorem predict_success_body
    (E : Env) (request : Request) (w w' : World) (r : Response) :
  predict E request w = (w', Ok r) ->
  status r = 200%Z ->
  exists (probs : list Q) (i : nat),
    (exists path w1 w2, predict_file E path w1 = (w2, Ok (probs, Z.of_nat i))) /\
    Np.argmax probs = Ok i /\
    (exists p,
        probs !! i = Some p /\
        (forall j q, probs !! j = Some q -> (q <= p)%Q) /\
        (forall j q, probs !! j = Some q -> (q == p)%Q -> (i <= j)%nat)) /\
    body r = JObj {[ "prediction" := JStr (class_label (Z.of_nat i));
                     "probabilities" := JObj (probabilities_dict probs) ]} /\
    size (probabilities_dict probs) = length probs /\
    (forall j p, probs !! j = Some p ->
       probabilities_dict probs !! class_label (Z.of_nat j)
       = Some (JNum (py_round p 4))) /\
    (forall k v, probabilities_dict probs !! k = Some v ->
       exists j p, probs !! j = Some p /\ k = class_label (Z.of_nat j) /\
                   v = JNum (py_round p 4)) /\
    (class_label 0 = "AtlanticCanary" /\
     class_label 1 = "Sooty-headedBulbul" /\
     class_label 2 = "ZebraDove" /\
     class_label 3 = "MoustachedBabbler") /\
    (forall j, (j < 0 \/ 4 <= j)%Z -> class_label j = "Class " +:+ pretty j) /\
    (forall p,
       (py_round p 4 == inject_Z (round_half_even (p * 10000)) / 10000)%Q /\
       (Qabs (py_round p 4 - p) <= 1 # 20000)%Q).
Proof.
  intros Hrun Hstatus.
  destruct (predict_200_inv E request w w' r Hrun Hstatus)
    as (file & d1 & w2 & probs & idx & _ & _ & Hpf & _ & ->).
  destruct (predict_file_Ok E _ _ _ _ _ Hpf) as (preds & i & _ & Harg & ->).
  destruct (probabilities_dict_spec probs) as (Hsize & Hfwd & Hbwd).
  exists probs, i.
  split; [eauto|]. split; [exact Harg|].
  split; [exact (argmax_spec probs i Harg)|]. split; [reflexivity|].
  split; [exact Hsize|]. split; [exact Hfwd|]. split; [exact Hbwd|].
  split; [exact class_label_table|]. split; [exact class_label_fallback|].
  exact py_round_4.
Qed.

Example class_label_7 : class_label 7 = "Class 7".
Proof. reflexivity. Qed.

Example class_label_minus_1 : class_label (-1) = "Class -1".
Proof. reflexivity. Qed.

Example py_round_down : (py_round (123449 # 1000000) 4 == 1234 # 10000)%Q.
Proof. reflexivity. Qed.

Example py_round_up : (py_round (123451 # 1000000) 4 == 1235 # 10000)%Q.
Proof. reflexivity. Qed.

(** ** Runs on the stand-in environment *)

Section Runs.

Lemma predict_validation_errors_witness :
  predict Stub.env (mkRequest ∅) Stub.empty_world
  = (Stub.empty_world,
     Ok (mkResponse 400
           (JObj {[ "error" := JStr "No file part in the request" ]}))) /\
  predict Stub.env (Stub.upload "" "ab") Stub.empty_world
  = (Stub.empty_world,
     Ok (mkResponse 400 (JObj {[ "error" := JStr "No selected file" ]}))) /\
  predict Stub.env (Stub.upload "notes.txt" "ab") Stub.empty_world
  = (Stub.empty_world,
     Ok (mkResponse 400
           (JObj {[ "error" := JStr "Unsupported file extension" ]}))).
Proof.
  split; [|split].
  - apply (predict_validation_errors Stub.env). reflexivity.
  - apply (proj1 (proj2 (predict_validation_errors Stub.env _ _))
             (mkFileStorage "" "ab")); reflexivity.
  - apply (proj2 (proj2 (predict_validation_errors Stub.env _ _))
             (mkFileStorage "notes.txt" "ab"));
      [reflexivity | discriminate | reflexivity].
Defined.

Lemma predict_400_no_effect_witness :
  fst (predict Stub.env (Stub.upload "notes.txt" "ab") Stub.empty_world)
  = Stub.empty_world.
Proof.
  apply (predict_400_no_effect Stub.env (Stub.upload "notes.txt" "ab")
           Stub.empty_world _
           (mkResponse 400 (error_body "Unsupported file extension")));
    reflexivity.
Defined.

Lemma predict_no_segments_witness :
  fst (predict_file Stub.env "uploads/bird.wav"
         (mkWorld {[ "uploads/bird.wav" := "x" ]} []))
  = mkWorld {[ "uploads/bird.wav" := "x" ]} [EvOpen "uploads/bird.wav"; EvSplit] /\
  snd (predict Stub.env (Stub.upload "bird.wav" "x") Stub.empty_world)
  = Ok (mkResponse 500
          (JObj {[ "error" :=
                     JStr "Inference failed: No valid audio segments found." ]})).
Proof.
  split.
  - destruct (proj1 (predict_no_segments Stub.env) "uploads/bird.wav"
                (mkWorld {[ "uploads/bird.wav" := "x" ]} []) [inject_Z 120])
      as (calls & -> & -> & _); reflexivity.
  - rewrite (proj2 (predict_no_segments Stub.env)
               (Stub.upload "bird.wav" "x") (mkFileStorage "bird.wav" "x")
               Stub.empty_world {[ "uploads/bird.wav" := "x" ]} [inject_Z 120]);
      [reflexivity | reflexivity | discriminate | reflexivity .. ].
Defined.

Lemma predict_remove_raises_witness :
  snd (predict Stub.env_denied (Stub.upload "bird.wav" "ab") Stub.empty_world)
  = Ok (mkResponse 500
          (JObj {[ "error" :=
                     JStr "Inference failed: [Errno 13] Permission denied: 'uploads/bird.wav'" ]})).
Proof.
  erewrite (predict_remove_raises Stub.env_denied
              (Stub.upload "bird.wav" "ab") (mkFileStorage "bird.wav" "ab")
              Stub.empty_world);
    [ | reflexivity | discriminate | reflexivity | reflexivity
      | vm_compute; reflexivity | reflexivity].
  reflexivity.
Defined.

Lemma predict_success_body_witness :
  exists (probs : list Q) (i : nat),
    Np.argmax probs = Ok i /\
    size (probabilities_dict probs) = length probs.
Proof.
  destruct (predict_success_body Stub.env (Stub.upload "bird.wav" "ab")
              Stub.empty_world
              (fst (predict Stub.env (Stub.upload "bird.wav" "ab") Stub.empty_world))
              (mkResponse 200
                 (prediction_body
                    (Np.mean_axis0 Weak [[1 # 8; 5 # 8; 1 # 8; 1 # 8]]) 1)))
    as (probs & i & _ & Harg & _ & _ & Hsize & _).
  - vm_compute. reflexivity.
  - reflexivity.
  - exists probs, i. split; assumption.
Defined.

(** The response to a valid upload of one window. *)
Example predict_bird_ok :
  predict Stub.env (Stub.upload "bird.wav" "ab") Stub.empty_world
  = (mkWorld ∅ [EvSave "uploads/bird.wav"; EvOpen "uploads/bird.wav"; EvSplit;
                EvMelspectrogram; EvResize; EvModelPredict;
                EvRemove "uploads/bird.wav"],
     Ok (mkResponse 200
           (JObj {[ "prediction" := JStr "Sooty-headedBulbul";
                    "probabilities" :=
                      JObj {[ "AtlanticCanary" := JNum (1250 # 10000);
                              "Sooty-headedBulbul" := JNum (6250 # 10000);
                              "ZebraDove" := JNum (1250 # 10000);
                              "MoustachedBabbler" := JNum (1250 # 10000) ]} ]}))).
Proof. vm_compute. reflexivity. Qed.

Lemma Stub_remove_removes (d d' : gmap string string) (path : string) :
  Stub.remove d path = (d', Ok tt) -> d' !! path = None.
Proof.
  unfold Stub.remove. destruct (d !! path); [|discriminate].
  intros [= <-]. apply lookup_delete_eq.
Qed.

(** The upload of one window is removed after the prediction. *)
Example predict_bird_ok_removed :
  ~ exists_on_disk "uploads/bird.wav"
      (fst (predict Stub.env (Stub.upload "bird.wav" "ab") Stub.empty_world)).
Proof. rewrite predict_bird_ok. simpl. apply is_Some_None. Qed.

(** C1 fails on the code.  An accepted upload whose audio yields no
    segment: inference raises, the handler answers 500 from the [except]
    clause, [os.remove] is never called and the upload is still on disk
    when the handler returns. *)
Theorem upload_left_on_disk_when_inference_fails :
  exists w',
    predict Stub.env (Stub.upload "bird.wav" "x") Stub.empty_world
    = (w', Ok (mkResponse 500
                 (error_body "Inference failed: No valid audio segments found."))) /\
    upload_path Stub.env (mkFileStorage "bird.wav" "x") = "uploads/bird.wav" /\
    disk w' !! "uploads/bird.wav" = Some "x" /\
    exists_on_disk "uploads/bird.wav" w' /\
    trace w' = [EvSave "uploads/bird.wav"; EvOpen "uploads/bird.wav"; EvSplit].
Proof.
  eexists. split.
  - apply (predict_inference_raises Stub.env
             (Stub.upload "bird.wav" "x") (mkFileStorage "bird.wav" "x")
             Stub.empty_world _ {[ "uploads/bird.wav" := "x" ]}
             (ValueError "No valid audio segments found."));
      [reflexivity | discriminate | reflexivity | reflexivity |].
    apply (predict_file_no_segments_run Stub.env _ _ [inject_Z 120]);
      reflexivity.
  - simpl. split; [reflexivity|]. split; [reflexivity|].
    split; [|reflexivity]. exists "x". reflexivity.
Qed.

End Runs.


(** * Further properties *)

(** ** Normalization and averaging *)

Section MoreArrays.

Local Open Scope Q_scope.
Local Open Scope list_scope.

(** A normalization of numbers that returns, with a range that does not
    overflow. *)
Lemma normalize_Ok_finite (p : Promotion) (qs : list Q) (out : list Float.t) :
  normalize p (Float.Fin <$> qs) = Ok out ->
  (forall lo hi,
     Np.min (Float.Fin <$> qs) = Ok lo -> Np.max (Float.Fin <$> qs) = Ok hi ->
     Float.is_finite (Float.sub Float.binary32 hi lo) = true) ->
  exists lo d,
    (forall y, y ∈ qs -> lo <= y) /\ 0 < d /\
    (forall y, y ∈ qs -> Float.round_fin Float.binary32 (y - lo) <= d) /\
    out = Float.Fin <$> (scaled lo d <$> qs).
Proof.
  intros Hn Hrange.
  assert (Hqs : qs <> []) by (intros ->; discriminate Hn).
  destruct (Np_min_Fin qs Hqs) as (lo & Hmin & Hlo_in & Hlo).
  destruct (Np_max_Fin qs Hqs) as (hi & Hmax & Hhi_in & Hhi).
  assert (Hbounds : forall y, y ∈ qs -> lo <= y <= hi) by (intros y Hy; split; auto).
  specialize (Hrange _ _ Hmin Hmax).
  destruct (Float.sub Float.binary32 (Float.Fin hi) (Float.Fin lo))
    as [a | | |] eqn:Hsub; try discriminate Hrange.
  assert (Ha : a = Float.round_fin Float.binary32 (hi - lo) /\ a < Float.pow2 128).
  { rewrite sub_Fin in Hsub. apply round_Fin_inv in Hsub. exact Hsub. }
  destruct Ha as [Ea Halt].
  assert (Hlh : lo <= hi) by (apply Hlo, Hhi_in).
  assert (Ha0 : 0 <= a) by (rewrite Ea; apply round_fin_nonneg; lra).
  assert (Harep : representable Float.binary32 a)
    by (rewrite Ea; apply representable_round; [exact prec32 | lra]).
  destruct (denominator_spec p a Ha0 Harep Halt) as (d & Hden & Had & Hd & _).
  unfold normalize in Hn. rewrite Hmin, Hmax, Hsub, Hden in Hn.
  rewrite (normalize_finite p qs lo hi a d Hmin Hmax Hbounds Hsub Hden Had Hd) in Hn.
  injection Hn as <-. exists lo, d.
  split; [exact Hlo|]. split; [exact Hd|]. split; [|reflexivity].
  intros y Hy. eapply Qle_trans; [|exact Had]. rewrite Ea.
  destruct (Hbounds y Hy). apply round_fin_mono; [exact prec32 | lra | lra].
Qed.

(** The array handed to the model, when the resized spectrogram holds
    numbers only and its range does not overflow: it has the length of the
    spectrogram, all its elements are numbers between 0 and 1, and the
    order of the elements is kept. *)
Theorem normalize_range (p : Promotion) (x out : list Float.t) :
  normalize p x = Ok out ->
  finite_array x ->
  (forall lo hi,
     Np.min x = Ok lo -> Np.max x = Ok hi ->
     Float.is_finite (Float.sub Float.binary32 hi lo) = true) ->
  length out = length x /\
  Forall (value_in 0 1) out /\
  (forall i j a b,
      x !! i = Some (Float.Fin a) -> x !! j = Some (Float.Fin b) -> a <= b ->
      exists a' b',
        out !! i = Some (Float.Fin a') /\ out !! j = Some (Float.Fin b') /\
        a' <= b').
Proof.
  intros Hn Hfin Hrange. destruct (finite_array_Fin x Hfin) as [qs ->].
  destruct (normalize_Ok_finite p qs out Hn Hrange) as (lo & d & Hlo & Hd & Hle & ->).
  split; [rewrite !length_fmap; reflexivity|]. split.
  - apply Forall_fmap, Forall_fmap, Forall_forall. intros y Hy.
    exists (scaled lo d y). split; [reflexivity|]. split.
    + apply scaled_nonneg; [apply Hlo, Hy | exact Hd].
    + apply scaled_le_1; [apply Hlo, Hy | exact Hd | apply Hle, Hy].
  - intros i j a b Ha Hb Hab.
    apply list_lookup_fmap_Some in Ha as (a0 & [= ->] & Ha).
    apply list_lookup_fmap_Some in Hb as (b0 & [= ->] & Hb).
    rename a0 into a, b0 into b.
    exists (scaled lo d a), (scaled lo d b).
    rewrite !list_lookup_fmap, Ha, Hb. split; [reflexivity|]. split; [reflexivity|].
    apply scaled_mono; [|exact Hab | exact Hd].
    apply Hlo. eapply list_elem_of_lookup_2. exact Ha.
Qed.

Lemma normalize_range_witness :
  exists out,
    normalize Legacy [Float.Fin 2; Float.Fin 5; Float.Fin 3] = Ok out /\
    length out = 3%nat /\ Forall (value_in 0 1) out.
Proof.
  eexists. split; [vm_compute; reflexivity|].
  destruct (normalize_range Legacy [Float.Fin 2; Float.Fin 5; Float.Fin 3]
              [Float.Fin 0; Float.Fin (8388608 # 8388608);
               Float.Fin (11184811 # 33554432)])
    as (Hlen & Hin & _).
  - vm_compute. reflexivity.
  - repeat constructor.
  - intros lo hi [= <-] [= <-]. vm_compute. reflexivity.
  - split; assumption.
Defined.

(** *** An array that holds a NaN *)

Lemma foldl_minimum_NaN (t : list Float.t) :
  foldl Float.minimum Float.NaN t = Float.NaN.
Proof. induction t as [|b t IH]; [reflexivity | exact IH]. Qed.

Lemma foldl_maximum_NaN (t : list Float.t) :
  foldl Float.maximum Float.NaN t = Float.NaN.
Proof. induction t as [|b t IH]; [reflexivity | exact IH]. Qed.

Lemma minimum_NaN_r (a : Float.t) : Float.minimum a Float.NaN = Float.NaN.
Proof. destruct a; reflexivity. Qed.

Lemma maximum_NaN_r (a : Float.t) : Float.maximum a Float.NaN = Float.NaN.
Proof. destruct a; reflexivity. Qed.

Lemma Np_min_NaN (x : list Float.t) :
  Float.NaN ∈ x -> Np.min x = Ok Float.NaN.
Proof.
  destruct x as [|a t]; [intros H; inversion H|]. intros Hin. simpl. f_equal.
  apply elem_of_cons in Hin as [<- | Hin]; [apply foldl_minimum_NaN|].
  revert a. induction t as [|b t IH]; intros a; [inversion Hin|].
  cbn [foldl]. apply elem_of_cons in Hin as [<- | Hin].
  - rewrite minimum_NaN_r. apply foldl_minimum_NaN.
  - apply IH, Hin.
Qed.

Lemma Np_max_NaN (x : list Float.t) :
  Float.NaN ∈ x -> Np.max x = Ok Float.NaN.
Proof.
  destruct x as [|a t]; [intros H; inversion H|]. intros Hin. simpl. f_equal.
  apply elem_of_cons in Hin as [<- | Hin]; [apply foldl_maximum_NaN|].
  revert a. induction t as [|b t IH]; intros a; [inversion Hin|].
  cbn [foldl]. apply elem_of_cons in Hin as [<- | Hin].
  - rewrite maximum_NaN_r. apply foldl_maximum_NaN.
  - apply IH, Hin.
Qed.

(** One NaN in the resized spectrogram and the whole array handed to the
    model is NaN: the minimum and the maximum of the array are NaN, and so
    are every difference and every quotient. *)
Theorem normalize_nan (p : Promotion) (x : list Float.t) :
  Float.NaN ∈ x ->
  Np.min x = Ok Float.NaN /\ Np.max x = Ok Float.NaN /\
  normalize p x = Ok (replicate (length x) Float.NaN).
Proof.
  intros Hin. pose proof (Np_min_NaN x Hin) as Hmin.
  pose proof (Np_max_NaN x Hin) as Hmax.
  split; [exact Hmin|]. split; [exact Hmax|].
  unfold normalize. rewrite Hmin, Hmax. f_equal.
  clear. induction x as [|v x IH]; [reflexivity|].
  rewrite fmap_cons, IH. cbn [length replicate]. f_equal.
  destruct v; reflexivity.
Qed.

Lemma normalize_nan_witness :
  normalize Legacy [Float.Fin 0; Float.NaN; Float.Fin 1]
  = Ok [Float.NaN; Float.NaN; Float.NaN].
Proof.
  apply (normalize_nan Legacy [Float.Fin 0; Float.NaN; Float.Fin 1]).
  right. left.
Defined.

(** *** The mean of probabilities *)

Lemma true_divide_unit (p : Promotion) (s n : Q) :
  0 <= s <= n -> 0 < n -> unit_interval (Np.true_divide p s n).
Proof.
  intros [Hs0 Hsn] Hn.
  assert (Hq0 : 0 <= s / n) by (apply Qle_shift_div_l; lra).
  assert (Hq1 : s / n <= 1) by (apply Qle_shift_div_r; lra).
  assert (H64 : Float.round_fin Float.binary64 1 == 1) by (vm_compute; reflexivity).
  destruct p; unfold Np.true_divide, unit_interval.
  - split; [apply round_fin_nonneg; exact Hq0|].
    rewrite <- round_fin32_1. apply round_fin_mono; [exact prec32 | exact Hq0 | exact Hq1].
  - assert (0 <= Float.round_fin Float.binary64 (s / n))
      by (apply round_fin_nonneg; exact Hq0).
    assert (Float.round_fin Float.binary64 (s / n) <= 1).
    { rewrite <- H64. apply round_fin_mono; [exact prec64 | exact Hq0 | exact Hq1]. }
    split; [apply round_fin_nonneg; assumption|].
    rewrite <- round_fin32_1. apply round_fin_mono; [exact prec32 | assumption..].
Qed.

Lemma zip_with_add32_bounded (m : nat) (acc row : list Q) :
  (Z.of_nat (S m) <= 2 ^ 24)%Z ->
  Forall (fun s => 0 <= s <= inject_Z (Z.of_nat m)) acc ->
  Forall unit_interval row ->
  Forall (fun s => 0 <= s <= inject_Z (Z.of_nat (S m))) (zip_with Np.add32 acc row).
Proof.
  intros Hm Hacc. revert row.
  induction Hacc as [|s acc [Hs0 Hsm] _ IH]; intros [|a row] Hrow; simpl;
    try constructor.
  - apply Forall_cons in Hrow as [[Ha0 Ha1] _]. unfold Np.add32. split.
    + apply round_fin_nonneg. lra.
    + rewrite <- (round_fin_Z Float.binary32 prec32 (Z.of_nat (S m)));
        [|change (Float.prec Float.binary32) with 24%Z; lia | cbn; lia].
      apply round_fin_mono; [exact prec32 | lra|]. rewrite inject_Z_S. lra.
  - apply IH. apply Forall_cons in Hrow as [_ Hrow]. exact Hrow.
Qed.

Lemma foldl_add32_bounded (rs : list (list Q)) (m : nat) (acc : list Q) :
  (Z.of_nat (m + length rs) <= 2 ^ 24)%Z ->
  Forall (fun s => 0 <= s <= inject_Z (Z.of_nat m)) acc ->
  Forall (Forall unit_interval) rs ->
  Forall (fun s => 0 <= s <= inject_Z (Z.of_nat (m + length rs)))
         (foldl (zip_with Np.add32) acc rs).
Proof.
  revert m acc. induction rs as [|row rs IH]; intros m acc Hm Hacc Hrows; simpl.
  - rewrite Nat.add_0_r. exact Hacc.
  - apply Forall_cons in Hrows as [Hrow Hrows]. simpl in Hm.
    replace (m + S (length rs))%nat with (S m + length rs)%nat in * by lia.
    apply IH; [exact Hm | | exact Hrows].
    apply zip_with_add32_bounded; [lia | exact Hacc | exact Hrow].
Qed.

Lemma foldl_zip_with_length {A} (f : A -> A -> A) (rs : list (list A))
    (acc : list A) (c : nat) :
  length acc = c -> Forall (fun row => length row = c) rs ->
  length (foldl (zip_with f) acc rs) = c.
Proof.
  revert acc. induction rs as [|row rs IH]; intros acc Hacc Hrows; simpl.
  - exact Hacc.
  - apply Forall_cons in Hrows as [Hrow Hrows].
    apply IH; [|exact Hrows]. rewrite length_zip_with. lia.
Qed.

(** The average of up to [2 ^ 24] rows of probabilities of one length is a
    vector of probabilities of that length. *)
Theorem mean_axis0_unit_interval
    (p : Promotion) (preds : list (list Q)) (c : nat) :
  preds <> [] ->
  (Z.of_nat (length preds) <= 2 ^ 24)%Z ->
  Forall (fun row => length row = c /\ Forall unit_interval row) preds ->
  length (Np.mean_axis0 p preds) = c /\
  Forall unit_interval (Np.mean_axis0 p preds).
Proof.
  destruct preds as [|r rs]; [congruence|]. intros _ Hn Hrows.
  apply Forall_cons in Hrows as [[Hlen Hr] Hrows].
  unfold Np.mean_axis0, mean_axis0_with.
  pose proof (count_exact p (length (r :: rs)) Hn) as Hcount.
  set (N := Np.count p (length (r :: rs))) in *.
  assert (HN : 0 < N).
  { rewrite Hcount. change 0 with (inject_Z 0). rewrite <- Zlt_Qlt. simpl. lia. }
  split.
  - rewrite length_fmap. apply foldl_zip_with_length; [exact Hlen|].
    eapply Forall_impl; [exact Hrows|]. intros row [H _]. exact H.
  - apply Forall_fmap.
    assert (Hsum : Forall (fun s => 0 <= s <= inject_Z (Z.of_nat (1 + length rs)))
                     (foldl (zip_with Np.add32) r rs)).
    { apply foldl_add32_bounded.
      - simpl in Hn. lia.
      - eapply Forall_impl; [exact Hr|]. intros q Hq. exact Hq.
      - eapply Forall_impl; [exact Hrows|]. intros row [_ H]. exact H. }
    eapply Forall_impl; [exact Hsum|]. intros s Hs. cbn beta.
    apply true_divide_unit; [|exact HN].
    rewrite Hcount. exact Hs.
Qed.

Lemma mean_axis0_unit_interval_witness :
  Forall unit_interval
    (Np.mean_axis0 Weak [[1 # 8; 5 # 8; 1 # 8; 1 # 8];
                         [1 # 2; 1 # 4; 1 # 4; 0]]).
Proof.
  apply (mean_axis0_unit_interval Weak _ 4); [discriminate | cbn; lia|].
  repeat constructor; discriminate.
Defined.

End MoreArrays.


(** ** File names, labels and the probabilities mapping *)

Section MoreResponse.

Import PyStr.

Lemma lower_char_idempotent c : lower_char (lower_char c) = lower_char c.
Proof. destruct c as [[] [] [] [] [] [] [] []]; reflexivity. Qed.

Lemma lower_idempotent s : lower (lower s) = lower s.
Proof.
  induction s as [|c t IH]; simpl; [reflexivity|].
  rewrite IH, lower_char_idempotent. reflexivity.
Qed.

Lemma lower_app a b : lower (a +:+ b) = lower a +:+ lower b.
Proof. induction a as [|c a IH]; simpl; [reflexivity|]. rewrite IH. reflexivity. Qed.

(** [allowed_file] gives the same answer on a name and on the name in
    lower case. *)
Theorem allowed_file_lower (name : string) :
  allowed_file (lower name) = allowed_file name.
Proof.
  destruct (contains "." name) eqn:Hdot.
  - destruct (rsplit1_with _ _ Hdot) as (a & b & _ & -> & Hb).
    change (String "." b) with ("." +:+ b).
    rewrite (allowed_file_dotted a b Hb).
    rewrite lower_app. change (lower ("." +:+ b)) with ("." +:+ lower b).
    rewrite allowed_file_dotted by (rewrite contains_dot_lower; exact Hb).
    rewrite lower_idempotent. reflexivity.
  - unfold allowed_file. rewrite contains_dot_lower, Hdot. reflexivity.
Qed.

Local Open Scope Z_scope.

(** Two different indices never get the same label, whether the labels
    come from the table or from the "Class {i}" fallback. *)
Theorem class_label_distinct (i j : Z) :
  i <> j -> class_label i <> class_label j.
Proof. intros Hne Heq. apply Hne. exact (class_label_inj _ _ Heq). Qed.

Lemma class_label_distinct_witness :
  class_label 3 <> class_label 4 /\ class_label 12 <> class_label 21.
Proof. split; apply class_label_distinct; lia. Defined.

Local Open Scope list_scope.

(** For a vector with one entry per class the keys of the probabilities
    mapping are exactly the four species names; an entry beyond the fourth
    is stored under its "Class {i}" label. *)
Theorem probabilities_dict_keys (probs : list Q) :
  (length probs = Z.to_nat NUM_CLASSES ->
   dom (probabilities_dict probs)
   = ({[ "AtlanticCanary"; "Sooty-headedBulbul"; "ZebraDove";
         "MoustachedBabbler" ]} : gset string)) /\
  (forall j, (4 <= j < length probs)%nat ->
     is_Some (probabilities_dict probs !! ("Class " +:+ pretty (Z.of_nat j)))).
Proof.
  destruct (probabilities_dict_spec probs) as (_ & Hfwd & Hbwd). split.
  - intros Hlen. change (Z.to_nat NUM_CLASSES) with 4%nat in Hlen.
    apply set_eq. intros k. rewrite elem_of_dom.
    rewrite !elem_of_union, !elem_of_singleton. split.
    + intros [v (j & p & Hj & -> & _)%Hbwd].
      apply lookup_lt_Some in Hj.
      assert (j = 0 \/ j = 1 \/ j = 2 \/ j = 3)%nat as [-> | [-> | [-> | ->]]] by lia;
        simpl; tauto.
    + assert (Hsome : forall j, (j < 4)%nat ->
                is_Some (probabilities_dict probs !! class_label (Z.of_nat j))).
      { intros j Hj. destruct (lookup_lt_is_Some_2 probs j) as [p Hp]; [lia|].
        rewrite (Hfwd j p Hp). eauto. }
      intros [[[-> | ->] | ->] | ->].
      * apply (Hsome 0%nat). lia.
      * apply (Hsome 1%nat). lia.
      * apply (Hsome 2%nat). lia.
      * apply (Hsome 3%nat). lia.
  - intros j [Hlo Hhi]. destruct (lookup_lt_is_Some_2 probs j Hhi) as [p Hp].
    rewrite <- class_label_fallback by lia. rewrite (Hfwd j p Hp). eauto.
Qed.

Lemma probabilities_dict_keys_witness :
  dom (probabilities_dict [1 # 10; 7 # 10; 1 # 10; 1 # 10])
  = ({[ "AtlanticCanary"; "Sooty-headedBulbul"; "ZebraDove";
        "MoustachedBabbler" ]} : gset string) /\
  is_Some (probabilities_dict [1 # 5; 1 # 5; 1 # 5; 1 # 5; 1 # 5] !! "Class 4").
Proof.
  split.
  - apply (probabilities_dict_keys [1 # 10; 7 # 10; 1 # 10; 1 # 10]). reflexivity.
  - apply (proj2 (probabilities_dict_keys [1 # 5; 1 # 5; 1 # 5; 1 # 5; 1 # 5]) 4%nat).
    simpl. lia.
Defined.

End MoreResponse.


(** ** Rounded probabilities *)

Section MoreRounding.

Local Open Scope Q_scope.
Local Open Scope list_scope.

Lemma py_round_mono (p q : Q) (n : nat) :
  p <= q -> py_round p n <= py_round q n.
Proof.
  intros Hpq. unfold py_round.
  set (s := Z.to_pos (10 ^ Z.of_nat n)).
  assert (Hr : (round_half_even (p * inject_Z (Z.pos s))
                <= round_half_even (q * inject_Z (Z.pos s)))%Z).
  { apply round_half_even_mono. apply Qmult_le_compat_r; [exact Hpq|].
    change 0 with (inject_Z 0). rewrite <- Zle_Qle. lia. }
  unfold Qle. simpl. nia.
Qed.

Lemma py_round_Z (a : Z) (n : nat) : py_round (inject_Z a) n == inject_Z a.
Proof.
  unfold py_round. set (s := Z.to_pos (10 ^ Z.of_nat n)).
  rewrite <- inject_Z_mult, round_half_even_Z.
  unfold Qeq. simpl. lia.
Qed.

Lemma py_round_unit (p : Q) (n : nat) :
  0 <= p <= 1 -> 0 <= py_round p n <= 1.
Proof.
  intros [H0 H1]. split.
  - rewrite <- (py_round_Z 0 n). apply py_round_mono. exact H0.
  - rewrite <- (py_round_Z 1 n). apply py_round_mono. exact H1.
Qed.

(** When every averaged probability lies in [0, 1], so does every value of
    the probabilities mapping, and every value is a number. *)
Theorem probabilities_dict_unit_interval (probs : list Q) :
  Forall (fun p => 0 <= p <= 1) probs ->
  forall k v, probabilities_dict probs !! k = Some v ->
    exists q, v = JNum q /\ 0 <= q <= 1.
Proof.
  intros Hprobs k v Hk.
  destruct (probabilities_dict_spec probs) as (_ & _ & Hbwd).
  destruct (Hbwd k v Hk) as (j & p & Hj & _ & ->).
  exists (py_round p 4). split; [reflexivity|].
  apply py_round_unit.
  apply (proj1 (Forall_forall _ _) Hprobs), list_elem_of_lookup. eauto.
Qed.

Lemma probabilities_dict_unit_interval_witness :
  exists q,
    probabilities_dict [1 # 3; 2 # 3] !! "AtlanticCanary" = Some (JNum q) /\
    0 <= q <= 1.
Proof.
  destruct (probabilities_dict_unit_interval [1 # 3; 2 # 3])
    with (k := "AtlanticCanary") (v := JNum (py_round (1 # 3) 4))
    as (q & Hq & Hrange).
  - repeat constructor; discriminate.
  - reflexivity.
  - exists q. rewrite <- Hq. split; [reflexivity | exact Hrange].
Defined.

(** In a response with status 200 the predicted label is a key of the
    probabilities mapping, and no value of the mapping is larger than the
    one stored under it. *)
Theorem prediction_has_largest_probability
    (E : Env) (request : Request) (w w' : World) (r : Response) :
  predict E request w = (w', Ok r) ->
  status r = 200%Z ->
  exists (probs : list Q) (i : nat) (p : Q),
    body r = prediction_body probs (Z.of_nat i) /\
    probs !! i = Some p /\
    probabilities_dict probs !! class_label (Z.of_nat i)
    = Some (JNum (py_round p 4)) /\
    (forall k q, probabilities_dict probs !! k = Some (JNum q) ->
                 q <= py_round p 4).
Proof.
  intros Hrun Hstatus.
  destruct (predict_200_inv E request w w' r Hrun Hstatus)
    as (file & d1 & w2 & probs & idx & _ & _ & Hpf & _ & ->).
  destruct (predict_file_Ok E _ _ _ _ _ Hpf) as (preds & i & _ & Harg & ->).
  destruct (argmax_spec probs i Harg) as (p & Hp & Hmax & _).
  destruct (probabilities_dict_spec probs) as (_ & Hfwd & Hbwd).
  exists probs, i, p. split; [reflexivity|]. split; [exact Hp|].
  split; [apply Hfwd, Hp|].
  intros k q (j & p' & Hj & _ & Hq)%Hbwd. injection Hq as ->.
  apply py_round_mono. exact (Hmax j p' Hj).
Qed.

Lemma prediction_has_largest_probability_witness :
  exists (probs : list Q) (i : nat) (p : Q),
    probs !! i = Some p /\
    probabilities_dict probs !! class_label (Z.of_nat i)
    = Some (JNum (py_round p 4)).
Proof.
  destruct (prediction_has_largest_probability Stub.env
              (Stub.upload "bird.wav" "ab") Stub.empty_world
              (fst (predict Stub.env (Stub.upload "bird.wav" "ab") Stub.empty_world))
              (mkResponse 200
                 (prediction_body
                    (Np.mean_axis0 Weak [[1 # 8; 5 # 8; 1 # 8; 1 # 8]]) 1)))
    as (probs & i & p & _ & Hp & Hkey & _).
  - vm_compute. reflexivity.
  - reflexivity.
  - exists probs, i, p. split; assumption.
Defined.

End MoreRounding.


(** ** The pipeline and the handler, run by run *)

Section MoreHandler.

Variable E : Env.

Local Open Scope list_scope.

(** One segment: the spectrogram, the resize, the normalization. *)
Lemma preprocess_segment_run (seg : Segment E) (w : World) :
  preprocess_segment E seg w =
  match AudioUtil_melspectrogram E seg with
  | Raise e => (mkWorld (disk w) (trace w ++ [EvMelspectrogram]), Raise e)
  | Ok spec =>
      (mkWorld (disk w) (trace w ++ [EvMelspectrogram; EvResize]),
       match tf_image_resize E spec TARGET_SHAPE with
       | Raise e => Raise e
       | Ok a => normalize (numpy_promotion E) a
       end)
  end.
Proof.
  unfold preprocess_segment, call_melspectrogram, call_resize, lift, log,
    mbind, M_bind. simpl.
  destruct (AudioUtil_melspectrogram E seg) as [spec | e]; [|reflexivity].
  rewrite <- app_assoc. simpl.
  destruct (tf_image_resize E spec TARGET_SHAPE) as [a | e]; reflexivity.
Qed.

Lemma mapM_preprocess_cons (seg : Segment E) (segs : list (Segment E)) :
  mapM (preprocess_segment E) (seg :: segs)
  = (y ← preprocess_segment E seg;
     k ← mapM (preprocess_segment E) segs; mret (y :: k)).
Proof. reflexivity. Qed.

(** A successful preprocessing of all segments. *)
Lemma mapM_preprocess_Ok (segs : list (Segment E)) (w w' : World)
    (specs : list (list Float.t)) :
  mapM (preprocess_segment E) segs w = (w', Ok specs) ->
  w' = mkWorld (disk w) (trace w ++ spectrogram_calls (length segs)) /\
  Forall2 (fun seg spec =>
             exists sp a,
               AudioUtil_melspectrogram E seg = Ok sp /\
               tf_image_resize E sp TARGET_SHAPE = Ok a /\
               normalize (numpy_promotion E) a = Ok spec) segs specs.
Proof.
  revert w specs. induction segs as [|seg segs IH]; intros w specs Hrun.
  - injection Hrun as <- <-. split; [|constructor].
    unfold spectrogram_calls. simpl. rewrite app_nil_r. destruct w; reflexivity.
  - rewrite mapM_preprocess_cons in Hrun.
    apply bind_Ok_inv in Hrun as (y & w1 & Hseg & Hrun).
    apply bind_Ok_inv in Hrun as (k & w2 & Hrest & Hrun).
    injection Hrun as <- <-.
    rewrite preprocess_segment_run in Hseg.
    destruct (AudioUtil_melspectrogram E seg) as [sp | e] eqn:Hmel;
      [|discriminate Hseg].
    injection Hseg as <- Hnorm.
    destruct (tf_image_resize E sp TARGET_SHAPE) as [a | e] eqn:Hres;
      [|discriminate Hnorm].
    destruct (IH _ _ Hrest) as [-> Hall]. simpl. split.
    + f_equal. rewrite <- app_assoc. reflexivity.
    + constructor; [eauto | exact Hall].
Qed.

(** Any preprocessing, finished or not: only spectrogram and resize calls,
    and the disk as before. *)
Lemma mapM_preprocess_events (segs : list (Segment E)) (w w' : World)
    (r : Result (list (list Float.t))) :
  mapM (preprocess_segment E) segs w = (w', r) ->
  exists evs,
    w' = mkWorld (disk w) (trace w ++ evs) /\
    Forall (fun ev => ev = EvMelspectrogram \/ ev = EvResize) evs.
Proof.
  revert w w' r. induction segs as [|seg segs IH]; intros w w' r Hrun.
  - injection Hrun as <- <-. exists []. split; [|constructor].
    rewrite app_nil_r. destruct w; reflexivity.
  - rewrite mapM_preprocess_cons in Hrun.
    unfold mbind at 1, M_bind at 1 in Hrun.
    rewrite preprocess_segment_run in Hrun.
    destruct (AudioUtil_melspectrogram E seg) as [sp | e].
    + destruct (match tf_image_resize E sp TARGET_SHAPE with
                | Ok a => normalize (numpy_promotion E) a
                | Raise e => Raise e end) as [y | e].
      * unfold mbind, M_bind in Hrun.
        destruct (mapM (preprocess_segment E) segs _) as [w2 r2] eqn:Hrest.
        destruct (IH _ _ _ Hrest) as (evs & -> & Hevs). simpl in *.
        exists ([EvMelspectrogram; EvResize] ++ evs). split.
        -- destruct r2; injection Hrun as <- _; rewrite <- app_assoc; reflexivity.
        -- constructor; [auto|]. constructor; [auto|]. exact Hevs.
      * injection Hrun as <- _. exists [EvMelspectrogram; EvResize].
        split; [reflexivity|].
        constructor; [auto|]. constructor; [auto|]. constructor.
    + injection Hrun as <- _. exists [EvMelspectrogram].
      split; [reflexivity|]. constructor; [auto|]. constructor.
Qed.

Lemma bind_run {A B} (m : M A) (f : A -> M B) (w : World) :
  (m ≫= f) w
  = match m w with
    | (w1, Ok a) => f a w1
    | (w1, Raise e) => (w1, Raise e)
    end.
Proof. reflexivity. Qed.

Lemma call_open_run (path : string) (w : World) :
  call_open E path SAMPLE_RATE true w
  = (mkWorld (disk w) (trace w ++ [EvOpen path]),
     AudioUtil_open E (disk w) path SAMPLE_RATE true).
Proof. reflexivity. Qed.

Lemma call_split_run (audio : Audio E) (w : World) :
  call_split E audio WINDOW_MS OVERLAP_MS w
  = (mkWorld (disk w) (trace w ++ [EvSplit]),
     AudioUtil_split E audio WINDOW_MS OVERLAP_MS).
Proof. reflexivity. Qed.

Lemma call_model_predict_run (batch : list (list Float.t)) (w : World) :
  call_model_predict E batch w
  = (mkWorld (disk w) (trace w ++ [EvModelPredict]), model_predict E batch).
Proof. reflexivity. Qed.

(** A run of [predict_file] that returns: the loader and the windower are
    called once each, then the spectrogram and the resize once per segment,
    then the model once.  The batch handed to the model holds one array per
    segment, in the order of the segments: the array of a segment is the
    normalization of the resized spectrogram of that segment.  The result
    is the average of what the model returned with the lowest index of a
    largest entry, and the disk is as before. *)
Theorem predict_file_success_run
    (path : string) (w w' : World) (probs : list Q) (pred_idx : Z) :
  predict_file E path w = (w', Ok (probs, pred_idx)) ->
  exists audio segs batch preds i,
    AudioUtil_open E (disk w) path SAMPLE_RATE true = Ok audio /\
    AudioUtil_split E audio WINDOW_MS OVERLAP_MS = Ok segs /\
    segs <> [] /\
    Forall2 (fun seg arr =>
               exists sp a,
                 AudioUtil_melspectrogram E seg = Ok sp /\
                 tf_image_resize E sp TARGET_SHAPE = Ok a /\
                 normalize (numpy_promotion E) a = Ok arr) segs batch /\
    model_predict E batch = Ok preds /\
    probs = Np.mean_axis0 (numpy_promotion E) preds /\
    Np.argmax probs = Ok i /\ pred_idx = Z.of_nat i /\
    disk w' = disk w /\
    trace w' = trace w ++ [EvOpen path; EvSplit]
                       ++ spectrogram_calls (length segs) ++ [EvModelPredict].
Proof.
  unfold predict_file. intros Hrun.
  apply bind_Ok_inv in Hrun as (audio & w1 & Hopen & Hrun).
  rewrite call_open_run in Hopen. injection Hopen as <- Hopen.
  apply bind_Ok_inv in Hrun as (segs & w2 & Hsplit & Hrun).
  rewrite call_split_run in Hsplit. injection Hsplit as <- Hsplit.
  destruct segs as [|seg segs]; [discriminate Hrun|].
  apply bind_Ok_inv in Hrun as (batch & w3 & Hbatch & Hrun).
  apply mapM_preprocess_Ok in Hbatch as [-> Hall].
  apply bind_Ok_inv in Hrun as (preds & w4 & Hmodel & Hrun).
  rewrite call_model_predict_run in Hmodel. injection Hmodel as <- Hmodel.
  apply bind_Ok_inv in Hrun as (i & w5 & Harg & Hrun).
  unfold lift in Harg. injection Harg as <- Harg.
  unfold mret, M_ret in Hrun. injection Hrun as <- <- <-.
  exists audio, (seg :: segs), batch, preds, i.
  split; [exact Hopen|]. split; [exact Hsplit|]. split; [discriminate|].
  split; [exact Hall|].
  split; [exact Hmodel|]. split; [reflexivity|]. split; [exact Harg|].
  split; [reflexivity|]. split; [reflexivity|].
  simpl trace. rewrite <- !app_assoc. reflexivity.
Qed.

(** Any run of [predict_file], returning or raising: the disk is as before
    and only pipeline calls are made, the loader first. *)
Lemma predict_file_events (path : string) (w w' : World) (r : Result (list Q * Z)) :
  predict_file E path w = (w', r) ->
  exists evs,
    w' = mkWorld (disk w) (trace w ++ EvOpen path :: evs) /\
    Forall (fun ev => is_pipeline_event ev = true) evs.
Proof.
  unfold predict_file. rewrite bind_run, call_open_run.
  destruct (AudioUtil_open E (disk w) path SAMPLE_RATE true) as [audio | e].
  2:{ intros [= <- _]. exists []. split; [reflexivity | constructor]. }
  rewrite bind_run, call_split_run. simpl disk. simpl trace.
  destruct (AudioUtil_split E audio WINDOW_MS OVERLAP_MS) as [segs | e].
  2:{ intros [= <- _]. exists [EvSplit]. rewrite <- app_assoc.
      split; [reflexivity | repeat constructor]. }
  destruct segs as [|seg segs].
  { intros [= <- _]. exists [EvSplit]. rewrite <- app_assoc.
    split; [reflexivity | repeat constructor]. }
  rewrite bind_run.
  destruct (mapM (preprocess_segment E) (seg :: segs) _) as [w3 rb] eqn:Hbatch.
  apply mapM_preprocess_events in Hbatch as (evs & -> & Hevs). simpl in *.
  assert (Hpipe : Forall (fun ev => is_pipeline_event ev = true) evs).
  { eapply Forall_impl; [exact Hevs|]. intros ev [-> | ->]; reflexivity. }
  destruct rb as [batch | e].
  2:{ intros [= <- _]. exists (EvSplit :: evs). rewrite <- !app_assoc.
      split; [reflexivity | constructor; [reflexivity | exact Hpipe]]. }
  rewrite bind_run, call_model_predict_run. simpl disk. simpl trace.
  assert (Hall : Forall (fun ev => is_pipeline_event ev = true)
                   (EvSplit :: evs ++ [EvModelPredict])).
  { constructor; [reflexivity|]. apply Forall_app. split; [exact Hpipe|].
    repeat constructor. }
  destruct (model_predict E batch) as [preds | e].
  2:{ intros [= <- _]. exists (EvSplit :: evs ++ [EvModelPredict]).
      rewrite <- !app_assoc. split; [reflexivity | exact Hall]. }
  rewrite bind_run. unfold lift.
  destruct (Np.argmax (Np.mean_axis0 (numpy_promotion E) preds)) as [i | e];
    intros [= <- _]; exists (EvSplit :: evs ++ [EvModelPredict]);
    rewrite <- !app_assoc; (split; [reflexivity | exact Hall]).
Qed.

(** Every response of the handler is one of five: the three validation
    errors with status 400, an "Inference failed: ..." error with status
    500, or a prediction with status 200. *)
Theorem predict_response_cases (request : Request) (w w' : World) (r : Response) :
  predict E request w = (w', Ok r) ->
  r = mkResponse 400 (JObj {[ "error" := JStr "No file part in the request" ]}) \/
  r = mkResponse 400 (JObj {[ "error" := JStr "No selected file" ]}) \/
  r = mkResponse 400 (JObj {[ "error" := JStr "Unsupported file extension" ]}) \/
  (exists e,
      r = mkResponse 500
            (JObj {[ "error" := JStr ("Inference failed: " +:+ exn_str e) ]})) \/
  (exists probs pred_idx,
      r = mkResponse 200
            (JObj {[ "prediction" := JStr (class_label pred_idx);
                     "probabilities" := JObj (probabilities_dict probs) ]})).
Proof.
  intros Hrun.
  destruct (files request !! "file") as [file|] eqn:Hfile.
  - destruct (String.eqb_spec (filename file) "") as [Hname | Hname].
    + rewrite (predict_no_selected_file E request file w Hfile Hname) in Hrun.
      injection Hrun as _ <-. auto.
    + destruct (allowed_file_total (filename file)) as [Hok | Hno].
      * rewrite (predict_accepted E request file w Hfile Hname Hok) in Hrun.
        cbv zeta in Hrun.
        destruct (FileStorage_save _ _ _ _) as [d1 [[] | e]];
          [|discriminate Hrun].
        destruct (predict_file _ _ _) as [w2 [[probs idx] | e]].
        -- destruct (os_remove _ _ _) as [d3 [[] | e]]; injection Hrun as _ <-.
           ++ do 4 right. eauto.
           ++ do 3 right. left. exists e. reflexivity.
        -- injection Hrun as _ <-. do 3 right. left. exists e. reflexivity.
      * rewrite (predict_unsupported_extension E request file w Hfile Hname Hno)
          in Hrun.
        injection Hrun as _ <-. auto.
  - rewrite (predict_no_file_part E request w Hfile) in Hrun.
    injection Hrun as _ <-. auto.
Qed.

(** On an accepted request whose upload was saved, the handler calls the
    pipeline and then attempts the removal of the upload exactly when
    [predict_file] returned; between the save and that point only pipeline
    calls are made, so no other file is saved or removed. *)
Theorem predict_removal_attempted
    (request : Request) (file : FileStorage) (w : World) (d1 : gmap string string) :
  files request !! "file" = Some file ->
  filename file <> "" ->
  allowed_file (filename file) = Ok true ->
  FileStorage_save E (disk w) (upload_path E file) (stream file) = (d1, Ok tt) ->
  exists w2 res evs,
    predict_file E (upload_path E file)
                 (mkWorld d1 (trace w ++ [EvSave (upload_path E file)]))
    = (w2, res) /\
    trace w2 = trace w ++ EvSave (upload_path E file)
                       :: EvOpen (upload_path E file) :: evs /\
    Forall (fun ev => is_pipeline_event ev = true) evs /\
    trace (fst (predict E request w))
    = trace w2 ++ match res with
                  | Ok _ => [EvRemove (upload_path E file)]
                  | Raise _ => []
                  end.
Proof.
  intros Hfile Hname Hok Hsave.
  rewrite (predict_accepted E request file w Hfile Hname Hok). cbv zeta.
  rewrite Hsave.
  destruct (predict_file E (upload_path E file) _) as [w2 res] eqn:Hpf.
  destruct (predict_file_events _ _ _ _ Hpf) as (evs & Hw2 & Hevs).
  exists w2, res, evs. split; [reflexivity|].
  split; [rewrite Hw2; simpl; rewrite <- app_assoc; reflexivity|].
  split; [exact Hevs|].
  destruct res as [[probs idx] | e].
  - destruct (os_remove _ _ _) as [d3 [[] | e]]; reflexivity.
  - simpl. rewrite app_nil_r. reflexivity.
Qed.

(** On a disk where saving writes the file and removing an existing file
    deletes it, an accepted request is always answered: with status 200
    and the upload path absent from the disk when [predict_file] returns,
    with status 500 and the upload left on the disk when it raises.  In
    both cases a file that was stored under that path before is lost, and
    every other file is as before. *)
Theorem predict_disk_after
    (request : Request) (file : FileStorage) (w : World) :
  (forall d p c, FileStorage_save E d p c = (<[p := c]> d, Ok tt)) ->
  (forall d p, is_Some (d !! p) -> os_remove E d p = (delete p d, Ok tt)) ->
  files request !! "file" = Some file ->
  filename file <> "" ->
  allowed_file (filename file) = Ok true ->
  exists w' r,
    predict E request w = (w', Ok r) /\
    ((status r = 200%Z /\ disk w' = delete (upload_path E file) (disk w)) \/
     (status r = 500%Z /\
      disk w' = <[upload_path E file := stream file]> (disk w))).
Proof.
  intros Hsave Hremove Hfile Hname Hok.
  rewrite (predict_accepted E request file w Hfile Hname Hok). cbv zeta.
  rewrite Hsave.
  destruct (predict_file E (upload_path E file) _) as [w2 res] eqn:Hpf.
  destruct (predict_file_events _ _ _ _ Hpf) as (evs & -> & _). simpl.
  destruct res as [[probs idx] | e].
  - rewrite Hremove by (rewrite lookup_insert_eq; eauto).
    eexists _, _. split; [reflexivity|]. left. split; [reflexivity|].
    simpl. apply delete_insert_eq.
  - eexists _, _. split; [reflexivity|]. right. split; reflexivity.
Qed.

(** An accepted upload that the loader cannot read is answered with status
    500 and the loader's message; the windower and the model are not
    called. *)
Theorem predict_undecodable_upload
    (request : Request) (file : FileStorage) (w : World)
    (d1 : gmap string string) (e : Exn) :
  files request !! "file" = Some file ->
  filename file <> "" ->
  allowed_file (filename file) = Ok true ->
  FileStorage_save E (disk w) (upload_path E file) (stream file) = (d1, Ok tt) ->
  AudioUtil_open E d1 (upload_path E file) SAMPLE_RATE true = Raise e ->
  predict E request w
  = (mkWorld d1 (trace w ++ [EvSave (upload_path E file);
                             EvOpen (upload_path E file)]),
     Ok (mkResponse 500
           (JObj {[ "error" := JStr ("Inference failed: " +:+ exn_str e) ]}))).
Proof.
  intros Hfile Hname Hok Hsave Hopen.
  rewrite (predict_accepted E request file w Hfile Hname Hok). cbv zeta.
  rewrite Hsave. unfold predict_file. rewrite bind_run, call_open_run.
  simpl disk. rewrite Hopen. simpl. rewrite <- app_assoc. reflexivity.
Qed.

Lemma mapM_preprocess_fails (pre post : list (Segment E)) (s : Segment E)
    (w : World) (e : Exn) :
  Forall (fun seg => exists sp a out,
            AudioUtil_melspectrogram E seg = Ok sp /\
            tf_image_resize E sp TARGET_SHAPE = Ok a /\
            normalize (numpy_promotion E) a = Ok out) pre ->
  AudioUtil_melspectrogram E s = Raise e ->
  mapM (preprocess_segment E) (pre ++ s :: post) w
  = (mkWorld (disk w)
       (trace w ++ spectrogram_calls (length pre) ++ [EvMelspectrogram]),
     Raise e).
Proof.
  intros Hpre Hs. revert w.
  induction Hpre as [|seg pre (sp & a & out & Hmel & Hres & Hnorm) _ IH]; intros w.
  - simpl app. rewrite mapM_preprocess_cons, bind_run, preprocess_segment_run, Hs.
    reflexivity.
  - change ((seg :: pre) ++ s :: post) with (seg :: (pre ++ s :: post)).
    rewrite mapM_preprocess_cons, bind_run, preprocess_segment_run, Hmel, Hres, Hnorm.
    rewrite bind_run, IH. simpl. rewrite <- !app_assoc. reflexivity.
Qed.

(** Preprocessing stops at the first segment whose spectrogram raises:
    [predict_file] raises that exception, the later segments are not
    processed and the model is not called. *)
Theorem predict_file_fails_fast
    (path : string) (w : World) (audio : Audio E)
    (pre post : list (Segment E)) (s : Segment E) (e : Exn) :
  AudioUtil_open E (disk w) path SAMPLE_RATE true = Ok audio ->
  AudioUtil_split E audio WINDOW_MS OVERLAP_MS = Ok (pre ++ s :: post) ->
  Forall (fun seg => exists sp a out,
            AudioUtil_melspectrogram E seg = Ok sp /\
            tf_image_resize E sp TARGET_SHAPE = Ok a /\
            normalize (numpy_promotion E) a = Ok out) pre ->
  AudioUtil_melspectrogram E s = Raise e ->
  predict_file E path w
  = (mkWorld (disk w)
       (trace w ++ [EvOpen path; EvSplit]
                ++ spectrogram_calls (length pre) ++ [EvMelspectrogram]),
     Raise e).
Proof.
  intros Hopen Hsplit Hpre Hs.
  unfold predict_file. rewrite bind_run, call_open_run, Hopen.
  rewrite bind_run, call_split_run, Hsplit.
  destruct (pre ++ s :: post) as [|seg segs] eqn:Hsegs.
  { destruct pre; discriminate Hsegs. }
  rewrite <- Hsegs, bind_run, (mapM_preprocess_fails pre post s _ e Hpre Hs).
  simpl. rewrite <- !app_assoc. reflexivity.
Qed.

End MoreHandler.

Section MoreRuns.

Local Open Scope list_scope.

Lemma predict_file_success_run_witness :
  exists batch preds,
    Forall2 (fun seg arr =>
               normalize Weak (Float.round Float.binary32 <$> seg) = Ok arr)
            [[inject_Z 97; inject_Z 98]] batch /\
    model_predict Stub.env batch = Ok preds.
Proof.
  destruct (predict_file_success_run Stub.env "uploads/bird.wav"
              (mkWorld {[ "uploads/bird.wav" := "ab" ]} [])
              (fst (predict_file Stub.env "uploads/bird.wav"
                      (mkWorld {[ "uploads/bird.wav" := "ab" ]} [])))
              (Np.mean_axis0 Weak [[1 # 8; 5 # 8; 1 # 8; 1 # 8]]) 1)
    as (audio & segs & batch & preds & i & Hopen & Hsplit & _ & Hall & Hmodel & _).
  - vm_compute. reflexivity.
  - exists batch, preds. split; [|exact Hmodel].
    injection Hopen as <-. injection Hsplit as <-.
    eapply Forall2_impl; [exact Hall|].
    intros seg arr (sp & a & [= <-] & [= <-] & Hn). exact Hn.
Defined.

Lemma predict_response_cases_witness :
  let r := mkResponse 400 (JObj {[ "error" := JStr "Unsupported file extension" ]}) in
  r = mkResponse 400 (JObj {[ "error" := JStr "No file part in the request" ]}) \/
  r = mkResponse 400 (JObj {[ "error" := JStr "No selected file" ]}) \/
  r = mkResponse 400 (JObj {[ "error" := JStr "Unsupported file extension" ]}) \/
  (exists e,
      r = mkResponse 500
            (JObj {[ "error" := JStr ("Inference failed: " +:+ exn_str e) ]})) \/
  (exists probs pred_idx,
      r = mkResponse 200
            (JObj {[ "prediction" := JStr (class_label pred_idx);
                     "probabilities" := JObj (probabilities_dict probs) ]})).
Proof.
  apply (predict_response_cases Stub.env (Stub.upload "notes.txt" "ab")
           Stub.empty_world Stub.empty_world).
  reflexivity.
Defined.

Lemma predict_removal_attempted_witness :
  exists w2 res,
    predict_file Stub.env "uploads/bird.wav"
                 (mkWorld {[ "uploads/bird.wav" := "x" ]} [EvSave "uploads/bird.wav"])
    = (w2, res) /\
    trace (fst (predict Stub.env (Stub.upload "bird.wav" "x") Stub.empty_world))
    = trace w2 ++ match res with
                  | Ok _ => [EvRemove "uploads/bird.wav"]
                  | Raise _ => []
                  end.
Proof.
  destruct (predict_removal_attempted Stub.env (Stub.upload "bird.wav" "x")
              (mkFileStorage "bird.wav" "x") Stub.empty_world
              {[ "uploads/bird.wav" := "x" ]})
    as (w2 & res & evs & Hpf & _ & _ & Htrace);
    [reflexivity | discriminate | reflexivity | reflexivity |].
  exists w2, res. split; [exact Hpf | exact Htrace].
Defined.

Lemma predict_disk_after_witness :
  exists w' r,
    predict Stub.env (Stub.upload "bird.wav" "ab")
            (mkWorld {[ "uploads/bird.wav" := "an older upload" ]} [])
    = (w', Ok r) /\
    ((status r = 200%Z /\
      disk w' = delete "uploads/bird.wav" {[ "uploads/bird.wav" := "an older upload" ]}) \/
     (status r = 500%Z /\
      disk w' = <["uploads/bird.wav" := "ab"]>
                  {[ "uploads/bird.wav" := "an older upload" ]})).
Proof.
  apply (predict_disk_after Stub.env (Stub.upload "bird.wav" "ab")
           (mkFileStorage "bird.wav" "ab")).
  - reflexivity.
  - intros d p [c Hc]. simpl. unfold Stub.remove. rewrite Hc. reflexivity.
  - reflexivity.
  - discriminate.
  - reflexivity.
Defined.

Lemma predict_undecodable_upload_witness :
  snd (predict env_no_audio (Stub.upload "bird.wav" "ab") Stub.empty_world)
  = Ok (mkResponse 500
          (JObj {[ "error" := JStr "Inference failed: Error opening audio" ]})).
Proof.
  rewrite (predict_undecodable_upload env_no_audio (Stub.upload "bird.wav" "ab")
             (mkFileStorage "bird.wav" "ab") Stub.empty_world
             {[ "uploads/bird.wav" := "ab" ]} (mkExn "RuntimeError" "Error opening audio"));
    [reflexivity | reflexivity | discriminate | reflexivity | reflexivity | reflexivity].
Defined.

Lemma predict_file_fails_fast_witness :
  snd (predict_file env_bad_second_window "uploads/bird.wav"
         (mkWorld {[ "uploads/bird.wav" := "abcdef" ]} []))
  = Raise (ValueError "Input signal is silent").
Proof.
  rewrite (predict_file_fails_fast env_bad_second_window "uploads/bird.wav"
             (mkWorld {[ "uploads/bird.wav" := "abcdef" ]} [])
             (Stub.samples "abcdef")
             [[inject_Z 97; inject_Z 98]] [[inject_Z 101; inject_Z 102]]
             [inject_Z 99; inject_Z 100] (ValueError "Input signal is silent")).
  - reflexivity.
  - reflexivity.
  - reflexivity.
  - constructor; [|constructor].
    eexists _, _, _. split; [reflexivity|]. split; reflexivity.
  - reflexivity.
Defined.

End MoreRuns.
